(** * Beasties: critical-CSS partitioning, verified against [css.js] / [css.ts]

A shallow embedding of the CSS helpers of the [beasties] package
([packages/beasties/src/css.js] and its TypeScript successor), of the
webpack plugin's [pruneSource] override, and of the stylesheet
acquisition pipeline described in the design document.

Conventions.
- A JavaScript string is a [string] holding its UTF-8 bytes; [.length],
  which counts UTF-16 code units, is [JsString.codeUnits].  [trim]
  strips the white space of ECMAScript, in and outside ASCII; the class
  [\s] of the one regular expression of the serializer is modelled on
  its ASCII part.
- A postcss node is a record [node]; a property that may be [undefined]
  is an [option].  The mirror link [_other] is an owned field: during a
  mirrored walk the twin of a rule is reachable only through the rule.
- A callback that mutates the object it receives returns the object it
  leaves behind; exceptions ([TypeError]) are the [TypeError] result. *)

From Stdlib Require Import String Ascii List Bool Arith Lia Permutation.
From stdpp Require Import gmap strings.
From Equations Require Import Equations.
Import ListNotations.

Set Warnings "-register-all".
Local Open Scope string_scope.
Local Open Scope list_scope.
Local Open Scope nat_scope.

(** ** Results and the state-and-exception monad *)

Inductive result (A : Type) : Type :=
| Ok (a : A)
| TypeError.
Arguments Ok {A} a.
Arguments TypeError {A}.

Definition M (S A : Type) : Type := S -> result (A * S).

Definition ret {S A : Type} (a : A) : M S A := fun s => Ok (a, s).

Definition bind {S A B : Type} (m : M S A) (k : A -> M S B) : M S B :=
  fun s => match m s with
           | Ok (a, s') => k a s'
           | TypeError => TypeError
           end.

Definition throw {S A : Type} : M S A := fun _ => TypeError.

Declare Scope js_scope.
Delimit Scope js_scope with js.
Notation "x <- c1 ;; c2" := (bind c1 (fun x => c2))
  (at level 100, c1 at next level, right associativity) : js_scope.

(** ** JavaScript string built-ins *)

Module JsString.

(** [s.includes(sub)] *)
Fixpoint includes (s sub : string) : bool :=
  if String.prefix sub s then true
  else match s with
       | EmptyString => false
       | String _ s' => includes s' sub
       end.

(** White space of [String.prototype.trim] and of [\s], ASCII range:
    tab, line feed, vertical tab, form feed, carriage return, space. *)
Definition isSpace (c : ascii) : bool :=
  let n := nat_of_ascii c in
  ((9 <=? n) && (n <=? 13)) || (n =? 32).

(** White space outside ASCII, by its UTF-8 bytes: U+00A0 in two bytes;
    U+1680, U+2000 to U+200A, U+2028, U+2029, U+202F, U+205F, U+3000 and
    U+FEFF in three. *)
Definition isSpace2 (c1 c2 : ascii) : bool :=
  (nat_of_ascii c1 =? 194) && (nat_of_ascii c2 =? 160).

Definition isSpace3 (c1 c2 c3 : ascii) : bool :=
  let n1 := nat_of_ascii c1 in
  let n2 := nat_of_ascii c2 in
  let n3 := nat_of_ascii c3 in
  ((n1 =? 225) && (n2 =? 154) && (n3 =? 128))
  || ((n1 =? 226) && (n2 =? 128)
      && (((128 <=? n3) && (n3 <=? 138)) || (n3 =? 168) || (n3 =? 169) || (n3 =? 175)))
  || ((n1 =? 226) && (n2 =? 129) && (n3 =? 159))
  || ((n1 =? 227) && (n2 =? 128) && (n3 =? 128))
  || ((n1 =? 239) && (n2 =? 187) && (n3 =? 191)).

Fixpoint trimStart (s : string) : string :=
  match s with
  | EmptyString => EmptyString
  | String c1 s1 =>
    if isSpace c1 then trimStart s1
    else match s1 with
         | EmptyString => s
         | String c2 s2 =>
           if isSpace2 c1 c2 then trimStart s2
           else match s2 with
                | EmptyString => s
                | String c3 s3 => if isSpace3 c1 c2 c3 then trimStart s3 else s
                end
         end
  end.

(** The text consists of white space only. *)
Fixpoint allSpace (s : string) : bool :=
  match s with
  | EmptyString => true
  | String c1 s1 =>
    if isSpace c1 then allSpace s1
    else match s1 with
         | EmptyString => false
         | String c2 s2 =>
           if isSpace2 c1 c2 then allSpace s2
           else match s2 with
                | EmptyString => false
                | String c3 s3 => if isSpace3 c1 c2 c3 then allSpace s3 else false
                end
         end
  end.

Fixpoint trimEnd (s : string) : string :=
  match s with
  | EmptyString => EmptyString
  | String c s' => if allSpace s then EmptyString else String c (trimEnd s')
  end.

Definition trim (s : string) : string := trimEnd (trimStart s).

(** [s.length]: the number of UTF-16 code units of the text whose UTF-8
    bytes are [s].  A byte below 128 or a lead byte of a sequence of two
    or three bytes stands for one unit, a lead byte of a sequence of four
    bytes for a surrogate pair, a continuation byte for none. *)
Definition unitsOf (c : ascii) : nat :=
  let n := nat_of_ascii c in
  if n <? 128 then 1 else if n <? 192 then 0 else if n <? 240 then 1 else 2.

Fixpoint codeUnits (s : string) : nat :=
  match s with
  | EmptyString => 0
  | String c s' => unitsOf c + codeUnits s'
  end.

(** [s.slice(0, -1)] *)
Fixpoint sliceInit (s : string) : string :=
  match s with
  | EmptyString => EmptyString
  | String c EmptyString => EmptyString
  | String c s' => String c (sliceInit s')
  end.

(** [l.join(sep)] *)
Fixpoint join (sep : string) (l : list string) : string :=
  match l with
  | [] => EmptyString
  | [x] => x
  | x :: rest => x +:+ sep +:+ join sep rest
  end.

(** First occurrence of [pat] in [s]: the text before it and after it. *)
Fixpoint findSplit (s pat : string) : option (string * string) :=
  if String.prefix pat s
  then Some (EmptyString, String.substring (String.length pat) (String.length s) s)
  else match s with
       | EmptyString => None
       | String c s' =>
         match findSplit s' pat with
         | Some (b, a) => Some (String c b, a)
         | None => None
         end
       end.

(** GetSubstitution for a string pattern (no captures): [$$], [$&],
    [$`] and [$'] are expanded, any other [$] stays. *)
Fixpoint getSubstitution (matched before after replacement : string) : string :=
  match replacement with
  | EmptyString => EmptyString
  | String c EmptyString => String c EmptyString
  | String c (String d r as rest) =>
    if Ascii.eqb c "$" then
      if Ascii.eqb d "$" then String "$"%char (getSubstitution matched before after r)
      else if Ascii.eqb d "&" then matched +:+ getSubstitution matched before after r
      else if Ascii.eqb d "`" then before +:+ getSubstitution matched before after r
      else if Ascii.eqb d "'" then after +:+ getSubstitution matched before after r
      else String c (getSubstitution matched before after rest)
    else String c (getSubstitution matched before after rest)
  end.

(** [s.replace(pat, replacement)] with a string pattern. *)
Definition replace (s pat replacement : string) : string :=
  match findSplit s pat with
  | None => s
  | Some (b, a) => b +:+ getSubstitution pat b a replacement +:+ a
  end.

(** [s.replace(/\s\{$/, '{')] *)
Fixpoint replaceSpaceBrace (s : string) : string :=
  match s with
  | EmptyString => EmptyString
  | String c (String d EmptyString) =>
    if isSpace c && Ascii.eqb d "{" then String "{"%char EmptyString else s
  | String c s' => String c (replaceSpaceBrace s')
  end.

End JsString.

(** ** The postcss rule tree *)

(** The two editions of the helpers: [css.js] and its successor [css.ts].
    They differ in a few guards only; a definition that takes a [dialect]
    follows the edition it is given. *)
Inductive dialect : Type := JS | TS.

(** What a walk iterator returns: [false], [true], or nothing. *)
Inductive jsret : Type := RFalse | RTrue | RUndefined.

Definition is_false (r : jsret) : bool :=
  match r with RFalse => true | _ => false end.

Module Postcss.

(** A postcss node, with the properties the helpers read or write.
    [type] is ['root'], ['rule'], ['atrule'], ['decl'] or ['comment'];
    [name] is the at-rule name; [prop] and [value] belong to
    declarations; [raws_between] and [raws_semicolon] are [raws.between]
    and [raws.semicolon]; [has_filterSelectors] tells whether the walk has
    installed the [filterSelectors] method; [__remove] and
    [__markedSelectors] are [$$remove] and [$$markedSelectors]. *)
Inductive node : Type := mkNode {
  type : string;
  name : option string;
  selectors : option (list string);
  prop : string;
  value : string;
  raws_between : option string;
  raws_semicolon : bool;
  nodes : option (list node);
  _other : option node;
  has_filterSelectors : bool;
  __remove : bool;
  __markedSelectors : option (list string)
}.

Definition set_selectors (v : option (list string)) (n : node) : node :=
  mkNode (type n) (name n) v (prop n) (value n) (raws_between n)
         (raws_semicolon n) (nodes n) (_other n) (has_filterSelectors n)
         (__remove n) (__markedSelectors n).

Definition set_nodes (v : option (list node)) (n : node) : node :=
  mkNode (type n) (name n) (selectors n) (prop n) (value n) (raws_between n)
         (raws_semicolon n) v (_other n) (has_filterSelectors n)
         (__remove n) (__markedSelectors n).

Definition set_other (v : option node) (n : node) : node :=
  mkNode (type n) (name n) (selectors n) (prop n) (value n) (raws_between n)
         (raws_semicolon n) (nodes n) v (has_filterSelectors n)
         (__remove n) (__markedSelectors n).

Definition set_filterSelectors (n : node) : node :=
  mkNode (type n) (name n) (selectors n) (prop n) (value n) (raws_between n)
         (raws_semicolon n) (nodes n) (_other n) true
         (__remove n) (__markedSelectors n).

Definition set_remove (v : bool) (n : node) : node :=
  mkNode (type n) (name n) (selectors n) (prop n) (value n) (raws_between n)
         (raws_semicolon n) (nodes n) (_other n) (has_filterSelectors n)
         v (__markedSelectors n).

Definition set_markedSelectors (v : option (list string)) (n : node) : node :=
  mkNode (type n) (name n) (selectors n) (prop n) (value n) (raws_between n)
         (raws_semicolon n) (nodes n) (_other n) (has_filterSelectors n)
         (__remove n) v.

(** What [rule.selectors] reads after [rule.selectors = values].  On a
    postcss rule [selectors] is an accessor over the selector text: the
    setter stores [values.join(sep)] and the getter splits the text at its
    commas.  A list of selectors taken from the getter reads back as
    itself; the empty list, stored as the empty text, reads back as the
    list of one empty selector. *)
Definition assigned (values : list string) : list string :=
  match values with
  | [] => [""]
  | _ => values
  end.

(** Plain constructors used in examples. *)
Definition decl (p between v : string) : node :=
  mkNode "decl" None None p v (Some between) false None None false false None.

Definition rule (sels : list string) (body : list node) : node :=
  mkNode "rule" None (Some sels) "" "" None false (Some body) None false false None.

Definition atrule (nm : string) (body : list node) : node :=
  mkNode "atrule" (Some nm) None "" "" None false (Some body) None false false None.

Definition root (body : list node) : node :=
  mkNode "root" None None "" "" None false (Some body) None false false None.

(** A JavaScript value that holds a node, [null] or [undefined]. *)
Inductive ref : Type :=
| Null
| Undefined
| Obj (n : node).

Definition ref_of (o : option node) : ref :=
  match o with Some n => Obj n | None => Undefined end.

Definition as_option (r : ref) : option node :=
  match r with Obj n => Some n | _ => None end.

End Postcss.

(** ** Serializer: [serializeStylesheet] *)

Module Serializer.
Import Postcss JsString.

Record options : Type := { compress : bool }.

(** One invocation of the builder callback by postcss's [stringify]:
    [(result, node, type)]; [node] and [type] may be absent. *)
Record call : Type := {
  c_result : string;
  c_node : option node;
  c_type : option string
}.

Definition node_type_is (n : option node) (ty : string) : bool :=
  match n with
  | Some nd => String.eqb (type nd) ty
  | None => false
  end.

(** [node?.type === 'decl' && node.value.includes('</style>')] *)
Definition closesStyle (c : call) : bool :=
  match c_node c with
  | Some nd => String.eqb (type nd) "decl" && includes (value nd) "</style>"
  | None => false
  end.

Definition to_text (o : option string) : string :=
  match o with Some s => s | None => "undefined" end.

(** The minified text of a declaration:
    [result.replace(prefix, prefix.trim())]. *)
Definition compressDecl (res : string) (nd : node) : string :=
  let prefix := prop nd +:+ to_text (raws_between nd) in
  replace res prefix (trim prefix).

Definition type_is (t : option string) (ty : string) : bool :=
  match t with Some s => String.eqb s ty | None => false end.

(** The body of the callback passed to [stringify]: the new [cssStr]. *)
Definition builder (d : dialect) (opts : options) (cssStr : string) (c : call)
  : result string :=
  if closesStyle c then Ok cssStr
  else if negb (compress opts) then Ok (cssStr +:+ c_result c)
  else if node_type_is (c_node c) "comment" then Ok cssStr
  else if node_type_is (c_node c) "decl" then
    match c_node c with
    | Some nd => Ok (cssStr +:+ compressDecl (c_result c) nd)
    | None => Ok cssStr
    end
  else if type_is (c_type c) "start" then
    match c_node c, d with
    | None, JS => TypeError
    | None, TS => Ok (cssStr +:+ replaceSpaceBrace (c_result c))
    | Some nd, _ =>
      match (if String.eqb (type nd) "rule" then selectors nd else None) with
      | Some sels => Ok (cssStr +:+ join "," sels +:+ "{")
      | None => Ok (cssStr +:+ replaceSpaceBrace (c_result c))
      end
    end
  else
    let semi := match c_node c with Some nd => raws_semicolon nd | None => false end in
    let cssStr' :=
      if type_is (c_type c) "end" && String.eqb (c_result c) "}" && semi
      then sliceInit cssStr else cssStr in
    Ok (cssStr' +:+ trim (c_result c)).

(** Running the callback over the invocations, from left to right. *)
Fixpoint emit (d : dialect) (opts : options) (cssStr : string) (calls : list call)
  : result string :=
  match calls with
  | [] => Ok cssStr
  | c :: rest =>
    match builder d opts cssStr c with
    | Ok cssStr' => emit d opts cssStr' rest
    | TypeError => TypeError
    end
  end.

Section WithStringify.
(** postcss's [stringify(ast, builder)], an external collaborator: the
    sequence of builder invocations it performs on a tree. *)
Variable stringify : node -> list call.

Definition serializeStylesheet (d : dialect) (ast : node) (opts : options)
  : result string :=
  emit d opts "" (stringify ast).
End WithStringify.

(** The text a declaration contributes when it is not dropped. *)
Definition declText (opts : options) (c : call) : string :=
  if compress opts
  then match c_node c with
       | Some nd => compressDecl (c_result c) nd
       | None => c_result c
       end
  else c_result c.

Definition safe (c : call) : bool := negb (closesStyle c).

Definition is_decl (c : call) : bool := node_type_is (c_node c) "decl".

(** [node.value] of the node of an invocation. *)
Definition value_of (c : call) : string :=
  match c_node c with Some nd => value nd | None => "" end.

(** A declaration that the design document wants dropped: its value
    contains the text that closes a style element. *)
Definition closes_style_element (c : call) : bool :=
  is_decl c && includes (value_of c) "</style>".

(** White space that [stringify] hands over between two nodes, without
    a node and without a type. *)
Definition is_blank (c : call) : bool :=
  match c_node c, c_type c with
  | None, None => String.eqb (trim (c_result c)) ""
  | _, _ => false
  end.

(** A declaration that is kept. *)
Definition kept_declaration (c : call) : bool :=
  is_decl c && negb (closes_style_element c).

(** The text of a declaration in the output, in terms of the string
    built-ins alone: the text [stringify] gave, and when minifying that
    text with the first occurrence of [prop + raws.between] replaced by
    its trimmed form. *)
Definition emitted (opts : options) (c : call) : string :=
  match c_node c with
  | Some nd =>
    if compress opts
    then replace (c_result c) (prop nd +:+ to_text (raws_between nd))
                 (trim (prop nd +:+ to_text (raws_between nd)))
    else c_result c
  | None => c_result c
  end.

(** The concatenation of a list of texts. *)
Fixpoint text_of (l : list string) : string :=
  match l with
  | [] => ""
  | x :: rest => x +:+ text_of rest
  end.

End Serializer.

(** ** Array loops: [Array.prototype.filter] and [splitFilter] *)

Module JsArray.

Section Loops.
Context {S T : Type}.

(** [array.filter(callback)]: the callback receives the item, its index
    and the array, and may mutate the item it is given; the kept
    items are the objects as the callback left them. *)
Section Filter.
Variable callback : T -> nat -> list T -> M S (bool * T).

Fixpoint filter_loop (done rest : list T) (index : nat) (out : list T)
  : M S (list T) :=
  match rest with
  | [] => ret out
  | item :: rest' =>
    (r <- callback item index (done ++ rest) ;;
     filter_loop (done ++ [snd r]) rest' (Datatypes.S index)
                 (if fst r then out ++ [snd r] else out))%js
  end.

Definition filter (a : option (list T)) : M S (list T) :=
  match a with
  | None => throw
  | Some l => filter_loop [] l 0 []
  end.
End Filter.

(** [splitFilter(a, b, predicate)] of [css.js]:
<<
  const aOut = []; const bOut = []
  for (let index = 0; index < a.length; index++) {
    if (predicate(a[index], index, a, b)) aOut.push(a[index])
    else bOut.push(a[index])
  }
  return [aOut, bOut]
>>
    [a] or [b] may be [undefined]; reading [a.length] then throws. *)
Section SplitFilter.
Variable predicate : T -> nat -> list T -> option (list T) -> M S (bool * T).

Fixpoint splitFilter_loop (b : option (list T)) (done rest : list T)
         (index : nat) (aOut bOut : list T) : M S (list T * list T) :=
  match rest with
  | [] => ret (aOut, bOut)
  | item :: rest' =>
    (r <- predicate item index (done ++ rest) b ;;
     if fst r
     then splitFilter_loop b (done ++ [snd r]) rest' (Datatypes.S index)
                           (aOut ++ [snd r]) bOut
     else splitFilter_loop b (done ++ [snd r]) rest' (Datatypes.S index)
                           aOut (bOut ++ [snd r]))%js
  end.

Definition splitFilter (a b : option (list T)) : M S (list T * list T) :=
  match a with
  | None => throw
  | Some l => splitFilter_loop b [] l 0 [] []
  end.
End SplitFilter.
End Loops.

(** A predicate without side effects, as a callback of the loops. *)
Definition pure4 {S T : Type} (p : T -> nat -> list T -> option (list T) -> bool)
  : T -> nat -> list T -> option (list T) -> M S (bool * T) :=
  fun item index a b => ret (p item index a b, item).

Definition pure3 {S T : Type} (p : T -> nat -> list T -> option (list T) -> bool)
  : T -> nat -> list T -> M S (bool * T) :=
  fun item index a => ret (p item index a None, item).

(** The items of an array paired with their indices, counted from [i]. *)
Definition indexed_from {T : Type} (i : nat) (l : list T) : list (nat * T) :=
  combine (seq i (length l)) l.

(** The positions of [rest] (whose first item has index [i] in [a]) on
    which the predicate holds, and those on which it does not, in order;
    [picked] and [unpicked] are the items at these positions. *)
Definition picked_at {T : Type} (p : T -> nat -> list T -> option (list T) -> bool)
           (a : list T) (b : option (list T)) (i : nat) (rest : list T)
  : list (nat * T) :=
  List.filter (fun ix => p (snd ix) (fst ix) a b) (indexed_from i rest).

Definition unpicked_at {T : Type} (p : T -> nat -> list T -> option (list T) -> bool)
           (a : list T) (b : option (list T)) (i : nat) (rest : list T)
  : list (nat * T) :=
  List.filter (fun ix => negb (p (snd ix) (fst ix) a b)) (indexed_from i rest).

Definition picked {T : Type} (p : T -> nat -> list T -> option (list T) -> bool)
           (a : list T) (b : option (list T)) (i : nat) (rest : list T) : list T :=
  map snd (picked_at p a b i rest).

Definition unpicked {T : Type} (p : T -> nat -> list T -> option (list T) -> bool)
           (a : list T) (b : option (list T)) (i : nat) (rest : list T) : list T :=
  map snd (unpicked_at p a b i rest).

(** Running a computation that uses no state. *)
Definition run {A : Type} (m : M unit A) : result A :=
  match m tt with
  | Ok (a, _) => Ok a
  | TypeError => TypeError
  end.

End JsArray.

(** ** The helpers of [css.js] / [css.ts] *)

Module Css.
Import Postcss JsArray.

(** A selector predicate handed to [rule.filterSelectors]. *)
Definition selectorPredicate : Type :=
  string -> nat -> list string -> option (list string) -> bool.

(** [filterSelectors.call(this, predicate)] *)
Definition filterSelectors (this : node) (predicate : selectorPredicate)
  : result node :=
  match _other this with
  | Some other =>
    match run (splitFilter (pure4 predicate) (selectors this) (selectors other)) with
    | Ok (a, b) =>
      Ok (set_other (Some (set_selectors (Some (assigned b)) other))
                    (set_selectors (Some (assigned a)) this))
    | TypeError => TypeError
    end
  | None =>
    match run (filter (pure3 predicate) (selectors this)) with
    | Ok a => Ok (set_selectors (Some (assigned a)) this)
    | TypeError => TypeError
    end
  end.

Definition is_keyframes_name (nm : option string) : bool :=
  match nm with
  | Some s => String.eqb s "keyframes" || String.eqb s "-webkit-keyframes"
  | None => false
  end.

(** [hasNestedRules(rule)]; the two editions agree on every node. *)
Definition hasNestedRules (rule : node) : bool :=
  match nodes rule with
  | None => false
  | Some l =>
    negb (length l =? 0)
    && negb (is_keyframes_name (name rule))
    && existsb (fun n => String.eqb (type n) "rule" || String.eqb (type n) "atrule") l
  end.

(** [applyMarkedSelectors(rule)] *)
Fixpoint applyMarkedSelectors (rule : node) : node :=
  match rule with
  | mkNode ty nm sels p v rb rs ns other fs rm marked =>
    mkNode ty nm
           (match marked with Some m => Some m | None => sels end)
           p v rb rs ns
           (match other with
            | Some o => Some (applyMarkedSelectors o)
            | None => None
            end)
           fs rm marked
  end.

Section Walks.
Context {S : Type}.

(** A walk iterator: it receives a rule, may mutate the rule (and,
    through [_other], its twin) and its own state, and answers. *)
Definition iterator : Type := node -> S -> jsret * node * S.

Definition invoke (it : iterator) (rule : node) : M S (jsret * node) :=
  fun s => let '(r, rule', s') := it rule s in Ok ((r, rule'), s').

(** [markOnly(predicate)] *)
Definition markOnly (d : dialect) (predicate : iterator) : iterator :=
  fun rule s =>
    let sel := selectors rule in
    let '(v, rule1, s1) := predicate rule s in
    let rule2 := if is_false v then set_remove true rule1 else rule1 in
    let rule3 :=
      match d with
      | JS => set_markedSelectors (selectors rule2) rule2
      | TS =>
        match selectors rule2 with
        | Some _ => set_selectors sel (set_markedSelectors (selectors rule2) rule2)
        | None => rule2
        end
      end in
    let rule4 :=
      match _other rule3 with
      | Some o => set_other (Some (set_markedSelectors (selectors o) o)) rule3
      | None => rule3
      end in
    let rule5 := match d with JS => set_selectors sel rule4 | TS => rule4 end in
    (RUndefined, rule5, s1).

(** [walkStyleRules(node, iterator)] *)
Fixpoint walkStyleRules (d : dialect) (it : iterator) (node : node) {struct node}
  : M S Postcss.node :=
  match nodes node, d with
  | None, JS => throw
  | None, TS => ret node
  | Some l, _ =>
    (kept <- filter (fun rule _ _ =>
               rule1 <- (if hasNestedRules rule
                         then walkStyleRules d it rule else ret rule) ;;
               r <- invoke it (set_filterSelectors (set_other None rule1)) ;;
               ret (negb (is_false (fst r)), snd r)) (Some l) ;;
     ret (set_nodes (Some kept) node))%js
  end.

(** [rules2[index]] ([rules2?.[index]] in [css.ts]) *)
Definition twin_at (d : dialect) (rules2 : option (list node)) (index : nat)
  : M S (option node) :=
  match rules2, d with
  | None, JS => throw
  | None, TS => ret None
  | Some l2, _ => ret (nth_error l2 index)
  end.

(** [walkStyleRulesWithReverseMirror(node, node2, iterator)]; the result
    is the pair of the two trees as the walk leaves them. *)
Fixpoint walkStyleRulesWithReverseMirror (d : dialect) (it : iterator)
         (node : node) (node2 : ref) {struct node} : M S (Postcss.node * ref) :=
  match node2, d with
  | Null, _ => (n <- walkStyleRules d it node ;; ret (n, Null))%js
  | Undefined, TS => (n <- walkStyleRules d it node ;; ret (n, Undefined))%js
  | Undefined, JS => throw
  | Obj n2, _ =>
    (ab <- splitFilter (fun rule index _ rules2 =>
             rule2 <- twin_at d rules2 index ;;
             p <- (if hasNestedRules rule
                   then walkStyleRulesWithReverseMirror d it rule (ref_of rule2)
                   else ret (rule, ref_of rule2)) ;;
             r <- invoke it (set_filterSelectors
                               (set_other (as_option (snd p)) (fst p))) ;;
             ret (negb (is_false (fst r)), snd r))
           (nodes node) (nodes n2) ;;
     ret (set_nodes (Some (fst ab)) node, Obj (set_nodes (Some (snd ab)) n2)))%js
  end.

(** An iterator wrapped so that it records every node it is invoked
    on, in order, as the node is at the time of the invocation. *)
Definition spy (it : iterator) : node -> (S * list node) -> jsret * node * (S * list node) :=
  fun rule st =>
    let '(r, rule', s') := it rule (fst st) in
    (r, rule', (s', snd st ++ [rule])).
End Walks.

(** The rules of a tree in the order in which a walk reaches them. *)
Fixpoint visitOrder (node : node) : list Postcss.node :=
  match nodes node with
  | None => []
  | Some l =>
    flat_map (fun rule =>
                (if hasNestedRules rule then visitOrder rule else []) ++ [rule]) l
  end.

(** Every node below [node] in the tree (children, their children, ...). *)
Fixpoint descendants (node : node) : list Postcss.node :=
  match nodes node with
  | None => []
  | Some l => flat_map (fun c => c :: descendants c) l
  end.

(** A node without the parts that a walk rewrites: its children, its
    mirror link and the [filterSelectors] method. *)
Definition shell (n : node) : node :=
mkNode (type n) (name n) (selectors n) (prop n) (value n) (raws_between n)
       (raws_semicolon n) None None false (__remove n) (__markedSelectors n).

(** The node handed to the iterator stands for the node [orig] of the
    input tree: the same node, whose children are those of [orig] unless
    the walk has descended into it. *)
Definition snapshot_of (snap orig : node) : Prop :=
shell snap = shell orig
/\ (hasNestedRules orig = false -> nodes snap = nodes orig).

(** The depth of the tree below a node. *)
Fixpoint height (n : node) : nat :=
match nodes n with
| None => 0
| Some l => Datatypes.S (list_max (map height l))
end.

(** The filter callback of [walkStyleRules]. *)
Definition visit {S : Type} (d : dialect) (it : @iterator S)
  : node -> nat -> list node -> M S (bool * node) :=
fun rule _ _ =>
  (rule1 <- (if hasNestedRules rule then walkStyleRules d it rule else ret rule) ;;
   r <- invoke it (set_filterSelectors (set_other None rule1)) ;;
   ret (negb (is_false (fst r)), snd r))%js.

(** The predicate that [walkStyleRulesWithReverseMirror] hands to
    [splitFilter]. *)
Definition visitMirrored {S : Type} (d : dialect) (it : @iterator S)
  : node -> nat -> list node -> option (list node) -> M S (bool * node) :=
fun rule index _ rules2 =>
  (rule2 <- twin_at d rules2 index ;;
   p <- (if hasNestedRules rule
         then walkStyleRulesWithReverseMirror d it rule (ref_of rule2)
         else ret (rule, ref_of rule2)) ;;
   r <- invoke it (set_filterSelectors (set_other (as_option (snd p)) (fst p))) ;;
   ret (negb (is_false (fst r)), snd r))%js.

(** The twin tree has the shape of the tree as far as a walk descends:
    both nodes have a list of children, of the same length, and so have
    the children into which the walk descends, pairwise.  Two parses of
    one stylesheet mirror each other. *)
Fixpoint mirrors (n n2 : node) {struct n} : bool :=
match nodes n, nodes n2 with
| Some l, Some l2 =>
  (fix pairwise (l l2 : list node) {struct l} : bool :=
     match l, l2 with
     | [], [] => true
     | c :: rest, c2 :: rest2 =>
       (if hasNestedRules c then mirrors c c2 else true) && pairwise rest rest2
     | _, _ => false
     end) l l2
| _, _ => false
end.

(** An iterator that leaves the children and the name of the node it is
    given as they are. *)
Definition keeps_blocks {S : Type} (it : @iterator S) : Prop :=
forall n s, nodes (snd (fst (it n s))) = nodes n
            /\ name (snd (fst (it n s))) = name n.

(** Every keyframes block among [outs] has the children of a keyframes
    block among [ins]. *)
Definition keyframes_whole (outs ins : list node) : Prop :=
forall k', In k' outs -> is_keyframes_name (name k') = true ->
           exists k, In k ins /\ is_keyframes_name (name k) = true
                     /\ nodes k' = nodes k.

(** The frame of [markOnly] as the design document words it: the twin of
    the rule is the same after the marking as before. *)
Definition twin_untouched_by_marking : Prop :=
forall (d : dialect) (predicate : @iterator unit) (rule : node),
  _other (snd (fst (predicate rule tt))) = _other rule ->
  _other (snd (fst (markOnly d predicate rule tt))) = _other rule.

(** What the marking does to the twin: only [$$markedSelectors] is set. *)
Definition mark_twin (o : option node) : option node :=
match o with
| Some t => Some (set_markedSelectors (selectors t) t)
| None => None
end.

(** Lifting the result of the single-tree walk to the result of the
    mirrored walk when there is no twin. *)
Definition without_twin {S : Type} (r : result (node * S)) (twin : ref)
  : result (node * ref * S) :=
match r with
| Ok (n, s) => Ok ((n, twin), s)
| TypeError => TypeError
end.

(** The equivalence of the two entry points as the design document words
    it: with [null] or with no second tree at all, the mirrored walk is the
    single-tree walk. *)
Definition no_twin_equivalence : Prop :=
forall (d : dialect) (it : @iterator unit) (node : node) (twin : ref),
  twin = Null \/ twin = Undefined ->
  walkStyleRulesWithReverseMirror d it node twin tt
  = without_twin (walkStyleRules d it node tt) twin.


(** The invocations made while a walk handles the child [c] of a node:
    those of the subtree of [c] when the walk descends into it, then [c]. *)
Definition segment (c : node) : list node :=
(if hasNestedRules c then visitOrder c else []) ++ [c].

(** The nodes of a list of trees: each tree and what lies below it. *)
Definition below (l : list node) : list node :=
flat_map (fun c => c :: descendants c) l.

(** The nodes of the input tree on which a walk invokes the iterator: the
    children of the root and, for every reached node that has nested
    rules, its children. *)
Inductive reached (root : node) : node -> Prop :=
| reached_child l c :
    nodes root = Some l -> In c l -> reached root c
| reached_nested p l c :
    reached root p -> hasNestedRules p = true -> nodes p = Some l -> In c l ->
    reached root c.

(** In the sequence of invocations [calls], an invocation on [x] comes
    before an invocation on [c]. *)
Definition invoked_before (calls : list node) (x c : node) : Prop :=
exists l1 sx l2 sc l3,
  calls = l1 ++ sx :: l2 ++ sc :: l3 /\ snapshot_of sx x /\ snapshot_of sc c.

(** Every child of a reached container with nested rules has been handed
    to the iterator before the container is. *)
Definition children_first (root : node) (calls : list node) : Prop :=
forall c l x,
  reached root c -> hasNestedRules c = true -> nodes c = Some l -> In x l ->
  invoked_before calls x c.

(** A container node with nested rules, as the design document words
    it: a node that has a rule or an at-rule among its children. *)
Definition container (n : node) : Prop :=
exists l x, nodes n = Some l /\ In x l /\ (type x = "rule" \/ type x = "atrule").

(** A keyframes block that the walks hand over as a whole: an at-rule
    named keyframes or -webkit-keyframes. *)
Definition keyframes_block (n : node) : Prop :=
name n = Some "keyframes" \/ name n = Some "-webkit-keyframes".

(** The node handed to the iterator is the node [orig] of the input
    tree: the same node, its children, twin link and method apart. *)
Definition handed (snap orig : node) : Prop := shell snap = shell orig.

(** In the sequence of invocations [calls], the iterator is invoked on
    [x] and, later, on [c]. *)
Definition called_before (calls : list node) (x c : node) : Prop :=
exists l1 sx l2 sc l3,
  calls = l1 ++ sx :: l2 ++ sc :: l3 /\ handed sx x /\ handed sc c.

(** The nodes of the input tree that a walk comes to when it descends
    into the nodes that satisfy [descends]: the children of the root and
    the children of every such node it comes to. *)
Inductive comes_to (descends : node -> Prop) (root : node) : node -> Prop :=
| comes_to_child l c :
    nodes root = Some l -> In c l -> comes_to descends root c
| comes_to_nested p l c :
    comes_to descends root p -> descends p -> nodes p = Some l -> In c l ->
    comes_to descends root c.

(** The walk descends first: the iterator has been invoked on every child
    of such a node before it is invoked on the node. *)
Definition descends_first (descends : node -> Prop) (root : node)
           (calls : list node) : Prop :=
forall c l x,
  comes_to descends root c -> descends c -> nodes c = Some l -> In x l ->
  called_before calls x c.

(** Every keyframes block is handed to the iterator with its children
    exactly as they are in the input tree. *)
Definition handed_whole (calls order : list node) : Prop :=
Forall2 (fun snap orig =>
           shell snap = shell orig
           /\ (is_keyframes_name (name orig) = true -> nodes snap = nodes orig))
        calls order.

(** The atomicity of keyframes blocks as the design document words it:
    no at-rule named keyframes, with or without a vendor prefix, is
    descended into. *)
Definition prefixed_keyframes_atomic : Prop :=
forall (rule : node) (prefix : string),
  name rule = Some "keyframes" \/ name rule = Some ("-" +:+ prefix +:+ "-keyframes") ->
  hasNestedRules rule = false.

Section Contracts.
Context {S : Type} (d : dialect) (it : @iterator S).

(** What handling one child [c] amounts to, with and without the spy. *)
Definition visited_ok (c : node) : Prop :=
forall i arr s log, exists keep c' s' calls,
  visit d (spy it) c i arr (s, log) = Ok ((keep, c'), (s', log ++ calls))
  /\ visit d it c i arr s = Ok ((keep, c'), s')
  /\ Forall2 snapshot_of calls (segment c)
  /\ (keeps_blocks it -> keyframes_whole (below [c']) (below [c])).

Definition walked_ok (n : node) : Prop :=
nodes n <> None ->
forall s log, exists kept s' calls,
  walkStyleRules d (spy it) n (s, log)
  = Ok (set_nodes (Some kept) n, (s', log ++ calls))
  /\ walkStyleRules d it n s = Ok (set_nodes (Some kept) n, s')
  /\ Forall2 snapshot_of calls (visitOrder n)
  /\ (keeps_blocks it -> keyframes_whole (below kept) (descendants n)).

Definition visitedMirrored_ok (l2 : list node) (c : node) (i : nat) : Prop :=
forall arr s log, exists keep c' s' calls,
  visitMirrored d (spy it) c i arr (Some l2) (s, log)
  = Ok ((keep, c'), (s', log ++ calls))
  /\ visitMirrored d it c i arr (Some l2) s = Ok ((keep, c'), s')
  /\ Forall2 snapshot_of calls (segment c)
  /\ (keeps_blocks it -> keyframes_whole (below [c']) (below [c])).

Definition mirrored_ok (n : node) : Prop :=
forall n2, mirrors n n2 = true ->
forall s log, exists aOut bOut s' calls,
  walkStyleRulesWithReverseMirror d (spy it) n (Obj n2) (s, log)
  = Ok ((set_nodes (Some aOut) n, Obj (set_nodes (Some bOut) n2)), (s', log ++ calls))
  /\ walkStyleRulesWithReverseMirror d it n (Obj n2) s
     = Ok ((set_nodes (Some aOut) n, Obj (set_nodes (Some bOut) n2)), s')
  /\ Forall2 snapshot_of calls (visitOrder n)
  /\ (keeps_blocks it ->
      keyframes_whole (below aOut) (descendants n)
      /\ keyframes_whole (below bOut) (descendants n)).
End Contracts.

End Css.

(** ** Media queries: [validateMediaQuery] *)

Module MediaQuery.

(** A node of the tree built by [postcss-media-query-parser]. *)
Inductive node : Type := mkNode {
  type : string;
  value : string;
  nodes : option (list node)
}.

Definition leaf (ty v : string) : node := mkNode ty v None.
Definition container (ty v : string) (l : list node) : node := mkNode ty v (Some l).

Definition MEDIA_TYPES : gset string :=
  list_to_set ["all"; "print"; "screen"; "speech"].

Definition MEDIA_KEYWORDS : gset string :=
  list_to_set ["and"; "not"; ","].

Definition FEATURE_NAMES : list string :=
  ["width"; "aspect-ratio"; "color"; "color-index"; "grid"; "height";
   "monochrome"; "orientation"; "resolution"; "scan"].

Definition MEDIA_FEATURES : gset string :=
  list_to_set
    (flat_map (fun feature => [feature; "min-" +:+ feature; "max-" +:+ feature])
              FEATURE_NAMES).

(** [set.has(v)] *)
Definition has (set : gset string) (v : string) : bool := bool_decide (v ∈ set).

(** [validateMediaType(node)]: a boolean for the three token types,
    [undefined] for any other node. *)
Definition validateMediaType (n : node) : option bool :=
  if String.eqb (type n) "media-type" then Some (has MEDIA_TYPES (value n))
  else if String.eqb (type n) "keyword" then Some (has MEDIA_KEYWORDS (value n))
  else if String.eqb (type n) "media-feature" then Some (has MEDIA_FEATURES (value n))
  else None.

Definition nodeTypes : gset string :=
  list_to_set ["media-type"; "keyword"; "media-feature"].

Definition truthy (o : option bool) : bool :=
  match o with Some b => b | None => false end.

(** [nodeTypes.has(node.type) && !validateMediaType(node)] *)
Definition rejects (n : node) : bool :=
  has nodeTypes (type n) && negb (truthy (validateMediaType n)).

Fixpoint size (n : node) : nat :=
  match nodes n with
  | None => 1
  | Some l => Datatypes.S (fold_right (fun c acc => size c + acc) 0 l)
  end.

Fixpoint stack_size (stack : list node) : nat :=
  match stack with
  | [] => 0
  | c :: rest => size c + stack_size rest
  end.

Lemma stack_size_fold (l : list node) :
  fold_right (fun c acc => size c + acc) 0 l = stack_size l.
Proof. induction l as [|c l IH]; simpl; [reflexivity | now rewrite IH]. Qed.

Lemma stack_size_app (l1 l2 : list node) :
  stack_size (l1 ++ l2) = stack_size l1 + stack_size l2.
Proof. induction l1 as [|c l1 IH]; simpl; [reflexivity | rewrite IH; lia]. Qed.

Lemma stack_size_rev (l : list node) : stack_size (rev l) = stack_size l.
Proof.
  induction l as [|c l IH]; simpl; [reflexivity|].
  rewrite stack_size_app, IH. simpl. lia.
Qed.

(** [stack.push(...node.nodes)] on a stack whose top is the head of the
    list: the last child ends on top. *)
Definition push_children (n : node) (stack : list node) : list node :=
  match nodes n with
  | Some l => rev l ++ stack
  | None => stack
  end.

Lemma push_children_size (n : node) (stack : list node) :
  stack_size (push_children n stack) < stack_size (n :: stack).
Proof.
  unfold push_children. destruct n as [ty v [l|]]; cbn [nodes stack_size size].
  - rewrite stack_size_app, stack_size_rev.
    pose proof (stack_size_fold l) as E. cbn [nodes] in *. lia.
  - lia.
Qed.

(** The loop [while (stack.length > 0) { const node = stack.pop() ... }]. *)
Equations? validate_loop (stack : list node) : bool by wf (stack_size stack) lt :=
  validate_loop [] := true;
  validate_loop (n :: rest) :=
    if rejects n then false else validate_loop (push_children n rest).
Proof. apply push_children_size. Qed.

Section WithParser.
(** [postcss-media-query-parser], an external collaborator. *)
Variable mediaParser : string -> node.

Definition validateMediaQuery (query : string) : bool :=
  validate_loop [mediaParser query].
End WithParser.

(** Every node of a tree, the root included. *)
Fixpoint all_nodes (n : node) : list node :=
  n :: match nodes n with
       | Some l => flat_map all_nodes l
       | None => []
       end.

(** A token the validator looks at: a node of one of the three types. *)
Definition is_token (n : node) : bool := has nodeTypes (type n).

(** The tokens of a tree, as (type, value) pairs. *)
Definition tokens (n : node) : list (string * string) :=
  map (fun x => (type x, value x)) (List.filter is_token (all_nodes n)).

(** The allow-list as the design document words it. *)
Definition allowed_media_type (v : string) : Prop :=
  In v ["all"; "print"; "screen"; "speech"].

Definition allowed_keyword (v : string) : Prop :=
  In v ["and"; "not"; ","].

Definition allowed_feature (v : string) : Prop :=
  exists f,
    In f ["width"; "height"; "color"; "grid"; "orientation"; "resolution";
          "scan"; "aspect-ratio"; "color-index"; "monochrome"]
    /\ (v = f \/ v = "min-" +:+ f \/ v = "max-" +:+ f).

Definition allowed_token (t : string * string) : Prop :=
  (fst t = "media-type" -> allowed_media_type (snd t))
  /\ (fst t = "keyword" -> allowed_keyword (snd t))
  /\ (fst t = "media-feature" -> allowed_feature (snd t)).

End MediaQuery.

(** ** Webpack plugin: [BeastiesWebpackPlugin.pruneSource] *)

Module Webpack.

(** A webpack source object: a [RawSource] made from a string,
    [new SourceMapSource(value, name, sourceMap)] as the plugin makes it,
    or a source whose [source()] is a [Buffer] (a [RawSource] made from
    a buffer, for one). *)
Inductive source : Type :=
| RawSource (content : string)
| SourceMapSource (value name sourceMap : string)
| BufferSource (bytes : string).

(** The style element with the plugin's bookkeeping properties
    [$$name], [$$asset] and [$$assetName]. *)
Record style : Type := {
  __name : string;
  __asset : option source;
  __assetName : string
}.

(** The plugin instance: [options.minimumExternalSize], the assets of
    the compilation and the warnings given to the logger. *)
Record plugin : Type := {
  minimumExternalSize : option nat;
  assets : gmap string source;
  warnings : list string
}.

Definition with_assets (a : gmap string source) (p : plugin) : plugin :=
  {| minimumExternalSize := minimumExternalSize p; assets := a;
     warnings := warnings p |}.

Definition warn (msg : string) (p : plugin) : plugin :=
  {| minimumExternalSize := minimumExternalSize p; assets := assets p;
     warnings := warnings p ++ [msg] |}.

(** [compilation.deleteAsset(name)] *)
Definition deleteAsset (name : string) (p : plugin) : plugin :=
  with_assets (delete name (assets p)) p.

Section WithSuper.
(** [super.pruneSource(style, before, sheetInverse)]: the verdict of the
    base class, whose body is not part of the plugin. *)
Variable super_pruneSource : style -> string -> string -> bool.

(** [minSize && sheetInverse.length < minSize] *)
Definition belowMinimum (this : plugin) (sheetInverse : string) : bool :=
  match minimumExternalSize this with
  | Some minSize =>
    negb (minSize =? 0) && (JsString.codeUnits sheetInverse <? minSize)
  | None => false
  end.

Definition pruneSource (this : plugin) (st : style) (before sheetInverse : string)
  : bool * plugin :=
  let isStyleInlined := super_pruneSource st before sheetInverse in
  match __asset st with
  | Some _ =>
    if belowMinimum this sheetInverse
    then (true, deleteAsset (__assetName st) this)
    else (isStyleInlined,
          with_assets (<[__assetName st :=
                           SourceMapSource sheetInverse (__assetName st) before]>
                         (assets this)) this)
  | None =>
    (isStyleInlined,
     warn ("pruneSource is enabled, but a style (" +:+ __name st
           +:+ ") has no corresponding Webpack asset.") this)
  end.
End WithSuper.

(** The threshold as the design document words it, in bytes: a
    remaining sheet of fewer bytes than the minimum has its asset
    deleted, any other sheet is written back over the asset. *)
Definition threshold_in_bytes : Prop :=
forall (super_pruneSource : style -> string -> string -> bool)
       (this : plugin) (st : style) (asset : source) (minSize : nat)
       (before sheetInverse : string),
  __asset st = Some asset ->
  minimumExternalSize this = Some minSize ->
  0 < minSize ->
  (String.length sheetInverse < minSize ->
   pruneSource super_pruneSource this st before sheetInverse
   = (true, deleteAsset (__assetName st) this))
  /\ (minSize <= String.length sheetInverse ->
      assets (snd (pruneSource super_pruneSource this st before sheetInverse))
      !! __assetName st
      = Some (SourceMapSource sheetInverse (__assetName st) before)).

End Webpack.

(** ** Stylesheet acquisition: concurrent retrieval, ordered assembly *)

Module Acquisition.

(** Modelled from the spec: a stylesheet reference of the document (section
    3, StylesheetReference), with what its retrieval will yield ([None]:
    the retrieval fails) and how long it takes. *)
Record reference : Type := {
  href : string;
  latency : nat;
  outcome : option string
}.

(** Modelled from the spec: a retrieval in flight, "an independently
    suspendable operation" (section 5). *)
Record retrieval : Type := {
  index : nat;
  launched_at : nat;
  due : nat;
  payload : option string
}.

(** Modelled from the spec: the acquisition pipeline (sections 4.4 and 5),
    whose code is not among the sources.  "The pipeline launches all of
    them without waiting for one to finish before starting the next":
    every retrieval is started at the current time [now]. *)
Fixpoint launch_from (now i : nat) (refs : list reference) : list retrieval :=
  match refs with
  | [] => []
  | r :: rest =>
    {| index := i; launched_at := now; due := now + latency r;
       payload := outcome r |} :: launch_from now (Datatypes.S i) rest
  end.

Definition launch_all (now : nat) (refs : list reference) : list retrieval :=
  launch_from now 0 refs.

(** Modelled from the spec: single-threaded cooperative execution; the
    retrievals settle one at a time, the earliest due first (launch
    order among equals). *)
Fixpoint insert_by_due (r : retrieval) (sorted : list retrieval) : list retrieval :=
  match sorted with
  | [] => [r]
  | x :: rest =>
    if due r <=? due x then r :: x :: rest else x :: insert_by_due r rest
  end.

Definition completion_order (pending : list retrieval) : list retrieval :=
  fold_right insert_by_due [] pending.

(** Modelled from the spec: the state of the event loop while the pipeline
    is suspended: the clock, the slot of every settled retrieval (by
    original index), and the indices in the order in which the retrievals
    settled. *)
Record loop : Type := {
  clock : nat;
  slots : gmap nat (option string);
  settled : list nat
}.

Definition settle (st : loop) (r : retrieval) : loop :=
  {| clock := Nat.max (clock st) (due r);
     slots := <[index r := payload r]> (slots st);
     settled := settled st ++ [index r] |}.

(** Modelled from the spec: "then suspends until every launched
    operation has settled". *)
Definition await_all (now : nat) (pending : list retrieval) : loop :=
  fold_left settle (completion_order pending)
            {| clock := now; slots := ∅; settled := [] |}.

(** Modelled from the spec: "then assembles output strictly by original
    index"; a failed retrieval is skipped. *)
Fixpoint assemble_from (i : nat) (n : nat) (sl : gmap nat (option string))
  : list (nat * string) :=
  match n with
  | 0 => []
  | Datatypes.S n' =>
    match sl !! i with
    | Some (Some css) => (i, css) :: assemble_from (Datatypes.S i) n' sl
    | _ => assemble_from (Datatypes.S i) n' sl
    end
  end.

(** Modelled from the spec: the whole acquisition of a document's
    references, started at time [0]: the inlined sheets (with the index
    of their reference), the time at which everything has settled, and
    the order of completion. *)
Definition acquire (refs : list reference) : list (nat * string) * nat * list nat :=
  let st := await_all 0 (launch_all 0 refs) in
  (assemble_from 0 (length refs) (slots st), clock st, settled st).

(** Modelled from the spec: "the original document order of the
    references", the sheets as the document lists them. *)
Fixpoint in_document_order (i : nat) (refs : list reference) : list (nat * string) :=
  match refs with
  | [] => []
  | r :: rest =>
    match outcome r with
    | Some css => (i, css) :: in_document_order (Datatypes.S i) rest
    | None => in_document_order (Datatypes.S i) rest
    end
  end.

End Acquisition.

(** ** Sample inputs *)

Module Samples.

(** Two parses that differ only in the value written after the feature. *)
Definition feature_query (v : string) : MediaQuery.node :=
  MediaQuery.container "media-query-list" ("(min-width: " +:+ v +:+ ")")
    [MediaQuery.container "media-query" ("(min-width: " +:+ v +:+ ")")
       [MediaQuery.container "media-feature-expression" ("(min-width: " +:+ v +:+ ")")
          [MediaQuery.leaf "media-feature" "min-width";
           MediaQuery.leaf "colon" ":";
           MediaQuery.leaf "value" v]]].

Definition sample_parser (query : string) : MediaQuery.node :=
  if String.eqb query "(min-width: 100px)"
  then feature_query "100px"
  else feature_query "</style>".

(** A style element backed by a webpack asset, and a plugin configured
    with [minimumExternalSize: 20]. *)
Definition sample_style : Webpack.style :=
  {| Webpack.__name := "main.css";
     Webpack.__asset := Some (Webpack.RawSource "h1{color:red}h2{color:blue}");
     Webpack.__assetName := "main.css" |}.

Definition sample_plugin : Webpack.plugin :=
  {| Webpack.minimumExternalSize := Some 20;
     Webpack.assets := {[ "main.css" := Webpack.RawSource "h1{color:red}h2{color:blue}" ]};
     Webpack.warnings := [] |}.

(** A sheet of nineteen characters, six of them the letter e with an
    acute accent, which takes two bytes in UTF-8. *)
Definition e_acute : string :=
  String (ascii_of_nat 195) (String (ascii_of_nat 169) EmptyString).

Definition accented_sheet : string :=
  "a{content:'" +:+ e_acute +:+ e_acute +:+ e_acute +:+ e_acute +:+ e_acute
  +:+ e_acute +:+ "'}".

Definition never_inlined : Webpack.style -> string -> string -> bool :=
  fun _ _ _ => false.

(** The builder invocations for the sheet of the security test,
    [* { background: url('</style><script>alert(1)</script>') }], and for
    the same sheet with a harmless declaration in front. *)
Definition evil_decl : Postcss.node :=
Postcss.decl "background" ": " "url('</style><script>alert(1)</script>')".

Definition star_rule : Postcss.node :=
Postcss.rule ["*"] [Postcss.decl "color" ": " "red"; evil_decl].

Definition star_calls : list Serializer.call :=
[ {| Serializer.c_result := "* {"; Serializer.c_node := Some star_rule;
     Serializer.c_type := Some "start" |};
  {| Serializer.c_result := " "; Serializer.c_node := None;
     Serializer.c_type := None |};
  {| Serializer.c_result := "color: red;";
     Serializer.c_node := Some (Postcss.decl "color" ": " "red");
     Serializer.c_type := None |};
  {| Serializer.c_result := " "; Serializer.c_node := None;
     Serializer.c_type := None |};
  {| Serializer.c_result := "background: url('</style><script>alert(1)</script>')";
     Serializer.c_node := Some evil_decl; Serializer.c_type := None |};
  {| Serializer.c_result := " "; Serializer.c_node := None;
     Serializer.c_type := None |};
  {| Serializer.c_result := "}"; Serializer.c_node := Some star_rule;
     Serializer.c_type := Some "end" |} ].

(** A rule wired to its twin, and an iterator that rejects every rule
    without touching it. *)
Definition twin_rule : Postcss.node := Postcss.rule ["h1"; "h2"] [].

Definition wired_rule : Postcss.node :=
  Postcss.set_other (Some twin_rule) (Postcss.rule ["h1"; "h2"] []).

Definition reject_all : Postcss.node -> unit -> jsret * Postcss.node * unit :=
  fun rule s => (RFalse, rule, s).

Definition keep_all : Postcss.node -> unit -> jsret * Postcss.node * unit :=
  fun rule s => (RTrue, rule, s).

(** A predicate that narrows the selector list of a rule to [h1], the
    way the first pass of the inliner narrows it to the used selectors. *)
Definition keep_h1 : Postcss.node -> unit -> jsret * Postcss.node * unit :=
fun rule s =>
  match Css.filterSelectors rule (fun sel _ _ _ => String.eqb sel "h1") with
  | Ok rule' => (RUndefined, rule', s)
  | TypeError => (RUndefined, rule, s)
  end.

(** A declaration, a keyframes step and keyframes blocks. *)
Definition opacity (v : string) : Postcss.node := Postcss.decl "opacity" ":" v.

Definition step (sel v : string) : Postcss.node := Postcss.rule [sel] [opacity v].

Definition fade (nm : string) : Postcss.node :=
Postcss.atrule nm [step "from" "0"; step "to" "1"].

Definition moz_sheet : Postcss.node := Postcss.root [fade "-moz-keyframes"].

(** A second parse of the same sheet, not yet annotated by any pass. *)
Definition webkit_twin : Postcss.node :=
Postcss.root
  [Postcss.rule ["h1"] [Postcss.decl "animation" ":" "fade 1s"];
   Postcss.atrule "media" [Postcss.rule ["to"] [opacity "1"]; fade "keyframes"];
   fade "-webkit-keyframes"].

(** The sheet after a first, single-tree pass that marked its rules. *)
Definition webkit_marked : Postcss.node :=
Postcss.root
  [Postcss.set_markedSelectors (Some ["h1"])
     (Postcss.rule ["h1"] [Postcss.decl "animation" ":" "fade 1s"]);
   Postcss.atrule "media"
     [Postcss.set_remove true (Postcss.rule ["to"] [opacity "1"]); fade "keyframes"];
   fade "-webkit-keyframes"].

(** An iterator that rejects the rules whose only selector is [to] and
    touches nothing. *)
Definition drop_to : Postcss.node -> unit -> jsret * Postcss.node * unit :=
fun rule s =>
  match Postcss.selectors rule with
  | Some [sel] => if String.eqb sel "to" then (RFalse, rule, s) else (RTrue, rule, s)
  | _ => (RTrue, rule, s)
  end.

(** The three sheets of the latency test of the test suite. *)
Definition three_sheets : list Acquisition.reference :=
  [ {| Acquisition.href := "/first.css"; Acquisition.latency := 50;
       Acquisition.outcome := Some "h1{color:red}" |};
    {| Acquisition.href := "/second.css"; Acquisition.latency := 10;
       Acquisition.outcome := Some "h2{color:blue}" |};
    {| Acquisition.href := "/third.css"; Acquisition.latency := 30;
       Acquisition.outcome := Some "h3{color:green}" |} ].

End Samples.

Module SerializerSpec.
Import Postcss JsString Serializer.

(** [node?.type === 'comment'] *)
Definition is_comment (c : call) : bool := node_type_is (c_node c) "comment".

(** A ['start'] invocation without a node: [css.js] reads [node.type] of
    [undefined] there. *)
Definition start_without_node (c : call) : bool :=
match c_node c with
| None => type_is (c_type c) "start"
| Some _ => false
end.

(** The text contains no dollar sign. *)
Fixpoint no_dollar (s : string) : bool :=
match s with
| EmptyString => true
| String c s' => negb (Ascii.eqb c "$") && no_dollar s'
end.

(** An invocation that adds nothing to the minified output: a dropped
    declaration, a comment, or white space given without a node. *)
Definition silent (c : call) : bool :=
closesStyle c || is_comment c
|| match c_node c, c_type c with
   | None, None => String.eqb (trim (c_result c)) ""
   | _, _ => false
   end.

(** A no-break space, U+00A0, in UTF-8, and a declaration that was
    written with one in front of its property name and one before the
    colon. *)
Definition nbsp : string :=
String (ascii_of_nat 194) (String (ascii_of_nat 160) EmptyString).

Definition spaced_decl : node := decl (nbsp +:+ "color") (nbsp +:+ ": ") "red".

(** The builder invocation for a comment in front of a sheet. *)
Definition comment_call : call :=
{| c_result := "/* reset */";
   c_node := Some (mkNode "comment" None None "" "" None false None None
                          false false None);
   c_type := None |}.

(** A rule [a { x: '</style>'; }] as postcss parses it: the last
    declaration ends in a semicolon. *)
Definition emptied_rule : node :=
mkNode "rule" None (Some ["a"]) "" "" None true
       (Some [decl "x" ":" "'</style>'"]) None false false None.

End SerializerSpec.

(** ** The webpack plugin: finding, inlining and embedding assets *)

Module WebpackAssets.
Import JsString Webpack.

(** [this.options.path], [this.options.publicPath] and
    [this.options.pruneSource]. *)
Record options : Type := {
  path : string;
  publicPath : option string;
  opt_pruneSource : bool
}.

(** [s.replace(/^\//, '')] *)
Definition stripLeadingSlash (s : string) : string :=
match s with
| String c rest => if Ascii.eqb c "/" then rest else s
| EmptyString => s
end.

(** [s.replace(/\/$/, '')] *)
Fixpoint stripTrailingSlash (s : string) : string :=
match s with
| EmptyString => EmptyString
| String c EmptyString => if Ascii.eqb c "/" then EmptyString else s
| String c rest => String c (stripTrailingSlash rest)
end.

(** [s.replace(/(^\/|\/$)/g, '')]: one slash at the start and one at the
    end of what is left. *)
Definition stripEdgeSlashes (s : string) : string :=
stripTrailingSlash (stripLeadingSlash s).

(** The template [(publicPath || '').replace(/(^\/|\/$)/g, '')] followed
    by a slash. *)
Definition pathPrefix (publicPath : option string) : string :=
stripEdgeSlashes (match publicPath with Some p => p | None => "" end) +:+ "/".

(** [s.substring(n)] *)
Definition substringFrom (n : nat) (s : string) : string :=
String.substring n (String.length s - n) s.

(** The path on disk, with [output.publicPath] removed. *)
Definition normalizedPath (publicPath : option string) (href : string) : string :=
let normalized := stripLeadingSlash href in
let prefix := pathPrefix publicPath in
if String.prefix prefix normalized
then stripLeadingSlash (substringFrom (String.length prefix) normalized)
else normalized.

(** [s.replace(/^\.\//, '')] *)
Definition stripDotSlash (s : string) : string :=
match s with
| String c (String d rest) => if Ascii.eqb c "." && Ascii.eqb d "/" then rest else s
| _ => s
end.

(** What [asset.source()] gives: a string or a [Buffer]. *)
Inductive sourceValue : Type :=
| Text (text : string)
| Buffer (bytes : string).

(** [asset.source()] *)
Definition source_of (a : source) : sourceValue :=
match a with
| RawSource content => Text content
| SourceMapSource value _ _ => Text value
| BufferSource bytes => Buffer bytes
end.

(** [value.toString()]: the string itself, the text whose UTF-8 bytes
    the buffer holds. *)
Definition toString (v : sourceValue) : string :=
match v with
| Text text => text
| Buffer bytes => bytes
end.

(** [!value]: of the values of [source()], only the empty string is
    falsy; a buffer is an object, truthy even when it is empty. *)
Definition falsy (v : sourceValue) : bool :=
match v with
| Text EmptyString => true
| _ => false
end.

(** [asset.source().toString()] *)
Definition source_text (a : source) : string := toString (source_of a).

(** The double quote of the warning texts. *)
Definition quote : string := String (ascii_of_nat 34) EmptyString.

Section WithFileSystem.
(** [path.resolve], [path.relative] and the [readFile] of the base class,
    external collaborators; [readFile] answers [None] when its promise is
    rejected. *)
Variable resolve : string -> string -> string.
Variable relative : string -> string -> string.
Variable readFile : string -> option string.

Definition filename (opts : options) (href : string) : string :=
resolve (path opts) (normalizedPath (publicPath opts) href).

Definition relativePath (opts : options) (href : string) : string :=
stripDotSlash (relative (path opts) (filename opts href)).

(** [getCssAsset(href, style)]: the sheet it resolves to, and the style
    element and the plugin as the call leaves them. *)
Definition getCssAsset (opts : options) (this : plugin) (href : string) (st : style)
  : option string * style * plugin :=
let asset := assets this !! relativePath opts href in
let annotated :=
  {| __name := __name st; __asset := asset;
     __assetName := relativePath opts href |} in
let fromDisk :=
  match readFile (filename opts href) with
  | Some content =>
    (Some content, annotated,
     warn ("Stylesheet " +:+ quote +:+ relativePath opts href +:+ quote
           +:+ " not found in assets, but a file was located on disk."
           +:+ (if opt_pruneSource opts
                then " This means pruneSource will not be applied." else ""))
          this)
  | None =>
    (None, st, warn ("Unable to locate stylesheet: " +:+ relativePath opts href) this)
  end in
match asset with
| Some a =>
  if falsy (source_of a)
  then fromDisk
  else (Some (toString (source_of a)), annotated, this)
| None => fromDisk
end.
End WithFileSystem.

Section WithSuperThreshold.
(** [super.checkInlineThreshold(link, style, sheet)], the verdict of the
    base class, on a link element of the document. *)
Variable Link : Type.
Variable super_checkInlineThreshold : Link -> style -> string -> bool.

Definition checkInlineThreshold (this : plugin) (link : Link) (st : style)
           (sheet : string) : bool * plugin :=
let inlined := super_checkInlineThreshold link st sheet in
if inlined
then match __asset st with
     | Some _ => (inlined, deleteAsset (__assetName st) this)
     | None =>
       (inlined,
        warn ("  > " +:+ __name st
              +:+ " was not found in assets. the resource may still be emitted but will be unreferenced.")
             this)
     end
else (inlined, this).
End WithSuperThreshold.

(** A style element created by [embedAdditionalStylesheet]. *)
Record externalStyle : Type := {
  __external : bool;
  textContent : string
}.

(** The style element is marked external and carries the source text of
    an asset of the compilation. *)
Definition from_assets (this : plugin) (st : externalStyle) : Prop :=
__external st = true
/\ exists name src, assets this !! name = Some src /\ textContent st = source_text src.

Section WithMinimatch.
(** [minimatch(file, pattern)] and the order in which [Object.keys]
    lists the assets, external. *)
Variable minimatch : string -> string -> bool.
Variable Object_keys : gmap string source -> list string.

(** The loop [for (const asset of webpackCssAssets)], appending to
    [document.head]; [assets[asset]!.source()] throws on a name that is
    not an asset. *)
Fixpoint appendStyles (this : plugin) (webpackCssAssets : list string)
         (head : list externalStyle) : result (list externalStyle) :=
match webpackCssAssets with
| [] => Ok head
| asset :: rest =>
  match assets this !! asset with
  | Some src =>
    appendStyles this rest
                 (head ++ [{| __external := true; textContent := source_text src |}])
  | None => TypeError
  end
end.

(** The [forEach] over the configured files. *)
Fixpoint embed_loop (this : plugin) (files : list string)
         (styleSheetsIncluded : list string) (head : list externalStyle)
  : result (list externalStyle) :=
match files with
| [] => Ok head
| cssFile :: rest =>
  if existsb (String.eqb cssFile) styleSheetsIncluded
  then embed_loop this rest styleSheetsIncluded head
  else
    match appendStyles this
                       (List.filter (fun file => minimatch file cssFile)
                                    (Object_keys (assets this)))
                       head with
    | Ok head' => embed_loop this rest (styleSheetsIncluded ++ [cssFile]) head'
    | TypeError => TypeError
    end
end.

(** [embedAdditionalStylesheet(document)], on the children of
    [document.head]. *)
Definition embedAdditionalStylesheet (this : plugin)
           (additionalStylesheets : option (list string))
           (head : list externalStyle) : result (list externalStyle) :=
embed_loop this (match additionalStylesheets with Some l => l | None => [] end)
           [] head.
End WithMinimatch.

End WebpackAssets.

(** ** [util.ts] *)

Module Util.

Definition isLower (c : ascii) : bool :=
let n := nat_of_ascii c in (97 <=? n) && (n <=? 122).

(** [i.toUpperCase()] on a letter matched by [[a-z]]. *)
Definition toUpperCase (c : ascii) : ascii := ascii_of_nat (nat_of_ascii c - 32).

(** [hook.replace(/-([a-z])/g, (s, i) => i.toUpperCase())] *)
Fixpoint camel (hook : string) : string :=
match hook with
| EmptyString => EmptyString
| String c rest =>
  match rest with
  | String i rest' =>
    if Ascii.eqb c "-" && isLower i
    then String (toUpperCase i) (camel rest')
    else String c (camel rest)
  | EmptyString => String c EmptyString
  end
end.

(** What [tap] does with the hook: a call of [tap] or [tapAsync] on
    [inst.hooks[camel]], or a call of the webpack 3 [inst.plugin]. *)
Inductive registration : Type :=
| HookCall (name method pluginName : string)
| PluginCall (hook : string).

(** [tap(inst, hook, pluginName, async, callback)]; [has_hooks] tells
    whether [inst.hooks] is there. *)
Definition tap (has_hooks : bool) (hook pluginName : string) (async : bool)
  : registration :=
if has_hooks
then HookCall (camel hook) (if async then "tapAsync" else "tap") pluginName
else PluginCall hook.

(** The text has a hyphen followed by a lower-case letter. *)
Fixpoint has_kebab (s : string) : bool :=
match s with
| EmptyString => false
| String c rest =>
  match rest with
  | String i _ => (Ascii.eqb c "-" && isLower i) || has_kebab rest
  | EmptyString => false
  end
end.

End Util.

(** Inputs of the webpack examples. *)
Module WebpackSamples.
Import Webpack WebpackAssets.

Definition dist : options :=
{| path := "/dist"; publicPath := Some "/static/"; opt_pruneSource := true |}.

(** A file system of one directory: resolving joins, making relative
    removes the directory again. *)
Definition join_path (dir file : string) : string := dir +:+ "/" +:+ file.

Definition below_dir (dir file : string) : string :=
substringFrom (Datatypes.S (String.length dir)) file.

Definition disk (file : string) : option string :=
if String.eqb file "/dist/print.css" then Some "p{margin:0}" else None.

Definition linked : style :=
{| __name := "print.css"; __asset := None; __assetName := "" |}.

Definition empty_asset_plugin : plugin :=
{| minimumExternalSize := None;
   assets := {[ "print.css" := RawSource "" ]};
   warnings := [] |}.

Definition empty_buffer_plugin : plugin :=
{| minimumExternalSize := None;
   assets := {[ "print.css" := BufferSource "" ]};
   warnings := [] |}.

Definition unlimited_plugin : plugin :=
{| minimumExternalSize := Some 0;
   assets := {[ "main.css" := RawSource "h1{color:red}h2{color:blue}" ]};
   warnings := [] |}.

End WebpackSamples.

(** ** The walks on a sheet without nested rules *)

Module FlatSheet.
Import Postcss JsArray Css.

(** An iterator that answers and changes nothing. *)
Definition answering {S : Type} (verdict : node -> jsret) : @iterator S :=
fun rule s => (verdict rule, rule, s).

(** [iterator(rule) !== false] *)
Definition kept (verdict : node -> jsret) (rule : node) : bool :=
negb (is_false (verdict rule)).

(** The rule as [walkStyleRules] hands it to the iterator. *)
Definition unwired (rule : node) : node :=
set_filterSelectors (set_other None rule).

(** The rule at an index as [walkStyleRulesWithReverseMirror] hands it to
    the iterator: wired to [rules2[index]]. *)
Definition wired (rules2 : list node) (ix : nat * node) : node :=
set_filterSelectors (set_other (nth_error rules2 (fst ix)) (snd ix)).

Definition flat (l : list node) : Prop :=
Forall (fun rule => hasNestedRules rule = false) l.

End FlatSheet.

(** A sheet of three plain rules. *)
Module FlatSamples.
Import Postcss.

Definition three_rules : node :=
root [rule ["h1"] [decl "color" ":" "red"];
      rule ["to"] [decl "opacity" ":" "1"];
      rule ["h2"] [decl "color" ":" "blue"]].

Definition verdict_to (rule : node) : jsret :=
match selectors rule with
| Some [sel] => if String.eqb sel "to" then RFalse else RTrue
| _ => RUndefined
end.

End FlatSamples.

(** * Properties *)

(** ** Serializer *)

Module SerializerFacts.
Import Postcss JsString Serializer SerializerSpec.

Lemma builder_dropped (d : dialect) (opts : options) (cssStr : string) (c : call) :
  closesStyle c = true -> builder d opts cssStr c = Ok cssStr.
Proof. intros H. unfold builder. now rewrite H. Qed.

Lemma builder_declaration (d : dialect) (opts : options) (cssStr : string) (c : call) :
  is_decl c = true -> closesStyle c = false ->
  builder d opts cssStr c = Ok (cssStr +:+ declText opts c).
Proof.
  unfold is_decl, builder, declText. intros Hd Hc. rewrite Hc.
  destruct (compress opts); simpl; [|reflexivity].
  destruct (c_node c) as [nd|] eqn:E; simpl in Hd; [|discriminate].
  unfold node_type_is. rewrite Hd.
  assert (String.eqb (type nd) "comment" = false) as ->; [|reflexivity].
  apply String.eqb_eq in Hd. now rewrite Hd.
Qed.

Lemma emit_skips_dropped (d : dialect) (opts : options) (calls : list call) :
  forall cssStr,
    emit d opts cssStr calls = emit d opts cssStr (List.filter safe calls).
Proof.
  induction calls as [|c calls IH]; intros cssStr; simpl; [reflexivity|].
  unfold safe at 1. destruct (closesStyle c) eqn:E; simpl.
  - rewrite (builder_dropped _ _ _ _ E). apply IH.
  - destruct (builder d opts cssStr c); [apply IH | reflexivity].
Qed.

Lemma append_cons (x : ascii) (a b : string) :
  String x a +:+ b = String x (a +:+ b).
Proof. reflexivity. Qed.

Lemma append_assoc (a b c : string) : (a +:+ b) +:+ c = a +:+ (b +:+ c).
Proof.
  induction a as [|x a IH]; [reflexivity|].
  now rewrite !append_cons, IH.
Qed.

Lemma append_empty_r (a : string) : a +:+ "" = a.
Proof.
  induction a as [|x a IH]; [reflexivity|].
  now rewrite append_cons, IH.
Qed.

Lemma emit_verbatim (d : dialect) (opts : options) (calls : list call) :
  compress opts = false ->
  forall cssStr,
    emit d opts cssStr calls
    = Ok (cssStr +:+ text_of (map c_result (List.filter safe calls))).
Proof.
  intros Hc. induction calls as [|c calls IH]; intros cssStr;
    cbn [emit List.filter map text_of].
  - now rewrite append_empty_r.
  - unfold safe at 1, builder. destruct (closesStyle c) eqn:E;
      cbn [negb map text_of].
    + apply IH.
    + rewrite Hc. cbn [negb]. rewrite IH. now rewrite append_assoc.
Qed.

Lemma filter_safe_all (calls : list call) :
  Forall (fun c => closesStyle c = false) (List.filter safe calls).
Proof.
  apply List.Forall_forall. intros c Hin. apply filter_In in Hin.
  destruct Hin as [_ H]. unfold safe in H. now destruct (closesStyle c).
Qed.

Lemma prefix_append (p r : string) : String.prefix p (p +:+ r) = true.
Proof.
induction p as [|x p IH]; [now destruct r|].
rewrite append_cons. cbn. now destruct (ascii_dec x x).
Qed.

Lemma substring_all (r : string) :
  forall m, String.length r <= m -> String.substring 0 m r = r.
Proof.
induction r as [|y r IH]; intros m Hm; [now destruct m|].
destruct m as [|m]; cbn in Hm; [lia|]. cbn. rewrite IH; [reflexivity | lia].
Qed.

Lemma substring_append (p r : string) :
  forall m, String.length r <= m ->
    String.substring (String.length p) m (p +:+ r) = r.
Proof.
induction p as [|x p IH]; intros m Hm.
- change ("" +:+ r) with r. now apply substring_all.
- rewrite append_cons. cbn. now apply IH.
Qed.

Lemma length_append_ge (p r : string) :
  String.length r <= String.length (p +:+ r).
Proof.
induction p as [|x p IH]; [change ("" +:+ r) with r; lia|].
rewrite append_cons. cbn. lia.
Qed.

Lemma findSplit_found (s pat : string) :
  String.prefix pat s = true ->
  findSplit s pat
  = Some (EmptyString, String.substring (String.length pat) (String.length s) s).
Proof. intros H. destruct s; cbn [findSplit]; now rewrite H. Qed.

Lemma findSplit_prefix (p r : string) :
  findSplit (p +:+ r) p = Some (EmptyString, r).
Proof.
rewrite findSplit_found by apply prefix_append.
now rewrite substring_append by apply length_append_ge.
Qed.

Lemma getSubstitution_plain (m b a : string) (s : string) :
  no_dollar s = true -> getSubstitution m b a s = s.
Proof.
induction s as [|c s IH]; [reflexivity|]. intros H.
destruct s as [|e r]; [reflexivity|].
cbn [no_dollar] in H. apply andb_prop in H as [Hc Hr].
cbn [getSubstitution]. apply negb_true_iff in Hc. rewrite Hc.
f_equal. now apply IH.
Qed.

Lemma no_dollar_tail (c : ascii) (s : string) :
  no_dollar (String c s) = true -> no_dollar s = true.
Proof. cbn [no_dollar]. intros H. now apply andb_prop in H as [_ H]. Qed.

Lemma no_dollar_trimStart_bounded :
  forall n s, String.length s <= n ->
              no_dollar s = true -> no_dollar (trimStart s) = true.
Proof.
induction n as [|n IH]; intros s Hn H.
- destruct s; [reflexivity | cbn in Hn; lia].
- destruct s as [|c1 s1]; [reflexivity|]. cbn [String.length] in Hn.
  cbn [trimStart]. pose proof (no_dollar_tail _ _ H) as H1.
  destruct (isSpace c1); [apply IH; [lia | assumption]|].
  destruct s1 as [|c2 s2]; [assumption|]. cbn [String.length] in Hn.
  pose proof (no_dollar_tail _ _ H1) as H2.
  destruct (isSpace2 c1 c2); [apply IH; [lia | assumption]|].
  destruct s2 as [|c3 s3]; [assumption|]. cbn [String.length] in Hn.
  pose proof (no_dollar_tail _ _ H2) as H3.
  destruct (isSpace3 c1 c2 c3); [apply IH; [lia | assumption] | assumption].
Qed.

Lemma no_dollar_trimStart (s : string) :
  no_dollar s = true -> no_dollar (trimStart s) = true.
Proof. apply (no_dollar_trimStart_bounded (String.length s)). lia. Qed.

Lemma no_dollar_trimEnd (s : string) :
  no_dollar s = true -> no_dollar (trimEnd s) = true.
Proof.
induction s as [|c s IH]; [trivial|]. intros H.
pose proof (no_dollar_tail _ _ H) as Hs.
cbn [no_dollar] in H. apply andb_prop in H as [Hc _].
cbn [trimEnd]. destruct (allSpace (String c s)); [reflexivity|].
cbn [no_dollar]. now rewrite Hc, IH.
Qed.

Lemma no_dollar_trim (s : string) :
  no_dollar s = true -> no_dollar (trim s) = true.
Proof. intros H. now apply no_dollar_trimEnd, no_dollar_trimStart. Qed.

(** The sheet of the security test: the declaration is gone from the
    output, the other declaration is there, with and without compression. *)
Example star_rule_serialized :
  serializeStylesheet (fun _ => Samples.star_calls) JS Samples.star_rule
                      {| compress := false |}
  = Ok "* { color: red;  }"
  /\ serializeStylesheet (fun _ => Samples.star_calls) TS Samples.star_rule
                         {| compress := true |}
     = Ok "*{color:red;}".
Proof. split; reflexivity. Qed.

Lemma closesStyle_spec (c : call) : closesStyle c = closes_style_element c.
Proof.
  unfold closesStyle, closes_style_element, is_decl, node_type_is, value_of.
  now destruct (c_node c).
Qed.

Lemma filter_safe_spec (calls : list call) :
  List.filter safe calls
  = List.filter (fun c => negb (closes_style_element c)) calls.
Proof.
  induction calls as [|c calls IH]; [reflexivity|]. cbn [List.filter].
  unfold safe at 1. now rewrite closesStyle_spec, IH.
Qed.

Lemma declText_emitted (opts : options) (c : call) : declText opts c = emitted opts c.
Proof.
  unfold declText, emitted, compressDecl.
  now destruct (compress opts), (c_node c).
Qed.

Lemma emit_declarations (d : dialect) (opts : options) (decls : list call) :
  Forall (fun c => is_decl c = true) decls ->
  forall cssStr,
    emit d opts cssStr decls
    = Ok (cssStr
          +:+ text_of (map (emitted opts)
                           (List.filter (fun c => negb (closes_style_element c))
                                        decls))).
Proof.
  induction 1 as [|c decls Hc _ IH]; intros cssStr; cbn [emit List.filter].
  - cbn. now rewrite append_empty_r.
  - destruct (closes_style_element c) eqn:E; cbn [negb].
    + rewrite builder_dropped by now rewrite closesStyle_spec. apply IH.
    + rewrite builder_declaration by (assumption || now rewrite closesStyle_spec).
      rewrite IH, declText_emitted. cbn [map text_of]. now rewrite append_assoc.
Qed.

Lemma emit_app (d : dialect) (opts : options) (l1 l2 : list call) :
  forall cssStr,
    emit d opts cssStr (l1 ++ l2)
    = match emit d opts cssStr l1 with
      | Ok cssStr' => emit d opts cssStr' l2
      | TypeError => TypeError
      end.
Proof.
  induction l1 as [|c l1 IH]; intros cssStr; [reflexivity|].
  cbn [app emit]. destruct (builder d opts cssStr c); [apply IH | reflexivity].
Qed.

Lemma builder_blank (d : dialect) (opts : options) (cssStr : string) (c : call) :
  compress opts = true -> is_blank c = true -> builder d opts cssStr c = Ok cssStr.
Proof.
  unfold is_blank, builder, closesStyle, node_type_is. intros Hc Hb. rewrite Hc.
  destruct (c_node c); [discriminate|]. destruct (c_type c); [discriminate|].
  cbn. apply String.eqb_eq in Hb. rewrite Hb. now rewrite append_empty_r.
Qed.

Lemma emit_rule_body (d : dialect) (opts : options) (body : list call) :
  compress opts = true ->
  Forall (fun c => is_decl c = true \/ is_blank c = true) body ->
  forall cssStr,
    emit d opts cssStr body
    = Ok (cssStr +:+ text_of (map (emitted opts) (List.filter kept_declaration body))).
Proof.
  intros Hc. induction 1 as [|c body Hcall _ IH]; intros cssStr;
    cbn [emit List.filter].
  - cbn. now rewrite append_empty_r.
  - unfold kept_declaration at 1. destruct Hcall as [Hd|Hb].
    + rewrite Hd. cbn [andb]. destruct (closes_style_element c) eqn:E; cbn [negb].
      * rewrite builder_dropped by now rewrite closesStyle_spec. apply IH.
      * rewrite builder_declaration by (assumption || now rewrite closesStyle_spec).
        rewrite IH, declText_emitted. cbn [map text_of]. now rewrite append_assoc.
    + assert (Hnd : is_decl c = false).
      { unfold is_blank in Hb. unfold is_decl, node_type_is.
        now destruct (c_node c). }
      rewrite Hnd. cbn [andb]. rewrite (builder_blank d opts cssStr c Hc Hb).
      apply IH.
Qed.

(** C1. Whatever tree is serialized and whatever the compression mode,
    in both editions of the serializer: the output is the output of the
    builder invocations that are not declarations whose value contains
    the text [</style>]; such a declaration contributes nothing, it is
    neither emitted nor escaped.  Every other declaration is emitted: the
    text [stringify] gave is appended, when minifying with its prefix
    [prop + raws.between] trimmed and the rest, the value, as it is; a
    run of declarations comes out as the texts of the declarations that
    are not dropped, in order; a minified rule comes out as its selectors
    joined by commas, a brace, the texts of its kept declarations and the
    closing brace; and without compression the whole output is the
    concatenation of the texts of the remaining invocations. *)
Theorem serializeStylesheet_drops_style_closers :
  forall (stringify : node -> list call) (d : dialect) (ast : node) (opts : options),
    let kept :=
      List.filter (fun c => negb (closes_style_element c)) (stringify ast) in
    serializeStylesheet stringify d ast opts = emit d opts "" kept
    /\ Forall (fun c => closes_style_element c = false) kept
    /\ (forall c cssStr,
           is_decl c = true -> includes (value_of c) "</style>" = true ->
           builder d opts cssStr c = Ok cssStr)
    /\ (forall c cssStr,
           is_decl c = true -> includes (value_of c) "</style>" = false ->
           builder d opts cssStr c = Ok (cssStr +:+ emitted opts c))
    /\ (forall c nd rest,
           c_node c = Some nd ->
           c_result c = (prop nd +:+ to_text (raws_between nd)) +:+ rest ->
           no_dollar (prop nd +:+ to_text (raws_between nd)) = true ->
           emitted opts c
           = (if compress opts
              then trim (prop nd +:+ to_text (raws_between nd))
              else prop nd +:+ to_text (raws_between nd))
             +:+ rest)
    /\ (forall decls cssStr,
           Forall (fun c => is_decl c = true) decls ->
           emit d opts cssStr decls
           = Ok (cssStr
                 +:+ text_of (map (emitted opts)
                                  (List.filter
                                     (fun c => negb (closes_style_element c))
                                     decls))))
    /\ (forall (rule : node) (sels : list string) (opening : string)
               (body : list call) (cssStr : string),
           compress opts = true ->
           type rule = "rule" ->
           selectors rule = Some sels ->
           raws_semicolon rule = false ->
           Forall (fun c => is_decl c = true \/ is_blank c = true) body ->
           emit d opts cssStr
                ({| c_result := opening; c_node := Some rule; c_type := Some "start" |}
                   :: body
                   ++ [{| c_result := "}"; c_node := Some rule;
                          c_type := Some "end" |}])
           = Ok (cssStr +:+ join "," sels +:+ "{"
                 +:+ text_of (map (emitted opts) (List.filter kept_declaration body))
                 +:+ "}"))
    /\ (compress opts = false ->
        serializeStylesheet stringify d ast opts
        = Ok (text_of (map c_result kept))).
Proof.
  intros stringify d ast opts kept. unfold serializeStylesheet. subst kept.
  rewrite <- filter_safe_spec.
  split; [apply emit_skips_dropped|].
  split.
  { pose proof (filter_safe_all (stringify ast)) as H.
    apply List.Forall_forall. intros c Hc.
    rewrite List.Forall_forall in H. rewrite <- closesStyle_spec. now apply H. }
  split; [|split; [|split; [|split; [|split]]]].
  - intros c cssStr Hd Hv. apply builder_dropped.
    rewrite closesStyle_spec. unfold closes_style_element. now rewrite Hd, Hv.
  - intros c cssStr Hd Hv. rewrite <- declText_emitted.
    apply builder_declaration; [assumption|].
    rewrite closesStyle_spec. unfold closes_style_element. rewrite Hd, Hv.
    reflexivity.
  - intros c nd rest Hn Hres Hdollar. unfold emitted, replace. rewrite Hn, Hres.
    destruct (compress opts); [|reflexivity].
    rewrite findSplit_prefix.
    rewrite getSubstitution_plain by now apply no_dollar_trim.
    reflexivity.
  - intros decls cssStr Hall. now apply emit_declarations.
  - intros rule sels opening body cssStr Hc Hty Hsel Hsemi Hbody.
    cbn [emit]. unfold builder at 1, closesStyle, node_type_is.
    cbn [c_node c_type c_result type_is]. rewrite Hc, Hty, Hsel. cbn.
    rewrite emit_app, (emit_rule_body d opts body Hc Hbody). cbn [emit].
    unfold builder, closesStyle, node_type_is.
    cbn [c_node c_type c_result type_is]. rewrite Hc, Hty, Hsemi. cbn.
    change (trim "}") with "}". now rewrite !append_assoc.
  - intros Hc. now rewrite (emit_verbatim d opts _ Hc).
Qed.

End SerializerFacts.

(** ** [splitFilter] and [filterSelectors] *)

Module SplitFilterFacts.
Import Postcss JsArray Css.

Section Pure.
Context {T : Type}.
Variable p : T -> nat -> list T -> option (list T) -> bool.

Lemma indexed_from_cons (i : nat) (x : T) (l : list T) :
  indexed_from i (x :: l) = (i, x) :: indexed_from (Datatypes.S i) l.
Proof. reflexivity. Qed.

Lemma picked_cons (a : list T) (b : option (list T)) (i : nat) (x : T) (l : list T) :
  picked p a b i (x :: l)
  = if p x i a b then x :: picked p a b (Datatypes.S i) l
    else picked p a b (Datatypes.S i) l.
Proof.
  unfold picked, picked_at. rewrite indexed_from_cons. cbn [List.filter fst snd].
  now destruct (p x i a b).
Qed.

Lemma unpicked_cons (a : list T) (b : option (list T)) (i : nat) (x : T) (l : list T) :
  unpicked p a b i (x :: l)
  = if p x i a b then unpicked p a b (Datatypes.S i) l
    else x :: unpicked p a b (Datatypes.S i) l.
Proof.
  unfold unpicked, unpicked_at. rewrite indexed_from_cons. cbn [List.filter fst snd].
  now destruct (p x i a b).
Qed.

Lemma splitFilter_loop_pure (a : list T) (b : option (list T)) :
  forall rest done aOut bOut,
    done ++ rest = a ->
    splitFilter_loop (pure4 p) b done rest (length done) aOut bOut tt
    = Ok ((aOut ++ picked p a b (length done) rest,
           bOut ++ unpicked p a b (length done) rest), tt).
Proof.
  induction rest as [|x rest IH]; intros done aOut bOut Ha.
  - cbn. unfold ret. now rewrite !List.app_nil_r.
  - cbn [splitFilter_loop]. unfold bind, pure4, ret. cbn [fst snd].
    rewrite Ha, picked_cons, unpicked_cons.
    assert (Hlen : Datatypes.S (length done) = length (done ++ [x])).
    { rewrite List.length_app. simpl. lia. }
    assert (Ha' : (done ++ [x]) ++ rest = a).
    { now rewrite <- List.app_assoc. }
    destruct (p x (length done) a b); rewrite Hlen, (IH _ _ _ Ha');
      now rewrite <- ?List.app_assoc.
Qed.

Lemma splitFilter_pure (a : list T) (b : option (list T)) :
  run (splitFilter (pure4 p) (Some a) b)
  = Ok (picked p a b 0 a, unpicked p a b 0 a).
Proof.
  unfold run, splitFilter.
  pose proof (splitFilter_loop_pure a b a [] [] [] eq_refl) as H.
  cbn [length app] in H. now rewrite H.
Qed.


Lemma filter_loop_pure (a : list T) :
  forall rest done out,
    done ++ rest = a ->
    filter_loop (pure3 p) done rest (length done) out tt
    = Ok (out ++ picked p a None (length done) rest, tt).
Proof.
  induction rest as [|x rest IH]; intros done out Ha.
  - cbn. unfold ret. now rewrite List.app_nil_r.
  - cbn [filter_loop]. unfold bind, pure3, ret. cbn [fst snd].
    rewrite Ha, picked_cons.
    assert (Hlen : Datatypes.S (length done) = length (done ++ [x])).
    { rewrite List.length_app. simpl. lia. }
    assert (Ha' : (done ++ [x]) ++ rest = a).
    { now rewrite <- List.app_assoc. }
    rewrite Hlen, (IH _ _ Ha').
    destruct (p x (length done) a None); now rewrite <- ?List.app_assoc.
Qed.

Lemma filter_pure (a : list T) :
  run (filter (pure3 p) (Some a)) = Ok (picked p a None 0 a).
Proof.
  unfold run, filter.
  pose proof (filter_loop_pure a a [] [] eq_refl) as H.
  cbn [length app] in H. now rewrite H.
Qed.




End Pure.



Lemma assigned_empty : assigned [] = [""].
Proof. reflexivity. Qed.






End SplitFilterFacts.

(** ** Media query validation *)

Module MediaQueryFacts.
Import MediaQuery.

Lemma has_list (l : list string) (v : string) :
  has (list_to_set l) v = true <-> In v l.
Proof.
  unfold has. rewrite bool_decide_eq_true, elem_of_list_to_set.
  apply list_elem_of_In.
Qed.

Lemma has_MEDIA_TYPES (v : string) :
  has MEDIA_TYPES v = true <-> allowed_media_type v.
Proof. apply has_list. Qed.

Lemma has_MEDIA_KEYWORDS (v : string) :
  has MEDIA_KEYWORDS v = true <-> allowed_keyword v.
Proof. apply has_list. Qed.

Lemma has_MEDIA_FEATURES (v : string) :
  has MEDIA_FEATURES v = true <-> allowed_feature v.
Proof.
  unfold MEDIA_FEATURES, allowed_feature. rewrite has_list, in_flat_map.
  split; intros (f & Hf & Hv); exists f.
  - split; [cbn in Hf |- *; tauto|]. cbn [In] in Hv. intuition congruence.
  - split; [cbn in Hf |- *; tauto|]. cbn [In]. intuition congruence.
Qed.

Lemma is_token_type (n : node) :
  is_token n = true
  <-> type n = "media-type" \/ type n = "keyword" \/ type n = "media-feature".
Proof.
  unfold is_token, nodeTypes. rewrite has_list. cbn. intuition congruence.
Qed.

(** A node is rejected exactly when it is a token outside the allow-list. *)
Lemma rejects_false (n : node) :
  rejects n = false <-> (is_token n = true -> allowed_token (type n, value n)).
Proof.
  unfold rejects. fold (is_token n).
  destruct (is_token n) eqn:Et; cbn [andb].
  - rewrite negb_false_iff. apply is_token_type in Et.
    unfold validateMediaType, allowed_token. cbn [fst snd].
    destruct (String.eqb_spec (type n) "media-type") as [E1|E1].
    { cbn. rewrite has_MEDIA_TYPES. rewrite E1.
      split; [intros H _; repeat split; auto; discriminate | intros H; now apply H]. }
    destruct (String.eqb_spec (type n) "keyword") as [E2|E2].
    { cbn. rewrite has_MEDIA_KEYWORDS. rewrite E2.
      split; [intros H _; repeat split; auto; discriminate | intros H; now apply H]. }
    destruct (String.eqb_spec (type n) "media-feature") as [E3|E3].
    { cbn. rewrite has_MEDIA_FEATURES. rewrite E3.
      split; [intros H _; repeat split; auto; discriminate | intros H; now apply H]. }
    exfalso. tauto.
  - split; [discriminate | reflexivity].
Qed.

Lemma in_all_nodes_push (n : node) (rest : list node) (x : node) :
  In x (flat_map all_nodes (n :: rest))
  <-> x = n \/ In x (flat_map all_nodes (push_children n rest)).
Proof.
  unfold push_children. destruct n as [ty v [l|]]; cbn [flat_map all_nodes nodes].
  - rewrite flat_map_app, !in_app_iff. cbn [In].
    assert (In x (flat_map all_nodes (rev l)) <-> In x (flat_map all_nodes l)) as ->.
    { rewrite !in_flat_map. split; intros (c & Hc & Hx); exists c;
        (split; [|assumption]); [now apply in_rev | now apply in_rev in Hc]. }
    intuition congruence.
  - rewrite in_app_iff. cbn [In]. intuition congruence.
Qed.

(** The loop accepts a stack exactly when no node below it is rejected. *)
Lemma validate_loop_spec (stack : list node) :
  validate_loop stack = true
  <-> (forall x, In x (flat_map all_nodes stack) -> rejects x = false).
Proof.
  funelim (validate_loop stack).
  - split; [intros _ x [] | reflexivity].
  - destruct (rejects n) eqn:Er.
    + split; [discriminate|]. intros Hall.
      rewrite (Hall n) in Er; [discriminate|].
      apply in_all_nodes_push. now left.
    + rewrite H. split.
      * intros Hall x Hx. apply in_all_nodes_push in Hx as [->|Hx]; auto.
      * intros Hall x Hx. apply Hall. apply in_all_nodes_push. now right.
Qed.

Lemma in_tokens (t : node) (ty v : string) :
  In (ty, v) (tokens t)
  <-> exists x, In x (all_nodes t) /\ is_token x = true /\ type x = ty /\ value x = v.
Proof.
  unfold tokens. rewrite in_map_iff. split.
  - intros (x & E & Hx). apply filter_In in Hx as [Hx Ht].
    inversion E; subst. now exists x.
  - intros (x & Hx & Ht & <- & <-). exists x. split; [reflexivity|].
    apply filter_In. now split.
Qed.

Lemma validate_tree (t : node) :
  validate_loop [t] = true <-> (forall tok, In tok (tokens t) -> allowed_token tok).
Proof.
  rewrite validate_loop_spec. cbn [flat_map]. rewrite List.app_nil_r. split.
  - intros Hall [ty v] Hin. apply in_tokens in Hin as (x & Hx & Ht & <- & <-).
    now apply rejects_false; [apply Hall|].
  - intros Hall x Hx. apply rejects_false. intros Ht. apply Hall.
    apply in_tokens. now exists x.
Qed.

(** A query of the test suite is accepted whatever follows the feature
    name; an unknown media type is refused. *)
Example sample_queries :
  validateMediaQuery Samples.sample_parser "(min-width: 100px)" = true
  /\ validateMediaQuery Samples.sample_parser "(min-width: </style>)" = true
  /\ validate_loop [leaf "media-type" "tv"] = false.
Proof. repeat split; reflexivity. Qed.

(** Whatever its type, a node passes the check of the loop exactly when
    it is not a media type, keyword or media feature outside the
    allow-list. *)
Lemma rejects_allowed (n : node) :
  rejects n = false
  <-> (type n = "media-type" -> allowed_media_type (value n))
      /\ (type n = "keyword" -> allowed_keyword (value n))
      /\ (type n = "media-feature" -> allowed_feature (value n)).
Proof.
  rewrite rejects_false. unfold allowed_token. cbn [fst snd]. split.
  - intros H. destruct (is_token n) eqn:Et; [now apply H|].
    assert (Hno : ~ (type n = "media-type" \/ type n = "keyword"
                     \/ type n = "media-feature")).
    { intros Hty. apply is_token_type in Hty. congruence. }
    repeat split; intros Hty; exfalso; apply Hno; auto.
  - intros H _. exact H.
Qed.

(** C3. [validateMediaQuery] answers [true] exactly when, in the parsed
    query, every node of type media-type has a value among all, print,
    screen, speech; every node of type keyword a value among and, not,
    comma; and every node of type media-feature a value among the ten
    names or one of them prefixed by min- or max-.  One such node with a
    value outside its list makes the answer [false]. *)
Theorem validateMediaQuery_allow_list :
  forall (mediaParser : string -> node) (query : string),
    (validateMediaQuery mediaParser query = true
     <-> forall x,
        In x (all_nodes (mediaParser query)) ->
        (type x = "media-type" -> allowed_media_type (value x))
        /\ (type x = "keyword" -> allowed_keyword (value x))
        /\ (type x = "media-feature" -> allowed_feature (value x)))
    /\ (forall x,
           In x (all_nodes (mediaParser query)) ->
           (type x = "media-type" /\ ~ allowed_media_type (value x))
           \/ (type x = "keyword" /\ ~ allowed_keyword (value x))
           \/ (type x = "media-feature" /\ ~ allowed_feature (value x)) ->
           validateMediaQuery mediaParser query = false).
Proof.
  intros mediaParser query. unfold validateMediaQuery.
  assert (Hspec : validate_loop [mediaParser query] = true
                  <-> forall x,
                     In x (all_nodes (mediaParser query)) ->
                     (type x = "media-type" -> allowed_media_type (value x))
                     /\ (type x = "keyword" -> allowed_keyword (value x))
                     /\ (type x = "media-feature" -> allowed_feature (value x))).
  { rewrite validate_loop_spec. cbn [flat_map]. rewrite List.app_nil_r.
    split; intros H x Hx; apply rejects_allowed; now apply H. }
  split; [exact Hspec|].
  intros x Hin Hbad.
  destruct (validate_loop [mediaParser query]) eqn:E; [|reflexivity].
  exfalso. destruct (proj1 Hspec eq_refl x Hin) as (H1 & H2 & H3).
  destruct Hbad as [[Hty Hv]|[[Hty Hv]|[Hty Hv]]]; auto.
Qed.

(** C9. Two queries whose parses have the same tokens (nodes of type
    media-type, keyword or media-feature, with their values) get the same
    verdict: nodes of any other type, such as the value written after a
    feature, have no influence on it. *)
Theorem validateMediaQuery_depends_on_tokens_only :
  forall (mediaParser : string -> node) (query1 query2 : string),
    (forall tok, In tok (tokens (mediaParser query1))
                 <-> In tok (tokens (mediaParser query2))) ->
    validateMediaQuery mediaParser query1 = validateMediaQuery mediaParser query2.
Proof.
  intros mediaParser query1 query2 Hsame. unfold validateMediaQuery.
  pose proof (validate_tree (mediaParser query1)) as H1.
  pose proof (validate_tree (mediaParser query2)) as H2.
  destruct (validate_loop [mediaParser query1]) eqn:E1,
           (validate_loop [mediaParser query2]) eqn:E2; try reflexivity.
  - symmetry. apply (proj2 H2). intros tok Hin.
    apply (proj1 H1 eq_refl). now apply Hsame.
  - apply (proj2 H1). intros tok Hin.
    apply (proj1 H2 eq_refl). now apply Hsame.
Qed.

Lemma validateMediaQuery_depends_on_tokens_only_witness :
  (forall tok,
      In tok (tokens (Samples.sample_parser "(min-width: 100px)"))
      <-> In tok (tokens (Samples.sample_parser "(min-width: </style>)")))
  /\ validateMediaQuery Samples.sample_parser "(min-width: 100px)"
     = validateMediaQuery Samples.sample_parser "(min-width: </style>)".
Proof.
  assert (H : forall tok,
             In tok (tokens (Samples.sample_parser "(min-width: 100px)"))
             <-> In tok (tokens (Samples.sample_parser "(min-width: </style>)"))).
  { intros tok. vm_compute. tauto. }
  split; [exact H|].
  exact (validateMediaQuery_depends_on_tokens_only Samples.sample_parser _ _ H).
Defined.

End MediaQueryFacts.

(** ** Webpack plugin *)

Module WebpackFacts.
Import Webpack.

(** A remaining sheet of nineteen characters in twenty-five bytes, with
    a minimum of twenty: [pruneSource] compares [sheetInverse.length],
    nineteen, and deletes the asset, although the sheet is not fewer bytes
    than the minimum. *)
Lemma pruneSource_counts_code_units :
  String.length Samples.accented_sheet = 25
  /\ JsString.codeUnits Samples.accented_sheet = 19
  /\ minimumExternalSize Samples.sample_plugin = Some 20
  /\ pruneSource Samples.never_inlined Samples.sample_plugin Samples.sample_style
                 "h1{color:red}h2{color:blue}" Samples.accented_sheet
     = (true, deleteAsset "main.css" Samples.sample_plugin)
  /\ assets (snd (pruneSource Samples.never_inlined Samples.sample_plugin
                              Samples.sample_style "h1{color:red}h2{color:blue}"
                              Samples.accented_sheet))
     !! "main.css" = None
  /\ ~ threshold_in_bytes.
Proof.
assert (Hrun : pruneSource Samples.never_inlined Samples.sample_plugin
                           Samples.sample_style "h1{color:red}h2{color:blue}"
                           Samples.accented_sheet
               = (true, deleteAsset "main.css" Samples.sample_plugin))
  by reflexivity.
assert (Hgone : assets (deleteAsset "main.css" Samples.sample_plugin) !! "main.css"
                = None)
  by (unfold deleteAsset, with_assets; cbn [assets]; apply lookup_delete_eq).
split; [reflexivity|]. split; [reflexivity|]. split; [reflexivity|].
split; [exact Hrun|]. split; [rewrite Hrun; exact Hgone|].
intros Hclaim.
assert (Hpos : 0 < 20) by lia.
assert (Hlong : 20 <= String.length Samples.accented_sheet)
  by (replace (String.length Samples.accented_sheet) with 25 by reflexivity; lia).
destruct (Hclaim Samples.never_inlined Samples.sample_plugin Samples.sample_style
                 (RawSource "h1{color:red}h2{color:blue}") 20
                 "h1{color:red}h2{color:blue}" Samples.accented_sheet
                 eq_refl eq_refl Hpos) as [_ Hback].
specialize (Hback Hlong). rewrite Hrun in Hback. cbn [snd] in Hback.
change (__assetName Samples.sample_style) with "main.css" in Hback.
rewrite Hgone in Hback. discriminate Hback.
Qed.

(** C8, amended. For a style element that has an asset and a configured
    minimum size above zero: when the serialized non-critical sheet is
    shorter than the minimum, its length taken as [sheetInverse.length]
    (UTF-16 code units, not bytes), [pruneSource] deletes the asset and
    answers [true]; otherwise it stores the non-critical sheet under the
    asset's name, in place of what was there, and passes on the verdict of
    the base class. *)
Theorem pruneSource_threshold :
  forall (super_pruneSource : style -> string -> string -> bool)
         (this : plugin) (st : style) (asset : source) (minSize : nat)
         (before sheetInverse : string),
    __asset st = Some asset ->
    minimumExternalSize this = Some minSize ->
    0 < minSize ->
    (JsString.codeUnits sheetInverse < minSize ->
     pruneSource super_pruneSource this st before sheetInverse
     = (true, deleteAsset (__assetName st) this)
     /\ assets (deleteAsset (__assetName st) this) !! __assetName st = None)
    /\ (minSize <= JsString.codeUnits sheetInverse ->
        exists this',
          pruneSource super_pruneSource this st before sheetInverse
          = (super_pruneSource st before sheetInverse, this')
          /\ assets this' !! __assetName st
             = Some (SourceMapSource sheetInverse (__assetName st) before)
          /\ (forall other, other <> __assetName st ->
                            assets this' !! other = assets this !! other)).
Proof.
  intros super this st asset minSize before sheetInverse Ha Hm Hpos.
  unfold pruneSource, belowMinimum. rewrite Ha, Hm.
  assert (E0 : (minSize =? 0) = false) by (apply Nat.eqb_neq; lia).
  rewrite E0. cbn [negb andb]. split.
  - intros Hlt. apply Nat.ltb_lt in Hlt. rewrite Hlt. split; [reflexivity|].
    unfold deleteAsset, with_assets. cbn [assets]. apply lookup_delete_eq.
  - intros Hge. apply Nat.ltb_ge in Hge. rewrite Hge.
    eexists. split; [reflexivity|]. unfold with_assets. cbn [assets]. split.
    + apply lookup_insert_eq.
    + intros other Hne. now apply lookup_insert_ne.
Qed.

Lemma pruneSource_threshold_witness :
  (pruneSource Samples.never_inlined Samples.sample_plugin Samples.sample_style
               "h1{color:red}h2{color:blue}" Samples.accented_sheet
   = (true, deleteAsset "main.css" Samples.sample_plugin)
   /\ assets (deleteAsset "main.css" Samples.sample_plugin) !! "main.css" = None)
  /\ (exists this',
         pruneSource Samples.never_inlined Samples.sample_plugin Samples.sample_style
                     "h1{color:red}h2{color:blue}" "h2{color:blue;background:none}"
         = (false, this')
         /\ assets this' !! "main.css"
            = Some (SourceMapSource "h2{color:blue;background:none}" "main.css"
                                    "h1{color:red}h2{color:blue}")
         /\ (forall other, other <> "main.css" ->
                           assets this' !! other
                           = assets Samples.sample_plugin !! other)).
Proof.
split.
- refine (proj1 (pruneSource_threshold Samples.never_inlined Samples.sample_plugin
                   Samples.sample_style
                   (RawSource "h1{color:red}h2{color:blue}") 20
                   "h1{color:red}h2{color:blue}" Samples.accented_sheet
                   eq_refl eq_refl _) _);
    [|replace (JsString.codeUnits Samples.accented_sheet) with 19 by reflexivity];
    lia.
- refine (proj2 (pruneSource_threshold Samples.never_inlined Samples.sample_plugin
                   Samples.sample_style
                   (RawSource "h1{color:red}h2{color:blue}") 20
                   "h1{color:red}h2{color:blue}" "h2{color:blue;background:none}"
                   eq_refl eq_refl _) _);
    [|replace (JsString.codeUnits "h2{color:blue;background:none}") with 30
        by reflexivity];
    lia.
Defined.

End WebpackFacts.

(** ** [markOnly] *)

Module MarkOnlyFacts.
Import Postcss JsArray Css.

(** The marking of a rule that has a twin writes [$$markedSelectors] on
    the twin, although the predicate itself touched nothing. *)
Lemma markOnly_writes_to_twin :
  _other (snd (fst (Samples.reject_all Samples.wired_rule tt)))
  = _other Samples.wired_rule
  /\ _other (snd (fst (markOnly JS Samples.reject_all Samples.wired_rule tt)))
     = Some (set_markedSelectors (Some ["h1"; "h2"]) Samples.twin_rule)
  /\ _other (snd (fst (markOnly JS Samples.reject_all Samples.wired_rule tt)))
     <> _other Samples.wired_rule
  /\ ~ twin_untouched_by_marking.
Proof.
assert (H : _other (snd (fst (markOnly JS Samples.reject_all Samples.wired_rule tt)))
            <> _other Samples.wired_rule) by (vm_compute; discriminate).
split; [reflexivity|]. split; [reflexivity|]. split; [exact H|].
intros Hclaim. apply H. now apply Hclaim.
Qed.

(** A predicate that filters the selectors of a wired rule: after the
    marking the rule has its two selectors back and the kept one stashed,
    while the twin holds the complement, as selector list and as stash. *)
Example markOnly_filtering_predicate :
  let marked := snd (fst (markOnly JS Samples.keep_h1 Samples.wired_rule tt)) in
  selectors marked = Some ["h1"; "h2"]
  /\ __markedSelectors marked = Some ["h1"]
  /\ option_map selectors (_other marked) = Some (Some ["h2"])
  /\ option_map __markedSelectors (_other marked) = Some (Some ["h2"])
  /\ selectors (applyMarkedSelectors marked) = Some ["h1"].
Proof. repeat split; reflexivity. Qed.

(** C6, amended. [markOnly(p)] never detaches the rule: it answers
    [undefined], sets [$$remove] exactly when [p] answered [false], keeps
    the children, type and name as [p] left them, stores the selector list
    left by [p] in [$$markedSelectors] and gives the rule back the selector
    list it had before the call (in [css.ts] for a rule that still has a
    selector list).  The twin is written to: its [$$markedSelectors]
    becomes its current selector list; its own selector list, children and
    removal mark stay as [p] left them. *)
Theorem markOnly_frame :
  forall (S : Type) (d : dialect) (predicate : @iterator S) (rule : node) (s : S),
    let after_p := snd (fst (predicate rule s)) in
    let verdict := fst (fst (predicate rule s)) in
    let marked := snd (fst (markOnly d predicate rule s)) in
    fst (fst (markOnly d predicate rule s)) = RUndefined
    /\ snd (markOnly d predicate rule s) = snd (predicate rule s)
    /\ __remove marked = (if is_false verdict then true else __remove after_p)
    /\ nodes marked = nodes after_p
    /\ type marked = type after_p
    /\ name marked = name after_p
    /\ selectors marked
       = match d, selectors after_p with
         | TS, None => None
         | _, _ => selectors rule
         end
    /\ __markedSelectors marked
       = match d, selectors after_p with
         | TS, None => __markedSelectors after_p
         | _, _ => selectors after_p
         end
    /\ _other marked = mark_twin (_other after_p)
    /\ (forall t, _other after_p = Some t ->
                  exists t', _other marked = Some t'
                             /\ __markedSelectors t' = selectors t
                             /\ selectors t' = selectors t
                             /\ nodes t' = nodes t
                             /\ __remove t' = __remove t
                             /\ _other t' = _other t).
Proof.
intros S d predicate rule s. unfold markOnly.
destruct (predicate rule s) as [[v rule1] s1]. cbn [fst snd].
assert (Htwin : forall m : node,
           (forall t, _other m = Some t ->
                      exists t', mark_twin (_other m) = Some t'
                                 /\ __markedSelectors t' = selectors t
                                 /\ selectors t' = selectors t
                                 /\ nodes t' = nodes t
                                 /\ __remove t' = __remove t
                                 /\ _other t' = _other t)).
{ intros m t Ht. rewrite Ht. cbn. eexists. split; [reflexivity|].
  now destruct t. }
destruct d, (is_false v), rule1 as [ty nm [sels|] p0 v0 rb rs ns [o|] fs rm mk];
  cbn; repeat split; try reflexivity;
  intros t Ht; inversion Ht; subst; eexists; (split; [reflexivity|]);
  now destruct t.
Qed.

(** The second pass: [applyMarkedSelectors] on a marked rule puts back the
    selector list that the predicate had left, on the rule and on its twin. *)
Lemma applyMarkedSelectors_after_markOnly {S : Type} (predicate : @iterator S)
      (rule : node) (s : S) :
  let after_p := snd (fst (predicate rule s)) in
  let marked := snd (fst (markOnly JS predicate rule s)) in
  selectors (applyMarkedSelectors marked)
  = match selectors after_p with
    | Some sels => Some sels
    | None => selectors rule
    end
  /\ (forall t, _other after_p = Some t ->
                exists t', _other (applyMarkedSelectors marked) = Some t'
                           /\ selectors t' = selectors t).
Proof.
unfold markOnly. destruct (predicate rule s) as [[v rule1] s1]. cbn [fst snd].
destruct (is_false v), rule1 as [ty nm [sels|] p0 v0 rb rs ns [o|] fs rm mk];
  cbn; (split; [reflexivity|]); intros t Ht; inversion Ht; subst;
  destruct t as [ty' nm' [sels'|] p' v' rb' rs' ns' o' fs' rm' mk'];
  cbn; eexists; split; reflexivity.
Qed.

End MarkOnlyFacts.

(** ** The walks *)

Module WalkFacts.
Import Postcss JsArray Css.

Lemma walk_null {S : Type} (d : dialect) (it : @iterator S) (node : node) (s : S) :
  walkStyleRulesWithReverseMirror d it node Null s
  = without_twin (walkStyleRules d it node s) Null.
Proof.
destruct node. cbn [walkStyleRulesWithReverseMirror]. unfold bind, ret, without_twin.
now destruct (walkStyleRules d it _ s) as [[n s']|].
Qed.

Lemma walk_undefined_ts {S : Type} (it : @iterator S) (node : node) (s : S) :
  walkStyleRulesWithReverseMirror TS it node Undefined s
  = without_twin (walkStyleRules TS it node s) Undefined.
Proof.
destruct node. cbn [walkStyleRulesWithReverseMirror]. unfold bind, ret, without_twin.
now destruct (walkStyleRules TS it _ s) as [[n s']|].
Qed.

Lemma walk_undefined_js {S : Type} (it : @iterator S) (node : node) (s : S) :
  walkStyleRulesWithReverseMirror JS it node Undefined s = TypeError.
Proof. now destruct node. Qed.

Lemma walkStyleRules_eq {S : Type} (d : dialect) (it : @iterator S) (node : node) :
  walkStyleRules d it node
  = match nodes node, d with
    | None, JS => throw
    | None, TS => ret node
    | Some l, _ =>
      (kept <- filter (visit d it) (Some l) ;; ret (set_nodes (Some kept) node))%js
    end.
Proof. destruct node; reflexivity. Qed.

Lemma walkMirror_eq {S : Type} (d : dialect) (it : @iterator S) (node : node) (node2 : ref) :
  walkStyleRulesWithReverseMirror d it node node2
  = match node2, d with
    | Null, _ => (n <- walkStyleRules d it node ;; ret (n, Null))%js
    | Undefined, TS => (n <- walkStyleRules d it node ;; ret (n, Undefined))%js
    | Undefined, JS => throw
    | Obj n2, _ =>
      (ab <- splitFilter (visitMirrored d it) (nodes node) (nodes n2) ;;
       ret (set_nodes (Some (fst ab)) node, Obj (set_nodes (Some (snd ab)) n2)))%js
    end.
Proof. destruct node; reflexivity. Qed.

Lemma height_child (n c : node) (l : list node) :
  nodes n = Some l -> In c l -> height c < height n.
Proof.
intros Hn Hc. destruct n; cbn in Hn; subst. cbn [height nodes].
assert (H : Forall (fun k => k <= list_max (map height l)) (map height l)).
{ apply list_max_le. lia. }
rewrite List.Forall_forall in H.
specialize (H (height c) (in_map height l c Hc)). lia.
Qed.

Lemma descendants_eq (n : node) :
  descendants n
  = match nodes n with
    | None => []
    | Some l => flat_map (fun c => c :: descendants c) l
    end.
Proof. destruct n; reflexivity. Qed.

Lemma descendants_nodes (a b : node) :
  nodes a = nodes b -> descendants a = descendants b.
Proof. intros H. now rewrite (descendants_eq a), (descendants_eq b), H. Qed.

Lemma visitOrder_eq (n : node) :
  visitOrder n
  = match nodes n with
    | None => []
    | Some l =>
      flat_map (fun rule =>
                  (if hasNestedRules rule then visitOrder rule else []) ++ [rule]) l
    end.
Proof. destruct n; reflexivity. Qed.

Section Spied.
Context {S : Type} (d : dialect) (it : @iterator S).

Local Abbreviation visited_ok := (Css.visited_ok d it).
Local Abbreviation walked_ok := (Css.walked_ok d it).
Local Abbreviation visitedMirrored_ok := (Css.visitedMirrored_ok d it).
Local Abbreviation mirrored_ok := (Css.mirrored_ok d it).

Lemma invoke_spy (snap : node) (s : S) (log : list node) :
  invoke (spy it) snap (s, log)
  = Ok ((fst (fst (it snap s)), snd (fst (it snap s))), (snd (it snap s), log ++ [snap])).
Proof. unfold invoke, spy. cbn [fst snd]. now destruct (it snap s) as [[r c'] s']. Qed.

Lemma invoke_plain (snap : node) (s : S) :
  invoke it snap s
  = Ok ((fst (fst (it snap s)), snd (fst (it snap s))), snd (it snap s)).
Proof. unfold invoke. now destruct (it snap s) as [[r c'] s']. Qed.

Lemma hasNestedRules_nodes (c : node) :
  hasNestedRules c = true -> nodes c <> None.
Proof. unfold hasNestedRules. now destruct (nodes c). Qed.

Lemma hasNestedRules_not_keyframes (c : node) :
  hasNestedRules c = true -> is_keyframes_name (name c) = false.
Proof.
unfold hasNestedRules. destruct (nodes c); [|discriminate].
intros H. apply andb_prop in H as [H _]. apply andb_prop in H as [_ H].
now apply negb_true_iff.
Qed.

Lemma below_one (c : node) : below [c] = c :: descendants c.
Proof. unfold below. cbn. now rewrite List.app_nil_r. Qed.

Lemma below_app (l1 l2 : list node) : below (l1 ++ l2) = below l1 ++ below l2.
Proof. apply flat_map_app. Qed.

Lemma keyframes_whole_app (o1 o2 i1 i2 : list node) :
  keyframes_whole o1 i1 -> keyframes_whole o2 i2 ->
  keyframes_whole (o1 ++ o2) (i1 ++ i2).
Proof.
intros H1 H2 k' Hin Hk. apply in_app_iff in Hin as [Hin|Hin].
- destruct (H1 k' Hin Hk) as (k & Hk1 & Hk2). exists k. split; [|assumption].
  apply in_app_iff. now left.
- destruct (H2 k' Hin Hk) as (k & Hk1 & Hk2). exists k. split; [|assumption].
  apply in_app_iff. now right.
Qed.

Lemma keyframes_whole_skip (o i1 i2 : list node) :
  keyframes_whole o i2 -> keyframes_whole o (i1 ++ i2).
Proof.
intros H k' Hin Hk. destruct (H k' Hin Hk) as (k & Hk1 & Hk2).
exists k. split; [|assumption]. apply in_app_iff. now right.
Qed.

(** What the iterator returns for a snapshot of [c], when the iterator
    keeps blocks. *)
Lemma returned_whole (c snap : node) (s : S) :
  keeps_blocks it ->
  name snap = name c ->
  (hasNestedRules c = false -> nodes snap = nodes c) ->
  (hasNestedRules c = true -> keyframes_whole (descendants snap) (descendants c)) ->
  keyframes_whole (below [snd (fst (it snap s))]) (below [c]).
Proof.
intros Hk Hname Hleaf Hnested. rewrite !below_one.
destruct (Hk snap s) as [Hn Hm].
rewrite (descendants_nodes _ snap Hn).
intros k' [<-|Hin] Hkf.
- rewrite Hm, Hname in Hkf. exists c. split; [now left|]. split; [assumption|].
  destruct (hasNestedRules c) eqn:E.
  + apply hasNestedRules_not_keyframes in E. congruence.
  + now rewrite Hn, Hleaf.
- destruct (hasNestedRules c) eqn:E.
  + destruct (Hnested eq_refl k' Hin Hkf) as (k & Hk1 & Hk2).
    exists k. split; [now right | assumption].
  + rewrite (descendants_nodes snap c (Hleaf eq_refl)) in Hin.
    exists k'. split; [now right|]. now split.
Qed.

Lemma visit_from_walk (c : node) :
  (hasNestedRules c = true -> walked_ok c) -> visited_ok c.
Proof.
intros Hw i arr s log. unfold visit, bind.
destruct (hasNestedRules c) eqn:E.
- destruct (Hw eq_refl (hasNestedRules_nodes c E) s log)
    as (kept & s1 & calls & -> & -> & Hcalls & Hkf).
  rewrite invoke_spy, invoke_plain. unfold ret.
  set (snap := set_filterSelectors (set_other None (set_nodes (Some kept) c))).
  eexists _, _, _, (calls ++ [snap]). split; [now rewrite List.app_assoc|].
  split; [reflexivity|]. split.
  + unfold segment. rewrite E. apply Forall2_app; [assumption|].
    constructor; [|constructor]. split; [now destruct c | intros; congruence].
  + intros Hk. apply returned_whole; try assumption.
    * now destruct c.
    * intros; congruence.
    * intros _. rewrite (descendants_eq snap). subst snap.
      replace (nodes _) with (Some kept) by now destruct c.
      now apply Hkf.
- unfold ret. rewrite invoke_spy, invoke_plain.
  set (snap := set_filterSelectors (set_other None c)).
  eexists _, _, _, [snap]. split; [reflexivity|]. split; [reflexivity|]. split.
  + unfold segment. rewrite E. constructor; [|constructor].
    split; now destruct c.
  + intros Hk. apply returned_whole; try assumption.
    * now destruct c.
    * intros _. now destruct c.
    * intros H; congruence.
Qed.

Lemma filter_loop_ok (rest : list node) :
  Forall visited_ok rest ->
  forall done index out s log, exists outs s' calls,
    filter_loop (visit d (spy it)) done rest index out (s, log)
    = Ok (out ++ outs, (s', log ++ calls))
    /\ filter_loop (visit d it) done rest index out s = Ok (out ++ outs, s')
    /\ Forall2 snapshot_of calls (flat_map segment rest)
    /\ (keeps_blocks it -> keyframes_whole (below outs) (below rest)).
Proof.
induction rest as [|c rest IH]; intros Hall done index out s log.
- exists [], s, []. cbn. unfold ret. rewrite !List.app_nil_r.
  split; [reflexivity|]. split; [reflexivity|]. split; [constructor|]. intros _ k' [].
- inversion Hall as [|? ? Hc Hrest]; subst.
  destruct (Hc index (done ++ c :: rest) s log)
    as (keep & c' & s1 & calls1 & Hv & Hp & Hcalls1 & Hkf1).
  cbn [filter_loop]. unfold bind. rewrite Hv, Hp. cbn [fst snd].
  destruct (IH Hrest (done ++ [c']) (Datatypes.S index)
               (if keep then out ++ [c'] else out) s1 (log ++ calls1))
    as (outs & s2 & calls2 & -> & -> & Hcalls2 & Hkf2).
  exists ((if keep then [c'] else []) ++ outs), s2, (calls1 ++ calls2).
  split; [|split; [|split]].
  + destruct keep; now rewrite <- ?List.app_assoc.
  + destruct keep; now rewrite <- ?List.app_assoc.
  + cbn [flat_map]. now apply Forall2_app.
  + intros Hk. change (c :: rest) with ([c] ++ rest).
    rewrite !below_app. apply keyframes_whole_app; [|now apply Hkf2].
    destruct keep; [now apply Hkf1 | intros k' []].
Qed.

Lemma walk_ok : forall h n, height n <= h -> walked_ok n.
Proof.
induction h as [|h IH]; intros n Hh Hn s log.
- destruct (nodes n) as [l|] eqn:E; [|congruence].
  destruct n; cbn in E; subst. cbn in Hh. lia.
- destruct (nodes n) as [l|] eqn:E; [|congruence].
  rewrite !walkStyleRules_eq, E.
  assert (Hl : Forall visited_ok l).
  { apply List.Forall_forall. intros c Hc. apply visit_from_walk. intros _.
    apply IH. pose proof (height_child n c l E Hc). lia. }
  unfold bind, filter.
  destruct (filter_loop_ok l Hl [] 0 [] s log)
    as (outs & s' & calls & -> & -> & Hcalls & Hkf).
  exists outs, s', calls. cbn [app]. split; [now destruct d|].
  split; [now destruct d|].
  rewrite visitOrder_eq, descendants_eq, E. now split.
Qed.

Lemma twin_at_some {St : Type} (l2 : list node) (i : nat) (st : St) :
  twin_at d (Some l2) i st = Ok (nth_error l2 i, st).
Proof. now destruct d. Qed.

Lemma mirrors_eq (n n2 : node) :
  mirrors n n2
  = match nodes n, nodes n2 with
    | Some l, Some l2 =>
      (fix pairwise (l l2 : list node) {struct l} : bool :=
         match l, l2 with
         | [], [] => true
         | c :: rest, c2 :: rest2 =>
           (if hasNestedRules c then mirrors c c2 else true) && pairwise rest rest2
         | _, _ => false
         end) l l2
    | _, _ => false
    end.
Proof. destruct n; reflexivity. Qed.

(** What [mirrors] says about two nodes. *)
Lemma mirrors_inv (n n2 : node) :
  mirrors n n2 = true ->
  exists l l2,
    nodes n = Some l /\ nodes n2 = Some l2
    /\ Forall2 (fun c c2 => hasNestedRules c = true -> mirrors c c2 = true) l l2.
Proof.
rewrite mirrors_eq.
destruct (nodes n) as [l|]; [|discriminate].
destruct (nodes n2) as [l2|]; [|discriminate].
intros H. exists l, l2. split; [reflexivity|]. split; [reflexivity|].
revert l2 H. induction l as [|c l IH]; intros [|c2 l2] H; try discriminate.
- constructor.
- apply andb_prop in H as [Hc Hrest]. constructor; [|now apply IH].
  intros Hn. now rewrite Hn in Hc.
Qed.

Lemma visitMirrored_from_walk (l2 : list node) (c c2 : node) (i : nat) :
  nth_error l2 i = Some c2 ->
  (hasNestedRules c = true -> mirrors c c2 = true) ->
  (hasNestedRules c = true -> mirrored_ok c) -> visitedMirrored_ok l2 c i.
Proof.
intros Hi Hm Hw arr s log. unfold visitMirrored, bind.
rewrite !twin_at_some, Hi. cbn [ref_of].
destruct (hasNestedRules c) eqn:E.
- destruct (Hw eq_refl c2 (Hm eq_refl) s log)
    as (aOut & bOut & s1 & calls & -> & -> & Hcalls & Hkf).
  cbn [fst snd as_option]. rewrite invoke_spy, invoke_plain. unfold ret.
  set (snap := set_filterSelectors
                 (set_other (Some (set_nodes (Some bOut) c2))
                            (set_nodes (Some aOut) c))).
  eexists _, _, _, (calls ++ [snap]). split; [now rewrite List.app_assoc|].
  split; [reflexivity|]. split.
  + unfold segment. rewrite E. apply Forall2_app; [assumption|].
    constructor; [|constructor]. split; [now destruct c | intros; congruence].
  + intros Hk. apply returned_whole; try assumption.
    * now destruct c.
    * intros; congruence.
    * intros _. rewrite (descendants_eq snap). subst snap.
      replace (nodes _) with (Some aOut) by now destruct c.
      now apply Hkf.
- unfold ret. cbn [fst snd as_option]. rewrite invoke_spy, invoke_plain.
  set (snap := set_filterSelectors (set_other (Some c2) c)).
  eexists _, _, _, [snap]. split; [reflexivity|]. split; [reflexivity|]. split.
  + unfold segment. rewrite E. constructor; [|constructor].
    split; now destruct c.
  + intros Hk. apply returned_whole; try assumption.
    * now destruct c.
    * intros _. now destruct c.
    * intros H; congruence.
Qed.

Lemma splitFilter_loop_ok (l2 : list node) :
  forall rest rest2 pre2,
    l2 = pre2 ++ rest2 ->
    Forall2 (fun c c2 =>
               forall i, nth_error l2 i = Some c2 -> visitedMirrored_ok l2 c i)
            rest rest2 ->
    forall done aOut bOut s log, exists kept dropped s' calls,
      splitFilter_loop (visitMirrored d (spy it)) (Some l2) done rest (length pre2)
                       aOut bOut (s, log)
      = Ok ((aOut ++ kept, bOut ++ dropped), (s', log ++ calls))
      /\ splitFilter_loop (visitMirrored d it) (Some l2) done rest (length pre2)
                          aOut bOut s
         = Ok ((aOut ++ kept, bOut ++ dropped), s')
      /\ Forall2 snapshot_of calls (flat_map segment rest)
      /\ (keeps_blocks it ->
          keyframes_whole (below kept) (below rest)
          /\ keyframes_whole (below dropped) (below rest)).
Proof.
induction rest as [|c rest IH]; intros rest2 pre2 Hl Hall done aOut bOut s log.
- exists [], [], s, []. cbn. unfold ret. rewrite !List.app_nil_r.
  split; [reflexivity|]. split; [reflexivity|]. split; [constructor|].
  intros _. split; intros k' [].
- inversion Hall as [|? c2 ? rest2' Hc Hrest]; subst.
  assert (Hc2 : nth_error (pre2 ++ c2 :: rest2') (length pre2) = Some c2).
  { rewrite nth_error_app2, Nat.sub_diag; [reflexivity | lia]. }
  destruct (Hc _ Hc2 (done ++ c :: rest) s log)
    as (keep & c' & s1 & calls1 & Hv & Hp & Hcalls1 & Hkf1).
  cbn [splitFilter_loop]. unfold bind. rewrite Hv, Hp. cbn [fst snd].
  assert (Hl' : pre2 ++ c2 :: rest2' = (pre2 ++ [c2]) ++ rest2')
    by now rewrite <- List.app_assoc.
  assert (Hlen : Datatypes.S (length pre2) = length (pre2 ++ [c2])).
  { rewrite List.length_app. cbn. lia. }
  rewrite Hlen.
  destruct keep.
  + destruct (IH rest2' (pre2 ++ [c2]) Hl' Hrest (done ++ [c']) (aOut ++ [c']) bOut
                 s1 (log ++ calls1))
      as (kept & dropped & s2 & calls2 & -> & -> & Hcalls2 & Hkf2).
    exists (c' :: kept), dropped, s2, (calls1 ++ calls2).
    split; [now rewrite <- !List.app_assoc|].
    split; [now rewrite <- !List.app_assoc|].
    split; [cbn [flat_map]; now apply Forall2_app|].
    intros Hk. destruct (Hkf2 Hk) as [Ha Hb]. split.
    * change (c' :: kept) with ([c'] ++ kept). change (c :: rest) with ([c] ++ rest).
      rewrite !below_app. apply keyframes_whole_app; [now apply Hkf1 | assumption].
    * change (c :: rest) with ([c] ++ rest). rewrite below_app.
      now apply keyframes_whole_skip.
  + destruct (IH rest2' (pre2 ++ [c2]) Hl' Hrest (done ++ [c']) aOut (bOut ++ [c'])
                 s1 (log ++ calls1))
      as (kept & dropped & s2 & calls2 & -> & -> & Hcalls2 & Hkf2).
    exists kept, (c' :: dropped), s2, (calls1 ++ calls2).
    split; [now rewrite <- !List.app_assoc|].
    split; [now rewrite <- !List.app_assoc|].
    split; [cbn [flat_map]; now apply Forall2_app|].
    intros Hk. destruct (Hkf2 Hk) as [Ha Hb]. split.
    * change (c :: rest) with ([c] ++ rest). rewrite below_app.
      now apply keyframes_whole_skip.
    * change (c' :: dropped) with ([c'] ++ dropped).
      change (c :: rest) with ([c] ++ rest).
      rewrite !below_app. apply keyframes_whole_app; [now apply Hkf1 | assumption].
Qed.

Lemma mirror_ok : forall h n, height n <= h -> mirrored_ok n.
Proof.
induction h as [|h IH]; intros n Hh n2 Hm s log;
  destruct (mirrors_inv n n2 Hm) as (l & l2 & E & E2 & Hpairs).
- destruct n; cbn in E; subst. cbn in Hh. lia.
- rewrite !walkMirror_eq, E, E2.
  assert (Hl : forall whole,
             Forall2 (fun c c2 =>
                        forall i, nth_error whole i = Some c2 ->
                                  visitedMirrored_ok whole c i) l l2).
  { intros whole.
    assert (Hin : forall c, In c l -> height c <= h).
    { intros c Hc. pose proof (height_child n c l E Hc). lia. }
    clear E E2. induction Hpairs as [|c c2 l l2 Hc _ IHp]; constructor.
    - intros i Hi. apply (visitMirrored_from_walk _ c c2 i Hi Hc). intros _.
      apply IH, Hin. now left.
    - apply IHp. intros c0 Hc0. apply Hin. now right. }
  destruct (splitFilter_loop_ok l2 l l2 [] eq_refl (Hl l2) [] [] [] s log)
    as (kept & dropped & s' & calls & Hrun & Hplain & Hcalls & Hkf).
  cbn [length app] in Hrun, Hplain.
  exists kept, dropped, s', calls. split; [|split].
  + unfold bind, splitFilter. destruct d; now rewrite Hrun.
  + unfold bind, splitFilter. destruct d; now rewrite Hplain.
  + rewrite visitOrder_eq, descendants_eq, E. now split.
Qed.

End Spied.

Lemma in_segment_self (c : node) : In c (segment c).
Proof. unfold segment. apply in_app_iff. right. now left. Qed.

Lemma child_in_order (n : node) (l : list node) (x : node) :
  nodes n = Some l -> In x l -> In x (visitOrder n).
Proof.
intros Hn Hx. rewrite visitOrder_eq, Hn. apply in_flat_map.
exists x. split; [assumption | apply in_segment_self].
Qed.

(** The order of a tree, around one occurrence of a reached container:
    the container comes right after the order of its own subtree. *)
Lemma order_around : forall h root c,
  height root <= h ->
  In c (visitOrder root) -> hasNestedRules c = true ->
  exists l1 l3, visitOrder root = l1 ++ visitOrder c ++ c :: l3.
Proof.
induction h as [|h IH]; intros root c Hh Hin Hc.
- rewrite visitOrder_eq in Hin. destruct (nodes root) as [l|] eqn:E; [|destruct Hin].
  destruct root; cbn in E; subst. cbn in Hh. lia.
- rewrite visitOrder_eq in Hin |- *.
  destruct (nodes root) as [l|] eqn:E; [|destruct Hin].
  apply in_flat_map in Hin as (y & Hy & Hin).
  apply in_split in Hy as (la & lb & ->).
  rewrite flat_map_app. cbn [flat_map].
  unfold segment in Hin. apply in_app_iff in Hin as [Hin|[<-|[]]].
  + destruct (hasNestedRules y) eqn:Ey; [|destruct Hin].
    assert (Hy : height y <= h).
    { pose proof (height_child root y _ E (in_elt y la lb)). lia. }
    destruct (IH y c Hy Hin Hc) as (l1 & l3 & Hord).
    exists (flat_map (fun rule => (if hasNestedRules rule then visitOrder rule else [])
                                   ++ [rule]) la ++ l1),
           (l3 ++ [y] ++ flat_map (fun rule =>
                                     (if hasNestedRules rule then visitOrder rule else [])
                                     ++ [rule]) lb).
    rewrite Hord. now rewrite <- !List.app_assoc.
  + rewrite Hc.
    exists (flat_map (fun rule => (if hasNestedRules rule then visitOrder rule else [])
                                   ++ [rule]) la),
           (flat_map (fun rule => (if hasNestedRules rule then visitOrder rule else [])
                                   ++ [rule]) lb).
    now rewrite <- !List.app_assoc.
Qed.

Lemma reached_in_order (root c : node) :
  reached root c -> In c (visitOrder root).
Proof.
induction 1 as [l c Hn Hc | p l c Hp IH Hnest Hn Hc].
- now apply (child_in_order root l).
- destruct (order_around _ root p (le_n _) IH Hnest) as (l1 & l3 & ->).
  apply in_app_iff. right. apply in_app_iff. left.
  now apply (child_in_order p l).
Qed.

Lemma snapshots_children_first (root : node) (calls : list node) :
  Forall2 snapshot_of calls (visitOrder root) -> children_first root calls.
Proof.
intros Hcalls c l x Hreach Hnest Hn Hx.
destruct (order_around _ root c (le_n _) (reached_in_order _ _ Hreach) Hnest)
  as (l1 & l3 & Hord).
pose proof (child_in_order c l x Hn Hx) as Hxin.
apply in_split in Hxin as (v1 & v2 & Hv).
rewrite Hord, Hv in Hcalls.
apply Forall2_app_inv_r in Hcalls as (k1 & k2 & _ & Hcalls & ->).
apply Forall2_app_inv_r in Hcalls as (k3 & k4 & Hcalls & Hc4 & ->).
apply Forall2_app_inv_r in Hcalls as (k5 & k6 & _ & Hcalls & ->).
apply Forall2_cons_inv_r in Hcalls as (sx & k7 & Hsx & _ & ->).
apply Forall2_cons_inv_r in Hc4 as (sc & k8 & Hsc & _ & ->).
exists (k1 ++ k5), sx, k7, sc, k8. split; [|now split].
now rewrite <- !List.app_assoc.
Qed.

Lemma keyframes_guard (rule : node) :
  is_keyframes_name (name rule) = true -> hasNestedRules rule = false.
Proof.
intros Hk. destruct (hasNestedRules rule) eqn:E; [|reflexivity].
apply hasNestedRules_not_keyframes in E. congruence.
Qed.

Lemma snapshots_handed_whole (calls order : list node) :
  Forall2 snapshot_of calls order -> handed_whole calls order.
Proof.
unfold handed_whole. induction 1 as [|snap orig calls order [Hs Hn] _ IH];
  constructor; [|assumption].
split; [assumption|]. intros Hk. now apply Hn, keyframes_guard.
Qed.

(** The single-tree walk of a tree whose root has a list of children. *)
Lemma walkStyleRules_total {S : Type} (d : dialect) (it : @iterator S)
      (root : node) (s : S) :
  nodes root <> None ->
  exists root' s' calls,
    walkStyleRules d (spy it) root (s, []) = Ok (root', (s', calls))
    /\ walkStyleRules d it root s = Ok (root', s')
    /\ Forall2 snapshot_of calls (visitOrder root)
    /\ (keeps_blocks it -> keyframes_whole (descendants root') (descendants root)).
Proof.
intros Hn.
destruct (walk_ok d it _ root (le_n _) Hn s [])
  as (kept & s' & calls & Hspy & Hplain & Hcalls & Hkf).
exists (set_nodes (Some kept) root), s', calls.
split; [exact Hspy|]. split; [exact Hplain|]. split; [exact Hcalls|].
intros Hk. rewrite (descendants_eq (set_nodes _ _)).
replace (nodes (set_nodes (Some kept) root)) with (Some kept) by now destruct root.
now apply Hkf.
Qed.

(** The mirrored walk of a tree and a twin that mirrors it. *)
Lemma walkMirrored_total {S : Type} (d : dialect) (it : @iterator S)
      (root twin : node) (s : S) :
  mirrors root twin = true ->
  exists root' twin' s' calls,
    walkStyleRulesWithReverseMirror d (spy it) root (Obj twin) (s, [])
    = Ok ((root', Obj twin'), (s', calls))
    /\ walkStyleRulesWithReverseMirror d it root (Obj twin) s
       = Ok ((root', Obj twin'), s')
    /\ Forall2 snapshot_of calls (visitOrder root)
    /\ (keeps_blocks it ->
        keyframes_whole (descendants root') (descendants root)
        /\ keyframes_whole (descendants twin') (descendants root)).
Proof.
intros Hm.
destruct (mirror_ok d it _ root (le_n _) twin Hm s [])
  as (aOut & bOut & s' & calls & Hspy & Hplain & Hcalls & Hkf).
exists (set_nodes (Some aOut) root), (set_nodes (Some bOut) twin), s', calls.
split; [exact Hspy|]. split; [exact Hplain|]. split; [exact Hcalls|].
intros Hk. rewrite !(descendants_eq (set_nodes _ _)).
replace (nodes (set_nodes (Some aOut) root)) with (Some aOut) by now destruct root.
replace (nodes (set_nodes (Some bOut) twin)) with (Some bOut) by now destruct twin.
now apply Hkf.
Qed.

(** The order of the invocations on the sample sheet: the rule and the
    keyframes block inside the media block come before the media block,
    and no step of a keyframes block is visited. *)
Example sample_invocations :
  exists root' calls,
    walkStyleRules JS (spy Samples.drop_to) Samples.webkit_marked (tt, [])
    = Ok (root', (tt, calls))
    /\ map (fun n => (name n, selectors n)) calls
       = [(None, Some ["h1"]); (None, Some ["to"]); (Some "keyframes", None);
          (Some "media", None); (Some "-webkit-keyframes", None)].
Proof. eexists _, _. split; [vm_compute; reflexivity | reflexivity]. Qed.

Lemma hasNestedRules_container (n : node) :
  hasNestedRules n = true <-> container n /\ ~ keyframes_block n.
Proof.
unfold hasNestedRules, container, keyframes_block, is_keyframes_name. split.
- destruct (nodes n) as [l|]; [|discriminate]. intros H.
  apply andb_prop in H as [H Hex]. apply andb_prop in H as [_ Hname].
  apply existsb_exists in Hex as (x & Hx & Hty). split.
  + exists l, x. split; [reflexivity|]. split; [assumption|].
    apply orb_prop in Hty as [Hty|Hty]; apply String.eqb_eq in Hty; auto.
  + apply negb_true_iff in Hname. destruct (name n) as [nm|]; [|intros [H|H]; discriminate].
    apply orb_false_iff in Hname as [H1 H2].
    apply String.eqb_neq in H1, H2. intros [H|H]; congruence.
- intros [(l & x & -> & Hx & Hty) Hname].
  assert (Hlen : (length l =? 0) = false) by (destruct l; [destruct Hx | reflexivity]).
  rewrite Hlen. cbn [negb andb]. apply andb_true_intro. split.
  + apply negb_true_iff. destruct (name n) as [nm|]; [|reflexivity].
    apply orb_false_iff. split; apply String.eqb_neq; intros ->; apply Hname; auto.
  + apply existsb_exists. exists x. split; [assumption|].
    destruct Hty as [-> | ->]; reflexivity.
Qed.

Lemma comes_to_reached (root c : node) :
  comes_to (fun n => container n /\ ~ keyframes_block n) root c -> reached root c.
Proof.
induction 1 as [l c Hn Hc | p l c _ IH Hd Hn Hc].
- now apply (reached_child root l).
- apply (reached_nested root p l); [assumption | | assumption | assumption].
  now apply hasNestedRules_container.
Qed.

Lemma children_first_descends (root : node) (calls : list node) :
  children_first root calls ->
  descends_first (fun n => container n /\ ~ keyframes_block n) root calls.
Proof.
intros H c l x Hc Hd Hn Hx.
destruct (H c l x (comes_to_reached _ _ Hc)
            (proj2 (hasNestedRules_container c) Hd) Hn Hx)
  as (l1 & sx & l2 & sc & l3 & -> & [Hsx _] & [Hsc _]).
now exists l1, sx, l2, sc, l3.
Qed.

(** C7. Both walks return for every tree whose root has a list of
    children (the mirrored walk for every twin that mirrors the tree), and
    they descend first into every container with nested rules, a node with
    a rule or an at-rule among its children, that is not a keyframes block
    handed over as a whole (an at-rule named keyframes or
    -webkit-keyframes): in the sequence of iterator invocations, the
    iterator is invoked on every child of such a container before it is
    invoked on the container itself. *)
Theorem walks_visit_children_first :
  forall (S : Type) (d : dialect) (it : @iterator S) (root : node) (s : S),
    nodes root <> None ->
    (exists root' s' calls,
        walkStyleRules d (spy it) root (s, []) = Ok (root', (s', calls))
        /\ walkStyleRules d it root s = Ok (root', s')
        /\ descends_first (fun n => container n /\ ~ keyframes_block n) root calls)
    /\ (forall twin,
           mirrors root twin = true ->
           exists root' twin' s' calls,
             walkStyleRulesWithReverseMirror d (spy it) root (Obj twin) (s, [])
             = Ok ((root', twin'), (s', calls))
             /\ walkStyleRulesWithReverseMirror d it root (Obj twin) s
                = Ok ((root', twin'), s')
             /\ descends_first (fun n => container n /\ ~ keyframes_block n)
                               root calls).
Proof.
intros S d it root s Hn. split.
- destruct (walkStyleRules_total d it root s Hn)
    as (root' & s' & calls & Hspy & Hplain & Hcalls & _).
  exists root', s', calls. split; [exact Hspy|]. split; [exact Hplain|].
  now apply children_first_descends, snapshots_children_first.
- intros twin Hm.
  destruct (walkMirrored_total d it root twin s Hm)
    as (root' & twin' & s' & calls & Hspy & Hplain & Hcalls & _).
  exists root', (Obj twin'), s', calls. split; [exact Hspy|]. split; [exact Hplain|].
  now apply children_first_descends, snapshots_children_first.
Qed.

Lemma walks_visit_children_first_witness :
  nodes Samples.webkit_marked <> None
  /\ mirrors Samples.webkit_marked Samples.webkit_twin = true
  /\ (exists root' s' calls,
         walkStyleRules JS (spy Samples.drop_to) Samples.webkit_marked (tt, [])
         = Ok (root', (s', calls))
         /\ walkStyleRules JS Samples.drop_to Samples.webkit_marked tt = Ok (root', s')
         /\ descends_first (fun n => container n /\ ~ keyframes_block n)
                           Samples.webkit_marked calls)
  /\ (exists root' twin' s' calls,
         walkStyleRulesWithReverseMirror JS (spy Samples.drop_to) Samples.webkit_marked
                                         (Obj Samples.webkit_twin) (tt, [])
         = Ok ((root', twin'), (s', calls))
         /\ walkStyleRulesWithReverseMirror JS Samples.drop_to Samples.webkit_marked
                                           (Obj Samples.webkit_twin) tt
            = Ok ((root', twin'), s')
         /\ descends_first (fun n => container n /\ ~ keyframes_block n)
                           Samples.webkit_marked calls).
Proof.
assert (H : nodes Samples.webkit_marked <> None) by discriminate.
assert (Hm : mirrors Samples.webkit_marked Samples.webkit_twin = true) by reflexivity.
split; [exact H|]. split; [exact Hm|].
destruct (walks_visit_children_first unit JS Samples.drop_to Samples.webkit_marked tt H)
  as [Hsingle Hmirror].
split; [exact Hsingle | exact (Hmirror Samples.webkit_twin Hm)].
Defined.

(** A block named [-moz-keyframes] is walked like any container: its
    steps are handed to the iterator one by one, and an iterator that
    rejects the step [to] leaves a block with the step [from] alone. *)
Lemma moz_keyframes_split :
  hasNestedRules (Samples.fade "-moz-keyframes") = true
  /\ (exists root' block,
         walkStyleRules JS Samples.drop_to Samples.moz_sheet tt = Ok (root', tt)
         /\ nodes root' = Some [block]
         /\ name block = Some "-moz-keyframes"
         /\ option_map (map selectors) (nodes block) = Some [Some ["from"]]
         /\ option_map (map selectors) (nodes (Samples.fade "-moz-keyframes"))
            = Some [Some ["from"]; Some ["to"]])
  /\ ~ prefixed_keyframes_atomic.
Proof.
split; [reflexivity|]. split.
- eexists _, _. split; [vm_compute; reflexivity|].
  split; [reflexivity|]. split; [reflexivity|]. split; reflexivity.
- intros Hclaim.
  specialize (Hclaim (Samples.fade "-moz-keyframes") "moz" (or_intror eq_refl)).
  discriminate Hclaim.
Qed.

(** C4, amended. An at-rule named [keyframes] or [-webkit-keyframes] is
    never descended into.  In both walks such a block is handed to the
    iterator with its children exactly as in the input tree, and when the
    iterator leaves children and names alone, every such block of either
    output tree has the full list of steps of a block of the input. *)
Theorem keyframes_blocks_atomic :
  forall (S : Type) (d : dialect) (it : @iterator S) (root : node) (s : S),
    nodes root <> None ->
    (forall rule, name rule = Some "keyframes" \/ name rule = Some "-webkit-keyframes" ->
                  hasNestedRules rule = false)
    /\ (exists root' s' calls,
           walkStyleRules d (spy it) root (s, []) = Ok (root', (s', calls))
           /\ walkStyleRules d it root s = Ok (root', s')
           /\ handed_whole calls (visitOrder root)
           /\ (keeps_blocks it ->
               keyframes_whole (descendants root') (descendants root)))
    /\ (forall twin,
           mirrors root twin = true ->
           exists root' twin' s' calls,
             walkStyleRulesWithReverseMirror d (spy it) root (Obj twin) (s, [])
             = Ok ((root', Obj twin'), (s', calls))
             /\ walkStyleRulesWithReverseMirror d it root (Obj twin) s
                = Ok ((root', Obj twin'), s')
             /\ handed_whole calls (visitOrder root)
             /\ (keeps_blocks it ->
                 keyframes_whole (descendants root') (descendants root)
                 /\ keyframes_whole (descendants twin') (descendants root))).
Proof.
intros S d it root s Hn. split; [|split].
- intros rule [Hk|Hk]; apply keyframes_guard; now rewrite Hk.
- destruct (walkStyleRules_total d it root s Hn)
    as (root' & s' & calls & Hspy & Hplain & Hcalls & Hkf).
  exists root', s', calls. split; [exact Hspy|]. split; [exact Hplain|].
  split; [now apply snapshots_handed_whole | exact Hkf].
- intros twin Hm.
  destruct (walkMirrored_total d it root twin s Hm)
    as (root' & twin' & s' & calls & Hspy & Hplain & Hcalls & Hkf).
  exists root', twin', s', calls. split; [exact Hspy|]. split; [exact Hplain|].
  split; [now apply snapshots_handed_whole | exact Hkf].
Qed.

Lemma drop_to_keeps_blocks : keeps_blocks Samples.drop_to.
Proof.
intros n s. unfold Samples.drop_to.
destruct (selectors n) as [[|sel [|? ?]]|]; try (split; reflexivity).
destruct (String.eqb sel "to"); split; reflexivity.
Defined.

Lemma keyframes_blocks_atomic_witness :
  nodes Samples.webkit_marked <> None
  /\ mirrors Samples.webkit_marked Samples.webkit_twin = true
  /\ keeps_blocks Samples.drop_to
  /\ exists root' twin' s',
      walkStyleRulesWithReverseMirror JS Samples.drop_to Samples.webkit_marked
                                      (Obj Samples.webkit_twin) tt
      = Ok ((root', Obj twin'), s')
      /\ keyframes_whole (descendants root') (descendants Samples.webkit_marked)
      /\ keyframes_whole (descendants twin') (descendants Samples.webkit_marked).
Proof.
assert (H : nodes Samples.webkit_marked <> None) by discriminate.
assert (Hm : mirrors Samples.webkit_marked Samples.webkit_twin = true) by reflexivity.
split; [exact H|]. split; [exact Hm|]. split; [exact drop_to_keeps_blocks|].
destruct (keyframes_blocks_atomic unit JS Samples.drop_to Samples.webkit_marked tt H)
  as (_ & _ & Hmirror).
destruct (Hmirror Samples.webkit_twin Hm)
  as (root' & twin' & s' & calls & _ & Hplain & _ & Hkf).
exists root', twin', s'. split; [exact Hplain|].
exact (Hkf drop_to_keeps_blocks).
Defined.

(** With [undefined] as second tree [css.js] throws where the single-tree
    walk returns. *)
Lemma reverseMirror_undefined_throws :
  walkStyleRulesWithReverseMirror JS Samples.keep_all Samples.moz_sheet Undefined tt
  = TypeError
  /\ (exists root',
         walkStyleRules JS Samples.keep_all Samples.moz_sheet tt = Ok (root', tt))
  /\ ~ no_twin_equivalence.
Proof.
split; [reflexivity|]. split; [eexists; vm_compute; reflexivity|].
intros Hclaim.
specialize (Hclaim JS Samples.keep_all Samples.moz_sheet Undefined (or_intror eq_refl)).
vm_compute in Hclaim. discriminate Hclaim.
Qed.

(** C10, amended. With [null] as second tree the mirrored walk is the
    single-tree walk, in both editions; with [undefined] as second tree it
    is so in [css.ts]. *)
Theorem reverseMirror_without_twin :
  (forall (S : Type) (d : dialect) (it : @iterator S) (node : node) (s : S),
      walkStyleRulesWithReverseMirror d it node Null s
      = without_twin (walkStyleRules d it node s) Null)
  /\ (forall (S : Type) (it : @iterator S) (node : node) (s : S),
         walkStyleRulesWithReverseMirror TS it node Undefined s
         = without_twin (walkStyleRules TS it node s) Undefined).
Proof.
split; [intros; apply walk_null|].
intros; apply walk_undefined_ts.
Qed.

End WalkFacts.

(** ** Stylesheet acquisition *)

Module AcquisitionFacts.
Import Acquisition.

Lemma launch_from_index (now : nat) (refs : list reference) :
  forall i, map index (launch_from now i refs) = seq i (length refs).
Proof.
induction refs as [|r refs IH]; intros i; cbn; [reflexivity|]. now rewrite IH.
Qed.

Lemma launch_from_started (now : nat) (refs : list reference) :
  forall i, Forall (fun r => launched_at r = now) (launch_from now i refs).
Proof.
induction refs as [|r refs IH]; intros i; cbn; constructor; [reflexivity | apply IH].
Qed.

Lemma launch_from_nth (now : nat) (refs : list reference) :
  forall i j ref,
    nth_error refs j = Some ref ->
    In {| index := i + j; launched_at := now; due := now + latency ref;
          payload := outcome ref |} (launch_from now i refs).
Proof.
induction refs as [|r refs IH]; intros i j ref Hj; [now destruct j|].
destruct j as [|j]; cbn in Hj.
- inversion Hj; subst. rewrite Nat.add_0_r. now left.
- right. replace (i + Datatypes.S j) with (Datatypes.S i + j) by lia. now apply IH.
Qed.

Lemma launch_from_due (now : nat) (refs : list reference) :
  forall i, map due (launch_from now i refs) = map (fun r => now + latency r) refs.
Proof.
induction refs as [|r refs IH]; intros i; cbn; [reflexivity|]. now rewrite IH.
Qed.

Lemma insert_by_due_perm (r : retrieval) (l : list retrieval) :
  Permutation (insert_by_due r l) (r :: l).
Proof.
induction l as [|x l IH]; cbn; [reflexivity|].
destruct (due r <=? due x); [reflexivity|].
rewrite IH. apply perm_swap.
Qed.

Lemma completion_order_perm (l : list retrieval) :
  Permutation (completion_order l) l.
Proof.
induction l as [|x l IH]; cbn; [reflexivity|].
rewrite insert_by_due_perm. now constructor.
Qed.

Lemma settle_all_other (L : list retrieval) :
  forall st i, ~ In i (map index L) ->
               slots (fold_left settle L st) !! i = slots st !! i.
Proof.
induction L as [|x L IH]; intros st i Hi; cbn; [reflexivity|].
rewrite IH by (intros H; apply Hi; now right).
cbn. apply lookup_insert_ne. intros E. apply Hi. now left.
Qed.

Lemma settle_all_slot (L : list retrieval) :
  forall st, List.NoDup (map index L) ->
             forall r, In r L ->
                       slots (fold_left settle L st) !! index r = Some (payload r).
Proof.
induction L as [|x L IH]; intros st Hnd r Hr; [destruct Hr|].
cbn [map] in Hnd. apply List.NoDup_cons_iff in Hnd as [Hx Hnd].
destruct Hr as [->|Hr]; cbn [fold_left].
- rewrite settle_all_other by assumption. cbn. apply lookup_insert_eq.
- now apply IH.
Qed.

Lemma settle_all_settled (L : list retrieval) :
  forall st, settled (fold_left settle L st) = settled st ++ map index L.
Proof.
induction L as [|x L IH]; intros st; cbn; [now rewrite List.app_nil_r|].
rewrite IH. cbn. now rewrite <- List.app_assoc.
Qed.

Lemma settle_all_clock (L : list retrieval) :
  forall st, clock (fold_left settle L st) = Nat.max (clock st) (list_max (map due L)).
Proof.
induction L as [|x L IH]; intros st; cbn [fold_left map list_max fold_right].
- now rewrite Nat.max_0_r.
- rewrite IH. cbn. fold (list_max (map due L)). lia.
Qed.

Lemma list_max_perm (l1 l2 : list nat) :
  Permutation l1 l2 -> list_max l1 = list_max l2.
Proof.
induction 1 as [|x l1 l2 _ IH|x y l|l1 l2 l3 _ IH1 _ IH2]; cbn.
- reflexivity.
- fold (list_max l1) (list_max l2). now rewrite IH.
- fold (list_max l). lia.
- congruence.
Qed.

Lemma assemble_in_order (sl : gmap nat (option string)) (refs : list reference) :
  forall i,
    (forall j ref, nth_error refs j = Some ref -> sl !! (i + j) = Some (outcome ref)) ->
    assemble_from i (length refs) sl = in_document_order i refs.
Proof.
induction refs as [|r refs IH]; intros i Hsl; cbn; [reflexivity|].
pose proof (Hsl 0 r eq_refl) as H0. rewrite Nat.add_0_r in H0. rewrite H0.
assert (Hrest : assemble_from (Datatypes.S i) (length refs) sl
                = in_document_order (Datatypes.S i) refs).
{ apply IH. intros j ref Hj. specialize (Hsl (Datatypes.S j) ref Hj).
  now replace (Datatypes.S i + j) with (i + Datatypes.S j) by lia. }
destruct (outcome r); now rewrite Hrest.
Qed.

Lemma document_order_outcomes (refs1 refs2 : list reference) :
  map outcome refs1 = map outcome refs2 ->
  forall i, in_document_order i refs1 = in_document_order i refs2.
Proof.
revert refs2. induction refs1 as [|r1 refs1 IH]; intros [|r2 refs2] H i;
  try discriminate; [reflexivity|].
cbn in H. inversion H as [[Ho Hrest]]. cbn. rewrite Ho.
destruct (outcome r2); now rewrite (IH _ Hrest).
Qed.

(** The latency test of the test suite: the second sheet settles first,
    the first sheet last, and the sheets are inlined first, second, third. *)
Example three_sheets_in_order :
  acquire Samples.three_sheets
  = ([(0, "h1{color:red}"); (1, "h2{color:blue}"); (2, "h3{color:green}")],
     50, [1; 2; 0]).
Proof. reflexivity. Qed.

(** C5. In the pipeline of the design document every retrieval is started
    at time 0, whatever the latencies of the others (so everything has
    settled after the longest latency, not after their sum), and the
    inlined sheets are those of the references in document order: the
    result depends on what the retrievals yield, not on how long each
    takes or on the order in which they complete. *)
Theorem acquisition_concurrent_and_ordered :
  forall refs : list reference,
    Forall (fun r => launched_at r = 0) (launch_all 0 refs)
    /\ fst (fst (acquire refs)) = in_document_order 0 refs
    /\ snd (fst (acquire refs)) = list_max (map latency refs)
    /\ Permutation (snd (acquire refs)) (seq 0 (length refs))
    /\ (forall refs', map outcome refs' = map outcome refs ->
                      fst (fst (acquire refs')) = fst (fst (acquire refs))).
Proof.
assert (Hdoc : forall refs, fst (fst (acquire refs)) = in_document_order 0 refs).
{ intros refs. unfold acquire, await_all. cbn [fst snd].
  apply assemble_in_order. intros j ref Hj.
  pose proof (launch_from_nth 0 refs 0 j ref Hj) as Hin.
  apply (Permutation_in _ (Permutation_sym (completion_order_perm _))) in Hin.
  assert (Hnd : List.NoDup (map index (completion_order (launch_all 0 refs)))).
  { apply (Permutation_NoDup
             (Permutation_map index (Permutation_sym (completion_order_perm _)))).
    unfold launch_all. rewrite launch_from_index. apply List.seq_NoDup. }
  exact (settle_all_slot _ {| clock := 0; slots := ∅; settled := [] |} Hnd _ Hin). }
intros refs. split; [apply launch_from_started|]. split; [apply Hdoc|].
split; [|split].
- unfold acquire, await_all. cbn [fst snd]. rewrite settle_all_clock. cbn [clock].
  rewrite (list_max_perm _ _ (Permutation_map due (completion_order_perm _))).
  unfold launch_all. rewrite launch_from_due. reflexivity.
- unfold acquire, await_all. cbn [fst snd]. rewrite settle_all_settled. cbn [settled app].
  rewrite (Permutation_map index (completion_order_perm _)).
  unfold launch_all. now rewrite launch_from_index.
- intros refs' Ho. rewrite !Hdoc. now apply document_order_outcomes.
Qed.

End AcquisitionFacts.

Module SerializerMore.
Import Postcss JsString Serializer SerializerSpec SerializerFacts.

Lemma builder_ts_total (opts : options) (cssStr : string) (c : call) :
  exists out, builder TS opts cssStr c = Ok out.
Proof.
unfold builder.
destruct (closesStyle c); [eauto|].
destruct (negb (compress opts)); [eauto|].
destruct (node_type_is (c_node c) "comment"); [eauto|].
destruct (node_type_is (c_node c) "decl"); [destruct (c_node c); eauto|].
destruct (type_is (c_type c) "start").
- destruct (c_node c) as [nd|]; [|eauto].
  destruct (if String.eqb (type nd) "rule" then selectors nd else None); eauto.
- eauto.
Qed.

Lemma builder_js_cases (opts : options) (cssStr : string) (c : call) :
  (compress opts && start_without_node c = true
   /\ builder JS opts cssStr c = TypeError)
  \/ (compress opts && start_without_node c = false
      /\ builder JS opts cssStr c = builder TS opts cssStr c).
Proof.
unfold builder, start_without_node, closesStyle, node_type_is.
destruct (c_node c) as [nd|]; cbn.
- right. split; [now rewrite andb_false_r | reflexivity].
- destruct (compress opts); cbn; [|now right].
  destruct (type_is (c_type c) "start"); [now left | now right].
Qed.

Lemma emit_ts_total (opts : options) (calls : list call) :
  forall cssStr, exists out, emit TS opts cssStr calls = Ok out.
Proof.
induction calls as [|c calls IH]; intros cssStr; cbn [emit]; [eauto|].
destruct (builder_ts_total opts cssStr c) as [out ->]. apply IH.
Qed.

Lemma emit_js_refines (opts : options) (calls : list call) :
  forall cssStr out,
    emit JS opts cssStr calls = Ok out -> emit TS opts cssStr calls = Ok out.
Proof.
induction calls as [|c calls IH]; intros cssStr out; cbn [emit]; [trivial|].
destruct (builder_js_cases opts cssStr c) as [[_ ->]|[_ ->]]; [discriminate|].
destruct (builder TS opts cssStr c); [apply IH | discriminate].
Qed.

Lemma emit_js_throws (opts : options) (calls : list call) :
  forall cssStr,
    emit JS opts cssStr calls = TypeError
    <-> compress opts = true /\ Exists (fun c => start_without_node c = true) calls.
Proof.
induction calls as [|c calls IH]; intros cssStr; cbn [emit].
- split; [discriminate|]. intros [_ H]. inversion H.
- destruct (builder_js_cases opts cssStr c) as [[Hc ->]|[Hc ->]].
  + apply andb_prop in Hc as [Hc Hs]. split; [|reflexivity].
    intros _. split; [assumption|]. now constructor.
  + destruct (builder_ts_total opts cssStr c) as [out ->]. rewrite IH.
    split; intros [Hcomp Hex]; (split; [assumption|]).
    * now apply Exists_cons_tl.
    * inversion Hex as [? ? Hs|]; subst; [|assumption].
      rewrite Hcomp, Hs in Hc. discriminate.
Qed.

(** X1. The serializer of [css.ts] always returns.  The serializer of
    [css.js] throws exactly when it minifies and [stringify] makes a
    ['start'] invocation without a node; whenever it returns, [css.ts]
    returns the same text. *)
Theorem serializer_editions_agree :
  forall (stringify : node -> list call) (ast : node) (opts : options),
    (exists out, serializeStylesheet stringify TS ast opts = Ok out)
    /\ (forall out,
           serializeStylesheet stringify JS ast opts = Ok out ->
           serializeStylesheet stringify TS ast opts = Ok out)
    /\ (serializeStylesheet stringify JS ast opts = TypeError
        <-> compress opts = true
            /\ Exists (fun c => start_without_node c = true) (stringify ast)).
Proof.
intros stringify ast opts. unfold serializeStylesheet.
split; [apply emit_ts_total|]. split; [apply emit_js_refines | apply emit_js_throws].
Qed.

Lemma builder_comment (d : dialect) (opts : options) (cssStr : string) (c : call) :
  compress opts = true -> is_comment c = true -> builder d opts cssStr c = Ok cssStr.
Proof.
intros Hc Hm. unfold builder, is_comment in *. rewrite Hc, Hm. cbn.
now destruct (closesStyle c).
Qed.

Lemma emit_skips_comments (d : dialect) (opts : options) (calls : list call) :
  compress opts = true ->
  forall cssStr,
    emit d opts cssStr calls
    = emit d opts cssStr (List.filter (fun c => negb (is_comment c)) calls).
Proof.
intros Hc. induction calls as [|c calls IH]; intros cssStr; cbn [emit List.filter];
  [reflexivity|].
destruct (is_comment c) eqn:E; cbn [negb emit].
- rewrite (builder_comment d opts cssStr c Hc E). apply IH.
- destruct (builder d opts cssStr c); [apply IH | reflexivity].
Qed.

(** X2. When it minifies, the serializer leaves every comment out: the
    output is the output of the invocations that are neither comments nor
    dropped declarations. *)
Theorem compress_strips_comments :
  forall (stringify : node -> list call) (d : dialect) (ast : node) (opts : options),
    compress opts = true ->
    serializeStylesheet stringify d ast opts
    = emit d opts ""
           (List.filter (fun c => negb (is_comment c))
                        (List.filter safe (stringify ast))).
Proof.
intros stringify d ast opts Hc. unfold serializeStylesheet.
rewrite emit_skips_dropped. now apply emit_skips_comments.
Qed.

Lemma compress_strips_comments_witness :
  serializeStylesheet (fun _ => comment_call :: Samples.star_calls) JS
                      Samples.star_rule {| compress := true |}
  = emit JS {| compress := true |} ""
         (List.filter (fun c => negb (is_comment c))
                      (List.filter safe (comment_call :: Samples.star_calls))).
Proof.
apply (compress_strips_comments (fun _ => comment_call :: Samples.star_calls) JS
         Samples.star_rule {| compress := true |}).
reflexivity.
Defined.

(** X3. A declaration whose text starts with its property name and
    separator, neither containing a dollar sign, is minified by trimming
    that prefix; the value after it is kept as it is. *)
Theorem compressDecl_trims_prefix :
  forall (nd : node) (rest : string),
    no_dollar (prop nd +:+ to_text (raws_between nd)) = true ->
    compressDecl ((prop nd +:+ to_text (raws_between nd)) +:+ rest) nd
    = trim (prop nd +:+ to_text (raws_between nd)) +:+ rest.
Proof.
intros nd rest H. unfold compressDecl, replace.
rewrite findSplit_prefix.
rewrite getSubstitution_plain by now apply no_dollar_trim.
reflexivity.
Qed.

Lemma compressDecl_trims_prefix_witness :
  compressDecl ("color: " +:+ "red;") (decl "color" ": " "red") = "color:red;"
  /\ compressDecl (((nbsp +:+ "color") +:+ (nbsp +:+ ": ")) +:+ "red;") spaced_decl
     = ("color" +:+ nbsp +:+ ":") +:+ "red;".
Proof.
split.
- apply (compressDecl_trims_prefix (decl "color" ": " "red") "red;"). reflexivity.
- apply (compressDecl_trims_prefix spaced_decl "red;"). reflexivity.
Defined.

Lemma builder_silent (d : dialect) (cssStr : string) (c : call) :
  silent c = true -> builder d {| compress := true |} cssStr c = Ok cssStr.
Proof.
unfold silent. intros H.
destruct (closesStyle c) eqn:Hd; [now apply builder_dropped|].
destruct (is_comment c) eqn:Hm; [now apply builder_comment|].
cbn [orb] in H. unfold builder. rewrite Hd. cbn [compress negb].
destruct (c_node c) as [nd|]; [discriminate|].
destruct (c_type c) as [ty|]; [discriminate|]. cbn.
apply String.eqb_eq in H. rewrite H. now rewrite append_empty_r.
Qed.

Lemma emit_silent (d : dialect) (body rest : list call) :
  Forall (fun c => silent c = true) body ->
  forall cssStr,
    emit d {| compress := true |} cssStr (body ++ rest)
    = emit d {| compress := true |} cssStr rest.
Proof.
induction 1 as [|c body Hc _ IH]; intros cssStr; [reflexivity|].
cbn [app emit]. rewrite (builder_silent d cssStr c Hc). apply IH.
Qed.

Lemma sliceInit_append (s : string) (x : ascii) :
  sliceInit (s +:+ String x EmptyString) = s.
Proof.
induction s as [|y s IH]; [reflexivity|].
rewrite append_cons. cbn [sliceInit]. rewrite IH.
destruct s; reflexivity.
Qed.

(** X4. Minifying a rule whose [raws.semicolon] is set and between whose
    opening and closing nothing is written (every declaration dropped,
    comments, white space) removes the opening brace: the rule comes out
    as its selectors followed by the closing brace. *)
Theorem compress_emptied_rule_loses_brace :
  forall (d : dialect) (nd : node) (sels : list string) (body : list call)
         (opening cssStr : string),
    type nd = "rule" ->
    selectors nd = Some sels ->
    raws_semicolon nd = true ->
    Forall (fun c => silent c = true) body ->
    emit d {| compress := true |} cssStr
         ({| c_result := opening; c_node := Some nd; c_type := Some "start" |}
            :: body
            ++ [{| c_result := "}"; c_node := Some nd; c_type := Some "end" |}])
    = Ok (cssStr +:+ join "," sels +:+ "}").
Proof.
intros d nd sels body opening cssStr Hty Hsel Hsemi Hbody.
cbn [emit]. unfold builder at 1, closesStyle, node_type_is.
cbn [c_node c_type c_result compress negb type_is].
rewrite Hty, Hsel. cbn.
rewrite (emit_silent d body _ Hbody). cbn [emit].
unfold builder, closesStyle, node_type_is.
cbn [c_node c_type c_result compress negb type_is].
rewrite Hty, Hsemi. cbn.
change (trim "}") with "}".
rewrite <- (append_assoc cssStr), sliceInit_append. now rewrite append_assoc.
Qed.

Lemma compress_emptied_rule_loses_brace_witness :
  emit JS {| compress := true |} ""
       [ {| c_result := "a {"; c_node := Some emptied_rule;
            c_type := Some "start" |};
         {| c_result := "x:'</style>';"; c_node := Some (decl "x" ":" "'</style>'");
            c_type := None |};
         {| c_result := "}"; c_node := Some emptied_rule;
            c_type := Some "end" |} ]
  = Ok "a}".
Proof.
apply (compress_emptied_rule_loses_brace JS emptied_rule
         ["a"] [ {| c_result := "x:'</style>';"; c_node := Some (decl "x" ":" "'</style>'");
                    c_type := None |} ] "a {" "");
  try reflexivity.
repeat constructor.
Defined.

End SerializerMore.

(** ** [filterSelectors], beyond the partition *)

Module FilterSelectorsFacts.
Import Postcss JsArray Css SplitFilterFacts.

Lemma picked_by_value {T : Type} (f : T -> bool) (a : list T) (b : option (list T))
      (rest : list T) :
  forall i, picked (fun x _ _ _ => f x) a b i rest = List.filter f rest.
Proof.
induction rest as [|x rest IH]; intros i; [reflexivity|].
rewrite picked_cons. cbn [List.filter]. rewrite IH. now destruct (f x).
Qed.

Lemma unpicked_by_value {T : Type} (f : T -> bool) (a : list T) (b : option (list T))
      (rest : list T) :
  forall i, unpicked (fun x _ _ _ => f x) a b i rest
            = List.filter (fun x => negb (f x)) rest.
Proof.
induction rest as [|x rest IH]; intros i; [reflexivity|].
rewrite unpicked_cons. cbn [List.filter]. rewrite IH. now destruct (f x).
Qed.

Lemma filter_twice {T : Type} (f : T -> bool) (l : list T) :
  List.filter f (List.filter f l) = List.filter f l.
Proof.
induction l as [|x l IH]; [reflexivity|]. cbn [List.filter].
destruct (f x) eqn:E; [|assumption]. cbn [List.filter]. now rewrite E, IH.
Qed.

Lemma filter_then_complement {T : Type} (f : T -> bool) (l : list T) :
  List.filter (fun x => negb (f x)) (List.filter f l) = [].
Proof.
induction l as [|x l IH]; [reflexivity|]. cbn [List.filter].
destruct (f x) eqn:E; [|assumption]. cbn [List.filter]. now rewrite E.
Qed.

Lemma filterSelectors_text_alone (this : node) (sels : list string)
      (f : string -> bool) :
  _other this = None -> selectors this = Some sels ->
  filterSelectors this (fun sel _ _ _ => f sel)
  = Ok (set_selectors (Some (assigned (List.filter f sels))) this).
Proof.
intros Ho Hs. unfold filterSelectors. rewrite Ho, Hs, filter_pure.
now rewrite picked_by_value.
Qed.

Lemma filterSelectors_text_twin (this o : node) (sels : list string)
      (f : string -> bool) :
  _other this = Some o -> selectors this = Some sels ->
  filterSelectors this (fun sel _ _ _ => f sel)
  = Ok (set_other
          (Some (set_selectors
                   (Some (assigned (List.filter (fun sel => negb (f sel)) sels))) o))
          (set_selectors (Some (assigned (List.filter f sels))) this)).
Proof.
intros Ho Hs. unfold filterSelectors. rewrite Ho, Hs, splitFilter_pure.
now rewrite picked_by_value, unpicked_by_value.
Qed.

Lemma assigned_filter_twice (f : string -> bool) (sels : list string) :
  assigned (List.filter f (assigned (List.filter f sels)))
  = assigned (List.filter f sels).
Proof.
destruct (List.filter f sels) as [|x l] eqn:E.
- cbn. now destruct (f "").
- cbn [assigned]. rewrite <- E. rewrite filter_twice, E. reflexivity.
Qed.

Lemma assigned_filter_complement (f : string -> bool) (sels : list string) :
  assigned (List.filter (fun sel => negb (f sel)) (assigned (List.filter f sels)))
  = [""].
Proof.
destruct (List.filter f sels) as [|x l] eqn:E.
- cbn. now destruct (f "").
- cbn [assigned]. rewrite <- E. now rewrite filter_then_complement.
Qed.

(** X5. [filterSelectors] throws exactly on a node without a selector
    list, with or without a twin.  When it returns, it has changed the
    selector list of the node and, if there is a twin, of the twin, and
    nothing else: type, name, children and marks stay, and so do those
    of the twin. *)
Theorem filterSelectors_error_and_frame :
  forall (this : node) (q : selectorPredicate),
    (filterSelectors this q = TypeError <-> selectors this = None)
    /\ (forall this',
           filterSelectors this q = Ok this' ->
           type this' = type this
           /\ name this' = name this
           /\ nodes this' = nodes this
           /\ __remove this' = __remove this
           /\ __markedSelectors this' = __markedSelectors this
           /\ has_filterSelectors this' = has_filterSelectors this
           /\ match _other this with
              | None => _other this' = None
              | Some o =>
                exists o', _other this' = Some o'
                           /\ type o' = type o
                           /\ name o' = name o
                           /\ nodes o' = nodes o
                           /\ __remove o' = __remove o
                           /\ __markedSelectors o' = __markedSelectors o
                           /\ _other o' = _other o
              end).
Proof.
intros this q. unfold filterSelectors.
destruct (_other this) as [o|] eqn:Ho; destruct (selectors this) as [sels|] eqn:Hs.
- rewrite splitFilter_pure. split; [split; discriminate|].
  intros this' H. inversion H; subst. cbn.
  repeat split; try reflexivity. eexists. split; [reflexivity|]. now repeat split.
- cbn. split; [split; reflexivity|]. discriminate.
- rewrite filter_pure. split; [split; discriminate|].
  intros this' H. inversion H; subst. cbn. now repeat split.
- cbn. split; [split; reflexivity|]. discriminate.
Qed.

(** X6. With a predicate that looks at the selector text only,
    [filterSelectors] assigns to the rule the selectors that satisfy the
    predicate, in order, and to a twin the selectors of the rule that do
    not, whatever selectors the twin had before; a side that is left
    without a selector reads back as the list of one empty selector. *)
Theorem filterSelectors_by_text :
  forall (this : node) (sels : list string) (f : string -> bool),
    selectors this = Some sels ->
    let read_back (l : list string) :=
      match l with [] => [""] | _ :: _ => l end in
    let kept := read_back (List.filter f sels) in
    let others := read_back (List.filter (fun sel => negb (f sel)) sels) in
    filterSelectors this (fun sel _ _ _ => f sel)
    = Ok match _other this with
         | None => set_selectors (Some kept) this
         | Some o =>
           set_other (Some (set_selectors (Some others) o))
                     (set_selectors (Some kept) this)
         end.
Proof.
intros this sels f Hs read_back kept others. destruct (_other this) as [o|] eqn:Ho.
- now apply filterSelectors_text_twin.
- now apply filterSelectors_text_alone.
Qed.

Lemma filterSelectors_by_text_witness :
  filterSelectors Samples.wired_rule (fun sel _ _ _ => String.eqb sel "h1")
  = Ok (set_other (Some (set_selectors (Some ["h2"]) Samples.twin_rule))
                  (set_selectors (Some ["h1"]) Samples.wired_rule))
  /\ filterSelectors Samples.wired_rule (fun sel _ _ _ => String.eqb sel "h3")
     = Ok (set_other (Some (set_selectors (Some ["h1"; "h2"]) Samples.twin_rule))
                     (set_selectors (Some [""]) Samples.wired_rule)).
Proof.
split.
- apply (filterSelectors_by_text Samples.wired_rule ["h1"; "h2"]
                                 (fun sel => String.eqb sel "h1")).
  reflexivity.
- apply (filterSelectors_by_text Samples.wired_rule ["h1"; "h2"]
                                 (fun sel => String.eqb sel "h3")).
  reflexivity.
Defined.

(** X7. Filtering a rule a second time with the same text predicate
    changes nothing on the rule; on a rule with a twin the second call
    takes the complement from the selectors the rule has kept, and the
    twin is left with the list of one empty selector. *)
Theorem filterSelectors_repeated :
  forall (this : node) (sels : list string) (f : string -> bool),
    selectors this = Some sels ->
    exists once twice,
      filterSelectors this (fun sel _ _ _ => f sel) = Ok once
      /\ filterSelectors once (fun sel _ _ _ => f sel) = Ok twice
      /\ selectors twice = selectors once
      /\ match _other this with
         | None => twice = once
         | Some _ => option_map selectors (_other twice) = Some (Some [""])
         end.
Proof.
intros this sels f Hs. destruct (_other this) as [o|] eqn:Ho.
- eexists _, _. split; [apply (filterSelectors_text_twin this o sels f Ho Hs)|].
  split; [now eapply filterSelectors_text_twin|].
  cbn [selectors set_other set_selectors _other option_map].
  now rewrite assigned_filter_twice, assigned_filter_complement.
- eexists _, _. split; [apply (filterSelectors_text_alone this sels f Ho Hs)|].
  split; [now eapply filterSelectors_text_alone|].
  cbn [selectors set_selectors]. rewrite assigned_filter_twice.
  split; [reflexivity|]. now destruct this.
Qed.

Lemma filterSelectors_repeated_witness :
  exists once twice,
    filterSelectors Samples.wired_rule (fun sel _ _ _ => String.eqb sel "h1") = Ok once
    /\ filterSelectors once (fun sel _ _ _ => String.eqb sel "h1") = Ok twice
    /\ selectors twice = selectors once
    /\ option_map selectors (_other twice) = Some (Some [""]).
Proof.
apply (filterSelectors_repeated Samples.wired_rule ["h1"; "h2"]
                                (fun sel => String.eqb sel "h1")).
reflexivity.
Defined.

End FilterSelectorsFacts.

(** ** The two passes: [markOnly], then [applyMarkedSelectors] *)

Module TwoPassFacts.
Import Postcss JsArray Css.

(** X8. The two passes give the rule the selector list that the predicate
    left on it: after [markOnly(p)] and [applyMarkedSelectors], the rule
    has the selectors [p] left (when [p] left none: in [css.js] the ones
    it had before, in [css.ts] an older stash if there is one), and its
    twin has the selectors [p] left on the twin. *)
Theorem marked_selectors_round_trip :
  forall (S : Type) (d : dialect) (predicate : @iterator S) (rule : node) (s : S),
    let after_p := snd (fst (predicate rule s)) in
    let marked := snd (fst (markOnly d predicate rule s)) in
    selectors (applyMarkedSelectors marked)
    = match selectors after_p, d with
      | Some sels, _ => Some sels
      | None, JS => selectors rule
      | None, TS => __markedSelectors after_p
      end
    /\ (forall t, _other after_p = Some t ->
                  exists t', _other (applyMarkedSelectors marked) = Some t'
                             /\ selectors t' = selectors t).
Proof.
intros S d predicate rule s. unfold markOnly.
destruct (predicate rule s) as [[v rule1] s1]. cbn [fst snd].
destruct d, (is_false v), rule1 as [ty nm [sels|] p0 v0 rb rs ns [o|] fs rm [mk|]];
  cbn; (split; [reflexivity|]); intros t Ht; inversion Ht; subst;
  destruct t as [ty' nm' [sels'|] p' v' rb' rs' ns' o' fs' rm' mk'];
  cbn; eexists; split; reflexivity.
Qed.

Lemma applyMarkedSelectors_twice :
  forall rule, applyMarkedSelectors (applyMarkedSelectors rule)
               = applyMarkedSelectors rule.
Proof.
fix IH 1. intros [ty nm sels p v rb rs ns o fs rm mk]. cbn. f_equal.
- now destruct mk.
- destruct o as [o|]; [|reflexivity]. f_equal. apply IH.
Qed.

(** X9. [applyMarkedSelectors] is idempotent, changes nothing but selector
    lists (the marks stay, so a later call finds them again), and leaves
    the selectors of a rule without a stash as they are. *)
Theorem applyMarkedSelectors_idempotent :
  forall rule : node,
    applyMarkedSelectors (applyMarkedSelectors rule) = applyMarkedSelectors rule
    /\ type (applyMarkedSelectors rule) = type rule
    /\ name (applyMarkedSelectors rule) = name rule
    /\ nodes (applyMarkedSelectors rule) = nodes rule
    /\ __remove (applyMarkedSelectors rule) = __remove rule
    /\ __markedSelectors (applyMarkedSelectors rule) = __markedSelectors rule
    /\ _other (applyMarkedSelectors rule)
       = option_map applyMarkedSelectors (_other rule)
    /\ selectors (applyMarkedSelectors rule)
       = match __markedSelectors rule with
         | Some marked => Some marked
         | None => selectors rule
         end.
Proof.
intros rule. split; [apply applyMarkedSelectors_twice|].
destruct rule as [ty nm sels p v rb rs ns [o|] fs rm mk]; cbn; now repeat split.
Qed.

End TwoPassFacts.

(** ** The walks: errors, conservation, the marking pass *)

Module WalkErrors.
Import Postcss JsArray Css WalkFacts.

Section Loops.
Context {S T : Type}.

Lemma splitFilter_loop_length
      (cb : T -> nat -> list T -> option (list T) -> M S (bool * T))
      (b : option (list T)) (rest : list T) :
  forall done i aOut bOut s a' b' s',
    splitFilter_loop cb b done rest i aOut bOut s = Ok ((a', b'), s') ->
    length a' + length b' = length aOut + length bOut + length rest.
Proof.
induction rest as [|c rest IH]; intros done i aOut bOut s a' b' s'.
- cbn. unfold ret. intros H. inversion H; subst. lia.
- cbn [splitFilter_loop]. unfold bind at 1.
  destruct (cb c i (done ++ c :: rest) b s) as [[[keep c'] s1]|]; [|discriminate].
  cbn [fst snd]. destruct keep; intros H; apply IH in H;
    rewrite ?List.length_app in H; cbn in H |- *; lia.
Qed.

Lemma splitFilter_loop_total
      (cb : T -> nat -> list T -> option (list T) -> M S (bool * T))
      (b : option (list T)) (rest : list T) :
  (forall c, In c rest -> forall i arr s, exists r s', cb c i arr b s = Ok (r, s')) ->
  forall done i aOut bOut s,
  exists res s', splitFilter_loop cb b done rest i aOut bOut s = Ok (res, s').
Proof.
induction rest as [|c rest IH]; intros Hcb done i aOut bOut s.
- cbn. unfold ret. eauto.
- cbn [splitFilter_loop]. unfold bind at 1.
  destruct (Hcb c (or_introl eq_refl) i (done ++ c :: rest) s) as ([keep c'] & s1 & ->).
  cbn [fst snd]. destruct keep; apply IH; intros c0 Hc0; apply Hcb; now right.
Qed.
End Loops.

Lemma walk_ts_total {S : Type} (it : @iterator S) (n : node) (s : S) :
  exists n' s', walkStyleRules TS it n s = Ok (n', s').
Proof.
destruct (nodes n) as [l|] eqn:E.
- destruct (walkStyleRules_total TS it n s) as (n' & s' & _ & _ & H & _);
    [congruence | eauto].
- rewrite walkStyleRules_eq, E. unfold ret. eauto.
Qed.

(** X10. [walkStyleRules] of [css.js] throws exactly on a node without a
    list of children; on a node with one it returns, whatever the tree
    below and the iterator.  [walkStyleRules] of [css.ts] never throws and
    gives a node without children back untouched, without invoking the
    iterator. *)
Theorem walkStyleRules_errors :
  forall (S : Type) (it : @iterator S) (root : node) (s : S),
    (walkStyleRules JS it root s = TypeError <-> nodes root = None)
    /\ (exists root' s', walkStyleRules TS it root s = Ok (root', s'))
    /\ (nodes root = None -> walkStyleRules TS it root s = Ok (root, s)).
Proof.
intros S it root s. split; [|split].
- split.
  + intros H. destruct (nodes root) as [l|] eqn:E; [|reflexivity].
    destruct (walkStyleRules_total JS it root s) as (n' & s' & _ & _ & H' & _);
      congruence.
  + intros E. now rewrite walkStyleRules_eq, E.
- apply walk_ts_total.
- intros E. now rewrite walkStyleRules_eq, E.
Qed.

Lemma mirror_ts_total {S : Type} (it : @iterator S) :
  forall h n, height n <= h -> nodes n <> None ->
              forall r s, exists res s',
                  walkStyleRulesWithReverseMirror TS it n r s = Ok (res, s').
Proof.
induction h as [|h IH]; intros n Hh Hn r s;
  (destruct (nodes n) as [l|] eqn:E; [|congruence]).
- destruct n; cbn in E; subst. cbn in Hh. lia.
- rewrite walkMirror_eq. destruct r as [| |n2].
  + unfold bind, ret. destruct (walk_ts_total it n s) as (n' & s' & ->). eauto.
  + unfold bind, ret. destruct (walk_ts_total it n s) as (n' & s' & ->). eauto.
  + rewrite E. unfold bind, splitFilter, ret.
    destruct (splitFilter_loop_total (visitMirrored TS it) (nodes n2) l)
      with (done := @nil node) (i := 0) (aOut := @nil node) (bOut := @nil node) (s := s)
      as (res & s' & ->); [|eauto].
    intros c Hc i arr s0. unfold visitMirrored, bind.
    assert (Ht : exists x, twin_at TS (nodes n2) i s0 = Ok (x, s0))
      by (destruct (nodes n2); cbn; unfold ret; eauto).
    destruct Ht as (x & ->).
    destruct (hasNestedRules c) eqn:Hc'.
    * destruct (IH c) with (r := ref_of x) (s := s0) as (res & s1 & ->).
      -- pose proof (height_child n c l E Hc). lia.
      -- now apply hasNestedRules_nodes.
      -- rewrite invoke_plain. unfold ret. eauto.
    * unfold ret. rewrite invoke_plain. eauto.
Qed.

(** X11. [walkStyleRulesWithReverseMirror] of [css.ts] throws in one case
    only: a second tree is given and the first node has no list of
    children.  A twin that is shorter, deeper or shaped differently never
    makes it throw. *)
Theorem reverseMirror_ts_errors :
  forall (S : Type) (it : @iterator S) (root : node) (twin : ref) (s : S),
    walkStyleRulesWithReverseMirror TS it root twin s = TypeError
    <-> (exists t, twin = Obj t) /\ nodes root = None.
Proof.
intros S it root twin s. split.
- intros H. destruct twin as [| |t].
  + rewrite walkMirror_eq in H. unfold bind in H.
    destruct (walk_ts_total it root s) as (n' & s' & E). now rewrite E in H.
  + rewrite walkMirror_eq in H. unfold bind in H.
    destruct (walk_ts_total it root s) as (n' & s' & E). now rewrite E in H.
  + split; [eauto|]. destruct (nodes root) as [l|] eqn:E; [|reflexivity].
    destruct (mirror_ts_total it _ root (le_n _)) with (r := Obj t) (s := s)
      as (res & s' & E'); congruence.
- intros [[t ->] E]. now rewrite walkMirror_eq, E.
Qed.

(** X12. When the mirrored walk returns, every child of the first node is
    in exactly one of the two lists it leaves: the first node keeps some,
    the second node receives the others, and the children the second node
    had are gone.  Nothing else of the two nodes changes. *)
Theorem reverseMirror_conserves_children :
  forall (S : Type) (d : dialect) (it : @iterator S) (root twin : node) (s s' : S)
         (res : node * ref),
    walkStyleRulesWithReverseMirror d it root (Obj twin) s = Ok (res, s') ->
    exists l aOut bOut,
      nodes root = Some l
      /\ res = (set_nodes (Some aOut) root, Obj (set_nodes (Some bOut) twin))
      /\ length aOut + length bOut = length l.
Proof.
intros S d it root twin s s' res H.
assert (Hd : walkStyleRulesWithReverseMirror d it root (Obj twin)
             = (ab <- splitFilter (visitMirrored d it) (nodes root) (nodes twin) ;;
                ret (set_nodes (Some (fst ab)) root,
                     Obj (set_nodes (Some (snd ab)) twin)))%js)
  by (rewrite walkMirror_eq; now destruct d).
rewrite Hd in H. unfold bind, splitFilter in H.
destruct (nodes root) as [l|]; [|discriminate].
destruct (splitFilter_loop _ _ _ _ _ _ _ s) as [[[a b] s1]|] eqn:E; [|discriminate].
unfold ret in H. inversion H; subst. cbn [fst snd].
exists l, a, b. split; [reflexivity|]. split; [reflexivity|].
apply splitFilter_loop_length in E. cbn in E. lia.
Qed.

Lemma reverseMirror_conserves_children_witness :
  exists res s',
    walkStyleRulesWithReverseMirror JS Samples.drop_to Samples.webkit_twin
                                    (Obj Samples.webkit_twin) tt
    = Ok (res, s')
    /\ exists l aOut bOut,
        nodes Samples.webkit_twin = Some l
        /\ res = (set_nodes (Some aOut) Samples.webkit_twin,
                  Obj (set_nodes (Some bOut) Samples.webkit_twin))
        /\ length aOut + length bOut = length l.
Proof.
eexists _, _. split; [vm_compute; reflexivity|].
eapply (reverseMirror_conserves_children unit JS Samples.drop_to
          Samples.webkit_twin Samples.webkit_twin tt).
vm_compute. reflexivity.
Defined.

End WalkErrors.

Module MarkingPass.
Import Postcss JsArray Css WalkFacts.

Section Nondestructive.
Context {S : Type} (d : dialect) (it : @iterator S).
Hypothesis never_false : forall n s, is_false (fst (fst (it n s))) = false.
Hypothesis keeps_children : forall n s, nodes (snd (fst (it n s))) = nodes n.

Lemma visit_keeps (c : node) :
  (hasNestedRules c = true ->
   forall s, exists kept s',
       walkStyleRules d it c s = Ok (set_nodes (Some kept) c, s')
       /\ length (below kept) = length (descendants c)) ->
  forall i arr s, exists c' s',
      visit d it c i arr s = Ok ((true, c'), s')
      /\ length (descendants c') = length (descendants c).
Proof.
intros Hw i arr s. unfold visit, bind.
destruct (hasNestedRules c) eqn:E.
- destruct (Hw eq_refl s) as (kept & s1 & -> & Hlen).
  rewrite invoke_plain. unfold ret. cbn [fst snd]. rewrite never_false.
  eexists _, _. split; [reflexivity|].
  rewrite (descendants_eq (snd (fst (it _ _)))), keeps_children.
  replace (nodes (set_filterSelectors (set_other None (set_nodes (Some kept) c))))
    with (Some kept) by now destruct c.
  exact Hlen.
- unfold ret. rewrite invoke_plain. cbn [fst snd]. rewrite never_false.
  eexists _, _. split; [reflexivity|].
  rewrite (descendants_eq (snd (fst (it _ _)))), keeps_children.
  rewrite (descendants_eq c). now destruct c.
Qed.

Lemma filter_loop_keeps (rest : list node) :
  (forall c, In c rest ->
             forall i arr s, exists c' s',
                 visit d it c i arr s = Ok ((true, c'), s')
                 /\ length (descendants c') = length (descendants c)) ->
  forall done i out s, exists outs s',
      filter_loop (visit d it) done rest i out s = Ok (out ++ outs, s')
      /\ length outs = length rest
      /\ length (below outs) = length (below rest).
Proof.
induction rest as [|c rest IH]; intros Hall done i out s.
- exists [], s. cbn. unfold ret. now rewrite List.app_nil_r.
- cbn [filter_loop]. unfold bind at 1.
  destruct (Hall c (or_introl eq_refl) i (done ++ c :: rest) s)
    as (c' & s1 & -> & Hc).
  cbn [fst snd].
  destruct (IH (fun c0 H0 => Hall c0 (or_intror H0))
               (done ++ [c']) (Datatypes.S i) (out ++ [c']) s1)
    as (outs & s2 & -> & Hlen & Hbelow).
  exists (c' :: outs), s2. rewrite <- List.app_assoc. split; [reflexivity|].
  split; [cbn; lia|].
  change (c' :: outs) with ([c'] ++ outs). change (c :: rest) with ([c] ++ rest).
  rewrite !below_app, !List.length_app, !below_one. cbn [length]. lia.
Qed.

Lemma walk_keeps :
  forall h n, height n <= h -> forall l, nodes n = Some l ->
  forall s, exists kept s',
      walkStyleRules d it n s = Ok (set_nodes (Some kept) n, s')
      /\ length kept = length l
      /\ length (below kept) = length (descendants n).
Proof.
induction h as [|h IH]; intros n Hh l E s.
- destruct n; cbn in E; subst. cbn in Hh. lia.
- rewrite walkStyleRules_eq, E. unfold bind, filter.
  destruct (filter_loop_keeps l) with (done := @nil node) (i := 0)
                                      (out := @nil node) (s := s)
    as (outs & s' & -> & Hlen & Hbelow).
  + intros c Hc. apply visit_keeps. intros Hn s0.
    destruct (nodes c) as [lc|] eqn:Ec;
      [|apply hasNestedRules_nodes in Hn; congruence].
    destruct (IH c) with (l := lc) (s := s0) as (kept & s1 & Hk & _ & Hb);
      [pose proof (height_child n c l E Hc); lia | assumption |].
    eauto.
  + unfold ret. cbn [app]. exists outs, s'. split; [reflexivity|].
    split; [assumption|]. rewrite (descendants_eq n), E. exact Hbelow.
Qed.
End Nondestructive.

(** X13. The marking pass is not destructive: a walk with [markOnly(p)],
    where [p] leaves the children of the rule it is given alone, returns
    and removes no node at any depth; the tree has as many children of
    the root, and as many nodes below the root, after the walk as
    before. *)
Theorem marking_walk_removes_nothing :
  forall (S : Type) (d : dialect) (p : @iterator S) (root : node) (l : list node)
         (s : S),
    (forall n s0, nodes (snd (fst (p n s0))) = nodes n) ->
    nodes root = Some l ->
    exists kept s',
      walkStyleRules d (markOnly d p) root s = Ok (set_nodes (Some kept) root, s')
      /\ length kept = length l
      /\ length (descendants (set_nodes (Some kept) root))
         = length (descendants root).
Proof.
intros S d p root l s Hp E.
destruct (walk_keeps d (markOnly d p)) with (h := height root) (n := root) (l := l) (s := s)
  as (kept & s' & Hw & Hlen & Hbelow); [| |lia|assumption|].
- intros n s0. unfold markOnly. now destruct (p n s0) as [[v r] s1].
- intros n s0. specialize (Hp n s0). unfold markOnly.
  destruct (p n s0) as [[v r] s1]. cbn [fst snd] in *.
  destruct d, (is_false v), r as [ty nm [sels|] p0 v0 rb rs ns [o|] fs rm mk];
    cbn in *; assumption.
- exists kept, s'. split; [assumption|]. split; [assumption|].
  rewrite (descendants_eq (set_nodes _ _)).
  replace (nodes (set_nodes (Some kept) root)) with (Some kept) by now destruct root.
  exact Hbelow.
Qed.

Lemma marking_walk_removes_nothing_witness :
  exists kept s',
    walkStyleRules JS (markOnly JS Samples.reject_all) Samples.webkit_twin tt
    = Ok (set_nodes (Some kept) Samples.webkit_twin, s')
    /\ length kept = 3
    /\ length (descendants (set_nodes (Some kept) Samples.webkit_twin))
       = length (descendants Samples.webkit_twin).
Proof.
apply (marking_walk_removes_nothing unit JS Samples.reject_all Samples.webkit_twin
         (match nodes Samples.webkit_twin with Some l => l | None => [] end) tt);
  [intros n s0; reflexivity | reflexivity].
Defined.

End MarkingPass.

(** ** The webpack plugin, beyond the threshold *)

Module WebpackMore.
Import JsString Webpack WebpackAssets SerializerFacts SerializerMore.

(** X14. [pruneSource] touches no asset but the one of the style it is
    given and never changes the configured minimum.  For a style without
    an asset it changes no asset at all: it gives one warning and passes
    on the verdict of the base class; for a style with an asset it gives
    no warning. *)
Theorem pruneSource_frame :
  forall (super_pruneSource : style -> string -> string -> bool)
         (this : plugin) (st : style) (before sheetInverse : string),
    let verdict := fst (pruneSource super_pruneSource this st before sheetInverse) in
    let after := snd (pruneSource super_pruneSource this st before sheetInverse) in
    minimumExternalSize after = minimumExternalSize this
    /\ (forall other, other <> __assetName st ->
                      assets after !! other = assets this !! other)
    /\ (__asset st = None ->
        verdict = super_pruneSource st before sheetInverse
        /\ assets after = assets this
        /\ length (warnings after) = Datatypes.S (length (warnings this)))
    /\ (__asset st <> None -> warnings after = warnings this).
Proof.
intros super this st before inv. unfold pruneSource.
destruct (__asset st) as [a|]; [destruct (belowMinimum this inv)|]; cbn.
- split; [reflexivity|]. split; [|split; [discriminate | reflexivity]].
  intros other Hne. now apply lookup_delete_ne.
- split; [reflexivity|]. split; [|split; [discriminate | reflexivity]].
  intros other Hne. now apply lookup_insert_ne.
- split; [reflexivity|]. split; [reflexivity|]. split; [|congruence].
  intros _. rewrite List.length_app. cbn. repeat split; lia.
Qed.

(** X15. A minimum size that is not configured, or configured as zero,
    switches the threshold off: the asset of the style is never deleted,
    however short the remaining sheet is; it is replaced by the remaining
    sheet and the verdict of the base class is passed on. *)
Theorem pruneSource_without_minimum :
  forall (super_pruneSource : style -> string -> string -> bool)
         (this : plugin) (st : style) (asset : source)
         (before sheetInverse : string),
    __asset st = Some asset ->
    minimumExternalSize this = None \/ minimumExternalSize this = Some 0 ->
    pruneSource super_pruneSource this st before sheetInverse
    = (super_pruneSource st before sheetInverse,
       with_assets (<[__assetName st :=
                        SourceMapSource sheetInverse (__assetName st) before]>
                      (assets this)) this).
Proof.
intros super this st asset before inv Ha Hm. unfold pruneSource, belowMinimum.
rewrite Ha. now destruct Hm as [-> | ->].
Qed.

Lemma pruneSource_without_minimum_witness :
  pruneSource Samples.never_inlined WebpackSamples.unlimited_plugin
              Samples.sample_style "h1{color:red}h2{color:blue}" ""
  = (false,
     with_assets (<["main.css" :=
                      SourceMapSource "" "main.css" "h1{color:red}h2{color:blue}"]>
                    (assets WebpackSamples.unlimited_plugin))
                 WebpackSamples.unlimited_plugin).
Proof.
apply (pruneSource_without_minimum Samples.never_inlined
         WebpackSamples.unlimited_plugin Samples.sample_style
         (RawSource "h1{color:red}h2{color:blue}")
         "h1{color:red}h2{color:blue}" "");
  [reflexivity | right; reflexivity].
Defined.

Lemma length_append (p r : string) :
  String.length (p +:+ r) = String.length p + String.length r.
Proof.
induction p as [|x p IH]; [reflexivity|]. rewrite append_cons. cbn. now rewrite IH.
Qed.

Lemma substringFrom_append (p r : string) :
  substringFrom (String.length p) (p +:+ r) = r.
Proof.
unfold substringFrom. apply substring_append. rewrite length_append. lia.
Qed.

(** X16. The public path is removed from a link: the href made of a
    slash, the public path between single slashes and a file name
    normalizes to the file name, with a leading slash of its own taken
    off. *)
Theorem normalizedPath_strips_public_path :
  forall (publicPath : option string) (file : string),
    normalizedPath publicPath ("/" +:+ pathPrefix publicPath +:+ file)
    = stripLeadingSlash file.
Proof.
intros publicPath file. unfold normalizedPath.
change (stripLeadingSlash ("/" +:+ pathPrefix publicPath +:+ file))
  with (pathPrefix publicPath +:+ file).
now rewrite prefix_append, substringFrom_append.
Qed.

Section FileSystem.
Variable resolve : string -> string -> string.
Variable relative : string -> string -> string.
Variable readFile : string -> option string.

Local Abbreviation getCssAsset := (WebpackAssets.getCssAsset resolve relative readFile).
Local Abbreviation relativePath := (WebpackAssets.relativePath resolve relative).
Local Abbreviation filename := (WebpackAssets.filename resolve).

Lemma getCssAsset_from_disk (opts : options) (this : plugin) (href : string)
      (st : style) (content : string) :
  match assets this !! relativePath opts href with
  | Some a => falsy (source_of a) = true
  | None => True
  end ->
  readFile (filename opts href) = Some content ->
  exists msg,
    getCssAsset opts this href st
    = (Some content,
       {| __name := __name st; __asset := assets this !! relativePath opts href;
          __assetName := relativePath opts href |},
       warn msg this).
Proof.
intros Ha Hr. unfold WebpackAssets.getCssAsset. rewrite Hr.
destruct (assets this !! relativePath opts href) as [a|]; [rewrite Ha|]; eauto.
Qed.

Lemma getCssAsset_nowhere (opts : options) (this : plugin) (href : string)
      (st : style) :
  match assets this !! relativePath opts href with
  | Some a => falsy (source_of a) = true
  | None => True
  end ->
  readFile (filename opts href) = None ->
  getCssAsset opts this href st
  = (None, st, warn ("Unable to locate stylesheet: " +:+ relativePath opts href) this).
Proof.
intros Ha Hr. unfold WebpackAssets.getCssAsset. rewrite Hr.
now destruct (assets this !! relativePath opts href) as [a|]; [rewrite Ha|].
Qed.
End FileSystem.

(** X17. A stylesheet that is found on disk only is never pruned:
    [getCssAsset] answers the content of the file, leaves the style
    without an asset and gives one warning; a later [pruneSource] on that
    style changes no asset of the compilation and passes on the verdict
    of the base class. *)
Theorem disk_only_stylesheet_is_never_pruned :
  forall (resolve relative : string -> string -> string)
         (readFile : string -> option string)
         (opts : options) (this : plugin) (href : string) (st : style)
         (content : string),
    assets this !! relativePath resolve relative opts href = None ->
    readFile (filename resolve opts href) = Some content ->
    exists st' this',
      getCssAsset resolve relative readFile opts this href st
      = (Some content, st', this')
      /\ __asset st' = None
      /\ __name st' = __name st
      /\ assets this' = assets this
      /\ length (warnings this') = Datatypes.S (length (warnings this))
      /\ forall (super_pruneSource : style -> string -> string -> bool)
                (before sheetInverse : string),
          fst (pruneSource super_pruneSource this' st' before sheetInverse)
          = super_pruneSource st' before sheetInverse
          /\ assets (snd (pruneSource super_pruneSource this' st' before sheetInverse))
             = assets this.
Proof.
intros resolve relative readFile opts this href st content Ha Hr.
destruct (getCssAsset_from_disk resolve relative readFile opts this href st content)
  as (msg & ->); [now rewrite Ha | assumption |].
rewrite Ha. eexists _, _. split; [reflexivity|].
split; [reflexivity|]. split; [reflexivity|]. split; [reflexivity|].
split; [cbn; rewrite List.length_app; cbn; lia|].
intros super before inv. split; reflexivity.
Qed.

Lemma disk_only_stylesheet_is_never_pruned_witness :
  exists st' this',
    getCssAsset WebpackSamples.join_path WebpackSamples.below_dir WebpackSamples.disk
                WebpackSamples.dist Samples.sample_plugin "/static/print.css"
                WebpackSamples.linked
    = (Some "p{margin:0}", st', this')
    /\ __asset st' = None
    /\ __name st' = "print.css"
    /\ assets this' = assets Samples.sample_plugin
    /\ length (warnings this') = 1
    /\ forall (super_pruneSource : style -> string -> string -> bool)
              (before sheetInverse : string),
        fst (pruneSource super_pruneSource this' st' before sheetInverse)
        = super_pruneSource st' before sheetInverse
        /\ assets (snd (pruneSource super_pruneSource this' st' before sheetInverse))
           = assets Samples.sample_plugin.
Proof.
apply (disk_only_stylesheet_is_never_pruned
         WebpackSamples.join_path WebpackSamples.below_dir WebpackSamples.disk
         WebpackSamples.dist Samples.sample_plugin "/static/print.css"
         WebpackSamples.linked "p{margin:0}");
  vm_compute; reflexivity.
Defined.

(** X18. An asset whose [source()] is the empty string counts as not
    found: [getCssAsset] answers the sheet and gives the warning it would
    if the compilation did not have the asset, and with no such file on
    disk it answers nothing and leaves the style as it is.  An asset
    whose [source()] is a buffer counts as found even when the buffer is
    empty: its text is answered, the style is given the asset, and the
    disk is not consulted. *)
Theorem empty_asset_counts_as_missing :
  forall (resolve relative : string -> string -> string)
         (readFile : string -> option string)
         (opts : options) (this : plugin) (href : string) (st : style)
         (asset : source),
    assets this !! relativePath resolve relative opts href = Some asset ->
    let found := getCssAsset resolve relative readFile opts this href st in
    let missing :=
      getCssAsset resolve relative readFile opts
                  (deleteAsset (relativePath resolve relative opts href) this)
                  href st in
    (source_of asset = Text "" ->
     fst (fst found) = fst (fst missing)
     /\ warnings (snd found) = warnings (snd missing)
     /\ assets (snd found) = assets this
     /\ (readFile (filename resolve opts href) = None ->
         fst found = (None, st)))
    /\ (forall bytes,
           source_of asset = Buffer bytes ->
           found
           = (Some bytes,
              {| __name := __name st; __asset := Some asset;
                 __assetName := relativePath resolve relative opts href |},
              this)).
Proof.
intros resolve relative readFile opts this href st asset Ha.
unfold getCssAsset, deleteAsset, with_assets. cbn [assets].
rewrite Ha, lookup_delete_eq. cbn zeta. split.
- intros He. rewrite He. cbn [falsy].
  destruct (readFile (filename resolve opts href)); cbn; repeat split; discriminate.
- intros bytes He. rewrite He. reflexivity.
Qed.

Lemma empty_asset_counts_as_missing_witness :
  (let found :=
     getCssAsset WebpackSamples.join_path WebpackSamples.below_dir (fun _ => None)
                 WebpackSamples.dist WebpackSamples.empty_asset_plugin
                 "/static/print.css" WebpackSamples.linked in
   let missing :=
     getCssAsset WebpackSamples.join_path WebpackSamples.below_dir (fun _ => None)
                 WebpackSamples.dist
                 (deleteAsset "print.css" WebpackSamples.empty_asset_plugin)
                 "/static/print.css" WebpackSamples.linked in
   fst (fst found) = fst (fst missing)
   /\ warnings (snd found) = warnings (snd missing)
   /\ assets (snd found) = assets WebpackSamples.empty_asset_plugin
   /\ fst found = (None, WebpackSamples.linked))
  /\ getCssAsset WebpackSamples.join_path WebpackSamples.below_dir (fun _ => None)
                 WebpackSamples.dist WebpackSamples.empty_buffer_plugin
                 "/static/print.css" WebpackSamples.linked
     = (Some "",
        {| __name := "print.css"; __asset := Some (BufferSource "");
           __assetName := "print.css" |},
        WebpackSamples.empty_buffer_plugin).
Proof.
split.
- destruct (empty_asset_counts_as_missing
              WebpackSamples.join_path WebpackSamples.below_dir (fun _ => None)
              WebpackSamples.dist WebpackSamples.empty_asset_plugin
              "/static/print.css" WebpackSamples.linked (RawSource "") eq_refl)
    as [Hstring _].
  destruct (Hstring eq_refl) as (H1 & H2 & H3 & H4).
  split; [exact H1|]. split; [exact H2|]. split; [exact H3|]. now apply H4.
- destruct (empty_asset_counts_as_missing
              WebpackSamples.join_path WebpackSamples.below_dir (fun _ => None)
              WebpackSamples.dist WebpackSamples.empty_buffer_plugin
              "/static/print.css" WebpackSamples.linked (BufferSource "") eq_refl)
    as [_ Hbuffer].
  exact (Hbuffer "" eq_refl).
Defined.

(** X19. [checkInlineThreshold] passes on the verdict of the base class.
    When the verdict is not to inline, nothing changes.  When it is, the
    asset of the style is deleted from the compilation (a style without
    an asset gives one warning instead); no other asset is touched. *)
Theorem checkInlineThreshold_effect :
  forall (Link : Type) (super_checkInlineThreshold : Link -> style -> string -> bool)
         (this : plugin) (link : Link) (st : style) (sheet : string),
    let verdict :=
      fst (checkInlineThreshold Link super_checkInlineThreshold this link st sheet) in
    let after :=
      snd (checkInlineThreshold Link super_checkInlineThreshold this link st sheet) in
    verdict = super_checkInlineThreshold link st sheet
    /\ (verdict = false -> after = this)
    /\ (verdict = true -> __asset st <> None ->
        assets after !! __assetName st = None /\ warnings after = warnings this)
    /\ (verdict = true -> __asset st = None ->
        assets after = assets this
        /\ length (warnings after) = Datatypes.S (length (warnings this)))
    /\ (forall other, other <> __assetName st ->
                      assets after !! other = assets this !! other).
Proof.
intros Link super this link st sheet. unfold checkInlineThreshold.
destruct (super link st sheet); [destruct (__asset st) as [a|]|]; cbn.
- split; [reflexivity|]. split; [discriminate|].
  split; [intros _ _; split; [apply lookup_delete_eq | reflexivity]|].
  split; [discriminate|]. intros other Hne. now apply lookup_delete_ne.
- split; [reflexivity|]. split; [discriminate|]. split; [congruence|].
  split; [|reflexivity]. intros _ _. split; [reflexivity|].
  rewrite List.length_app. cbn. lia.
- split; [reflexivity|]. split; [reflexivity|]. now repeat split.
Qed.

Section Embedding.
Variable minimatch : string -> string -> bool.
Variable Object_keys : gmap string source -> list string.

Local Abbreviation embed_loop := (WebpackAssets.embed_loop minimatch Object_keys).
Local Abbreviation appendStyles := (WebpackAssets.appendStyles).

Lemma included_spec (x : string) (included : list string) :
  existsb (String.eqb x) included = true <-> In x included.
Proof.
rewrite existsb_exists. split.
- intros (y & Hy & E). apply String.eqb_eq in E. now subst.
- intros H. exists x. split; [assumption | apply String.eqb_refl].
Qed.

Lemma embed_loop_skips (this : plugin) (x : string) (l2 : list string) :
  forall l1 included head,
    In x included \/ In x l1 ->
    embed_loop this (l1 ++ x :: l2) included head
    = embed_loop this (l1 ++ l2) included head.
Proof.
induction l1 as [|y l1 IH]; intros included head Hx.
- destruct Hx as [Hx|[]]. cbn [app WebpackAssets.embed_loop].
  now rewrite (proj2 (included_spec x included) Hx).
- cbn [app WebpackAssets.embed_loop].
  destruct (existsb (String.eqb y) included) eqn:Ey.
  + apply IH. destruct Hx as [Hx|[<-|Hx]]; auto.
    left. now apply included_spec.
  + destruct (WebpackAssets.appendStyles _ _ _) as [head'|]; [|reflexivity].
    apply IH. destruct Hx as [Hx|[<-|Hx]]; auto;
      left; apply in_or_app; [now left | right; now left].
Qed.

Lemma appendStyles_spec (this : plugin) (names : list string) :
  (forall k, In k names -> assets this !! k <> None) ->
  forall head, exists added,
      appendStyles this names head = Ok (head ++ added)
      /\ length added = length names
      /\ Forall (from_assets this) added.
Proof.
induction names as [|k names IH]; intros Hk head.
- exists []. cbn. rewrite List.app_nil_r. now repeat split.
- cbn [WebpackAssets.appendStyles].
  destruct (assets this !! k) as [src|] eqn:E;
    [|now destruct (Hk k (or_introl eq_refl))].
  destruct (IH (fun k0 H0 => Hk k0 (or_intror H0))
               (head ++ [{| __external := true; textContent := source_text src |}]))
    as (added & -> & Hlen & Hall).
  eexists (_ :: added). rewrite <- List.app_assoc. split; [reflexivity|].
  split; [cbn; lia|]. constructor; [|assumption].
  split; [reflexivity|]. now exists k, src.
Qed.

Lemma embed_loop_spec (this : plugin) :
  (forall k, In k (Object_keys (assets this)) -> assets this !! k <> None) ->
  forall files included head, exists added,
      embed_loop this files included head = Ok (head ++ added)
      /\ Forall (from_assets this) added.
Proof.
intros Hk. induction files as [|f files IH]; intros included head.
- exists []. cbn. now rewrite List.app_nil_r.
- cbn [WebpackAssets.embed_loop].
  destruct (existsb (String.eqb f) included); [apply IH|].
  destruct (appendStyles_spec this
              (List.filter (fun file => minimatch file f) (Object_keys (assets this))))
    with (head := head) as (added1 & -> & _ & Hall1).
  { intros k Hin. apply filter_In in Hin as [Hin _]. now apply Hk. }
  destruct (IH (included ++ [f]) (head ++ added1)) as (added2 & -> & Hall2).
  exists (added1 ++ added2). rewrite List.app_assoc. split; [reflexivity|].
  now apply Forall_app.
Qed.
End Embedding.

(** X20. A file pattern that occurs again in
    [options.additionalStylesheets] is skipped: the configuration with the
    later occurrence embeds exactly what the configuration without it
    embeds. *)
Theorem embedAdditionalStylesheet_skips_repeats :
  forall (minimatch : string -> string -> bool)
         (Object_keys : gmap string source -> list string)
         (this : plugin) (l1 l2 : list string) (cssFile : string)
         (head : list externalStyle),
    In cssFile l1 ->
    embedAdditionalStylesheet minimatch Object_keys this
                              (Some (l1 ++ cssFile :: l2)) head
    = embedAdditionalStylesheet minimatch Object_keys this (Some (l1 ++ l2)) head.
Proof.
intros minimatch keys this l1 l2 cssFile head Hin.
unfold embedAdditionalStylesheet. apply embed_loop_skips. now right.
Qed.

Lemma embedAdditionalStylesheet_skips_repeats_witness :
  embedAdditionalStylesheet String.eqb (fun _ => ["main.css"]) Samples.sample_plugin
                            (Some (["main.css"] ++ "main.css" :: [])) []
  = embedAdditionalStylesheet String.eqb (fun _ => ["main.css"]) Samples.sample_plugin
                              (Some (["main.css"] ++ [])) [].
Proof.
apply (embedAdditionalStylesheet_skips_repeats String.eqb (fun _ => ["main.css"])
         Samples.sample_plugin ["main.css"] [] "main.css" []).
now left.
Defined.

(** X21. When the names listed by [Object.keys] are assets,
    [embedAdditionalStylesheet] returns; it keeps the children the head
    had, in place, and appends style elements that are marked external
    and carry the source text of an asset of the compilation.  Without a
    configured list it appends nothing. *)
Theorem embedAdditionalStylesheet_appends_assets :
  forall (minimatch : string -> string -> bool)
         (Object_keys : gmap string source -> list string)
         (this : plugin) (additionalStylesheets : option (list string))
         (head : list externalStyle),
    (forall k, In k (Object_keys (assets this)) -> assets this !! k <> None) ->
    (exists added,
        embedAdditionalStylesheet minimatch Object_keys this additionalStylesheets head
        = Ok (head ++ added)
        /\ Forall (from_assets this) added)
    /\ embedAdditionalStylesheet minimatch Object_keys this None head = Ok head.
Proof.
intros minimatch keys this files head Hk. split; [|reflexivity].
unfold embedAdditionalStylesheet. now apply embed_loop_spec.
Qed.

Lemma embedAdditionalStylesheet_appends_assets_witness :
  (exists added,
      embedAdditionalStylesheet String.eqb (fun _ => ["main.css"]) Samples.sample_plugin
                                (Some ["main.css"; "print.css"]) []
      = Ok ([] ++ added)
      /\ Forall (from_assets Samples.sample_plugin) added)
  /\ embedAdditionalStylesheet String.eqb (fun _ => ["main.css"]) Samples.sample_plugin
                               None []
     = Ok [].
Proof.
apply (embedAdditionalStylesheet_appends_assets String.eqb (fun _ => ["main.css"])
         Samples.sample_plugin (Some ["main.css"; "print.css"]) []).
intros k [<-|[]]. vm_compute. discriminate.
Defined.

End WebpackMore.

(** ** [tap]: the hook name *)

Module UtilFacts.
Import Util.

Lemma upper_not_hyphen (i : ascii) :
  isLower i = true -> Ascii.eqb (toUpperCase i) "-" = false.
Proof.
unfold isLower, toUpperCase. cbv zeta. intros H. apply andb_prop in H as [H1 H2].
apply Nat.leb_le in H1. apply Nat.leb_le in H2. apply Ascii.eqb_neq. intros E.
apply (f_equal nat_of_ascii) in E.
rewrite nat_ascii_embedding in E by lia.
change (nat_of_ascii "-") with 45 in E. lia.
Qed.

Lemma upper_not_lower (i : ascii) :
  isLower i = true -> isLower (toUpperCase i) = false.
Proof.
unfold isLower, toUpperCase. cbv zeta. intros H. apply andb_prop in H as [H1 H2].
apply Nat.leb_le in H1. apply Nat.leb_le in H2. rewrite nat_ascii_embedding by lia.
apply andb_false_iff. left. apply Nat.leb_gt. lia.
Qed.

Lemma camel_cons (c : ascii) (rest : string) :
  camel (String c rest)
  = match rest with
    | String i rest' =>
      if Ascii.eqb c "-" && isLower i
      then String (toUpperCase i) (camel rest')
      else String c (camel rest)
    | EmptyString => String c EmptyString
    end.
Proof. reflexivity. Qed.

Lemma has_kebab_cons (c : ascii) (rest : string) :
  has_kebab (String c rest)
  = match rest with
    | String i _ => (Ascii.eqb c "-" && isLower i) || has_kebab rest
    | EmptyString => false
    end.
Proof. reflexivity. Qed.

(** The first character of a converted text is not a lower-case letter
    unless it is the first character of the text. *)
Lemma camel_head (i : ascii) (rest : string) :
  exists j tail, camel (String i rest) = String j tail
                 /\ (j = i \/ isLower j = false).
Proof.
rewrite camel_cons. destruct rest as [|k rest']; [eauto|].
destruct (Ascii.eqb i "-" && isLower k) eqn:E; [|eauto].
apply andb_prop in E as [_ E]. eexists _, _. split; [reflexivity|].
right. now apply upper_not_lower.
Qed.

Lemma camel_no_kebab_bounded :
  forall n s, String.length s <= n -> has_kebab (camel s) = false.
Proof.
induction n as [|n IH]; intros s Hn.
- destruct s; [reflexivity | cbn in Hn; lia].
- destruct s as [|c rest]; [reflexivity|]. rewrite camel_cons.
  destruct rest as [|i rest']; [reflexivity|]. cbn [String.length] in Hn.
  destruct (Ascii.eqb c "-" && isLower i) eqn:E.
  + apply andb_prop in E as [_ Hi]. rewrite has_kebab_cons.
    destruct (camel rest') as [|j tail] eqn:Ec; [reflexivity|].
    rewrite (upper_not_hyphen i Hi). cbn [andb orb].
    rewrite <- Ec. apply IH. lia.
  + rewrite has_kebab_cons.
    destruct (camel_head i rest') as (j & tail & Ej & Hj). rewrite Ej.
    rewrite <- Ej. rewrite (IH (String i rest')) by (cbn; lia).
    rewrite orb_false_r.
    destruct Hj as [-> | Hj]; [assumption|]. rewrite Hj. apply andb_false_r.
Qed.

Lemma camel_fixed_bounded :
  forall n s, String.length s <= n -> has_kebab s = false -> camel s = s.
Proof.
induction n as [|n IH]; intros s Hn Hk.
- destruct s; [reflexivity | cbn in Hn; lia].
- destruct s as [|c rest]; [reflexivity|]. rewrite camel_cons.
  destruct rest as [|i rest']; [reflexivity|]. cbn [String.length] in Hn.
  rewrite has_kebab_cons in Hk. apply orb_false_iff in Hk as [Hc Hrest].
  rewrite Hc. f_equal. apply IH; [cbn; lia | assumption].
Qed.

(** X22. The hook name that [tap] looks up has no hyphen followed by a
    lower-case letter left in it; converting it again changes nothing,
    and a name without such a pair is looked up as it is. *)
Theorem tap_hook_name :
  forall (hook pluginName : string) (async : bool),
    exists name method,
      tap true hook pluginName async = HookCall name method pluginName
      /\ name = camel hook
      /\ has_kebab name = false
      /\ camel name = name
      /\ (has_kebab hook = false -> name = hook)
      /\ tap false hook pluginName async = PluginCall hook.
Proof.
intros hook pluginName async. eexists _, _. split; [reflexivity|].
split; [reflexivity|].
assert (Hk : has_kebab (camel hook) = false)
  by (apply (camel_no_kebab_bounded (String.length hook)); lia).
split; [exact Hk|].
split; [now apply (camel_fixed_bounded (String.length (camel hook)))|].
split; [|reflexivity].
intros H. now apply (camel_fixed_bounded (String.length hook)).
Qed.

End UtilFacts.

(** ** The walks on a sheet without nested rules *)

Module FlatSheetFacts.
Import Postcss JsArray Css FlatSheet SplitFilterFacts WalkFacts.

Section Answering.
Context {S : Type} (d : dialect) (verdict : node -> jsret).

Lemma visit_flat (c : node) (i : nat) (arr : list node) (s : S) :
  hasNestedRules c = false ->
  visit d (answering verdict) c i arr s
  = Ok ((kept verdict (unwired c), unwired c), s).
Proof. intros H. unfold visit, bind. now rewrite H. Qed.

Lemma filter_loop_flat (rest : list node) :
  flat rest ->
  forall done i out (s : S),
    filter_loop (visit d (answering verdict)) done rest i out s
    = Ok (out ++ List.filter (kept verdict) (map unwired rest), s).
Proof.
induction 1 as [|c rest Hc _ IH]; intros done i out s.
- cbn. unfold ret. now rewrite List.app_nil_r.
- cbn [filter_loop]. unfold bind at 1. rewrite (visit_flat c _ _ _ Hc).
  cbn [fst snd map List.filter]. rewrite IH.
  destruct (kept verdict (unwired c)); [|reflexivity].
  now rewrite <- List.app_assoc.
Qed.

Lemma visitMirrored_flat (l2 : list node) (c : node) (i : nat) (arr : list node)
      (s : S) :
  hasNestedRules c = false ->
  visitMirrored d (answering verdict) c i arr (Some l2) s
  = Ok ((kept verdict (wired l2 (i, c)), wired l2 (i, c)), s).
Proof.
intros H. unfold visitMirrored, bind. rewrite twin_at_some, H.
unfold ret, wired. cbn [fst snd]. now destruct (nth_error l2 i).
Qed.

Lemma splitFilter_loop_flat (l2 : list node) (rest : list node) :
  flat rest ->
  forall done i aOut bOut (s : S),
    splitFilter_loop (visitMirrored d (answering verdict)) (Some l2) done rest i
                     aOut bOut s
    = Ok ((aOut ++ List.filter (kept verdict) (map (wired l2) (indexed_from i rest)),
           bOut ++ List.filter (fun r => negb (kept verdict r))
                               (map (wired l2) (indexed_from i rest))), s).
Proof.
induction 1 as [|c rest Hc _ IH]; intros done i aOut bOut s.
- cbn. unfold ret. now rewrite !List.app_nil_r.
- cbn [splitFilter_loop]. unfold bind at 1.
  rewrite (visitMirrored_flat l2 c _ _ _ Hc). rewrite indexed_from_cons.
  cbn [fst snd map List.filter].
  destruct (kept verdict (wired l2 (i, c))); cbn [negb]; rewrite IH;
    now rewrite <- List.app_assoc.
Qed.
End Answering.

(** X23. On a sheet without nested rules, [walkStyleRules] with an
    iterator that only answers keeps exactly the rules on which the
    answer is not [false], in their order, each with [filterSelectors]
    installed and its twin link cleared. *)
Theorem walkStyleRules_flat_sheet :
  forall (S : Type) (d : dialect) (verdict : node -> jsret) (root : node)
         (l : list node) (s : S),
    nodes root = Some l ->
    flat l ->
    walkStyleRules d (answering verdict) root s
    = Ok (set_nodes (Some (List.filter (kept verdict) (map unwired l))) root, s).
Proof.
intros S d verdict root l s E Hflat.
rewrite walkStyleRules_eq, E.
assert (H := filter_loop_flat d verdict l Hflat [] 0 [] s).
cbn [app] in H.
destruct d; unfold bind, filter; now rewrite H.
Qed.

Lemma walkStyleRules_flat_sheet_witness :
  walkStyleRules JS (answering FlatSamples.verdict_to) FlatSamples.three_rules tt
  = Ok (set_nodes
          (Some [unwired (rule ["h1"] [decl "color" ":" "red"]);
                 unwired (rule ["h2"] [decl "color" ":" "blue"])])
          FlatSamples.three_rules, tt).
Proof.
apply (walkStyleRules_flat_sheet unit JS FlatSamples.verdict_to FlatSamples.three_rules
         [rule ["h1"] [decl "color" ":" "red"];
          rule ["to"] [decl "opacity" ":" "1"];
          rule ["h2"] [decl "color" ":" "blue"]] tt);
  [reflexivity | repeat constructor].
Defined.

(** X24. On a sheet without nested rules, the mirrored walk with an
    iterator that only answers wires every rule to the rule of the second
    tree at the same index, keeps in the first tree the rules on which the
    answer is not [false] and gives the second tree, in place of its own
    rules, the other rules of the first tree, both in their order. *)
Theorem reverseMirror_flat_sheet :
  forall (S : Type) (d : dialect) (verdict : node -> jsret) (root twin : node)
         (l l2 : list node) (s : S),
    nodes root = Some l ->
    nodes twin = Some l2 ->
    flat l ->
    walkStyleRulesWithReverseMirror d (answering verdict) root (Obj twin) s
    = Ok ((set_nodes
             (Some (List.filter (kept verdict) (map (wired l2) (indexed_from 0 l))))
             root,
           Obj (set_nodes
                  (Some (List.filter (fun r => negb (kept verdict r))
                                     (map (wired l2) (indexed_from 0 l))))
                  twin)), s).
Proof.
intros S d verdict root twin l l2 s E E2 Hflat.
rewrite walkMirror_eq, E, E2.
assert (H := splitFilter_loop_flat d verdict l2 l Hflat [] 0 [] [] s).
cbn [app] in H.
destruct d; unfold bind, splitFilter; now rewrite H.
Qed.

Lemma reverseMirror_flat_sheet_witness :
  walkStyleRulesWithReverseMirror JS (answering FlatSamples.verdict_to)
                                  FlatSamples.three_rules
                                  (Obj FlatSamples.three_rules) tt
  = Ok ((set_nodes
           (Some [wired [rule ["h1"] [decl "color" ":" "red"];
                         rule ["to"] [decl "opacity" ":" "1"];
                         rule ["h2"] [decl "color" ":" "blue"]]
                        (0, rule ["h1"] [decl "color" ":" "red"]);
                  wired [rule ["h1"] [decl "color" ":" "red"];
                         rule ["to"] [decl "opacity" ":" "1"];
                         rule ["h2"] [decl "color" ":" "blue"]]
                        (2, rule ["h2"] [decl "color" ":" "blue"])])
           FlatSamples.three_rules,
         Obj (set_nodes
                (Some [wired [rule ["h1"] [decl "color" ":" "red"];
                              rule ["to"] [decl "opacity" ":" "1"];
                              rule ["h2"] [decl "color" ":" "blue"]]
                             (1, rule ["to"] [decl "opacity" ":" "1"])])
                FlatSamples.three_rules)), tt).
Proof.
apply (reverseMirror_flat_sheet unit JS FlatSamples.verdict_to
         FlatSamples.three_rules FlatSamples.three_rules
         [rule ["h1"] [decl "color" ":" "red"];
          rule ["to"] [decl "opacity" ":" "1"];
          rule ["h2"] [decl "color" ":" "blue"]]
         [rule ["h1"] [decl "color" ":" "red"];
          rule ["to"] [decl "opacity" ":" "1"];
          rule ["h2"] [decl "color" ":" "blue"]] tt);
  [reflexivity | reflexivity | repeat constructor].
Defined.

End FlatSheetFacts.

(** ** What the iterator is handed *)

Module HandedRules.
Import Postcss JsArray Css WalkFacts FilterSelectorsFacts.

Section Logged.
Context {S : Type} (d : dialect) (it : @iterator S).

Local Abbreviation unwired_rule :=
  (fun n : node => has_filterSelectors n = true /\ _other n = None).

Lemma filter_loop_log (rest : list node) :
  (forall c, In c rest ->
             forall i arr s log r s' log',
               Forall unwired_rule log ->
               visit d (spy it) c i arr (s, log) = Ok (r, (s', log')) ->
               Forall unwired_rule log') ->
  forall done i out s log out' s' log',
    Forall unwired_rule log ->
    filter_loop (visit d (spy it)) done rest i out (s, log) = Ok (out', (s', log')) ->
    Forall unwired_rule log'.
Proof.
induction rest as [|c rest IH]; intros Hall done i out s log out' s' log' Hlog.
- cbn. unfold ret. intros H. now inversion H; subst.
- cbn [filter_loop]. unfold bind at 1.
  destruct (visit d (spy it) c i (done ++ c :: rest) (s, log))
    as [[r [s1 log1]]|] eqn:Ev; [|discriminate].
  apply IH; [intros c0 H0; apply Hall; now right|].
  eapply Hall; [now left | exact Hlog | exact Ev].
Qed.

Lemma walk_log :
  forall h n, height n <= h ->
  forall s log n' s' log',
    Forall unwired_rule log ->
    walkStyleRules d (spy it) n (s, log) = Ok (n', (s', log')) ->
    Forall unwired_rule log'.
Proof.
induction h as [|h IH]; intros n Hh s log n' s' log' Hlog;
  rewrite walkStyleRules_eq; destruct (nodes n) as [l|] eqn:E.
- destruct n; cbn in E; subst. cbn in Hh. lia.
- destruct d; [discriminate|]. unfold ret. intros H. now inversion H; subst.
- intros H.
  assert (H' : exists kept,
             filter_loop (visit d (spy it)) [] l 0 [] (s, log) = Ok (kept, (s', log'))).
  { destruct d; unfold bind, filter in H;
      destruct (filter_loop _ _ _ _ _ _) as [[kept [s1 log1]]|]; try discriminate;
      unfold ret in H; inversion H; subst; eauto. }
  destruct H' as (kept & Hloop).
  apply (filter_loop_log l) with (done := []) (i := 0) (out := []) (s := s)
                                 (log := log) (out' := kept) (s' := s');
    [|assumption|assumption].
  intros c Hc i arr s0 log0 r s1 log1 Hlog0. unfold visit, bind.
  destruct (hasNestedRules c).
  + destruct (walkStyleRules d (spy it) c (s0, log0)) as [[c1 [s2 log2]]|] eqn:Ew;
      [|discriminate].
    assert (Hlog2 : Forall unwired_rule log2).
    { apply (IH c) with (s := s0) (log := log0) (n' := c1) (s' := s2);
        [pose proof (height_child n c l E Hc); lia | assumption | assumption]. }
    rewrite invoke_spy. unfold ret. intros H1. inversion H1; subst.
    apply Forall_app. split; [assumption|]. constructor; [|constructor].
    now destruct c1.
  + unfold ret. rewrite invoke_spy. intros H1. inversion H1; subst.
    apply Forall_app. split; [assumption|]. constructor; [|constructor].
    now destruct c.
- destruct d; [discriminate|]. unfold ret. intros H. now inversion H; subst.
Qed.
End Logged.

(** X25. Every rule that [walkStyleRules] hands to the iterator has
    [filterSelectors] installed and no twin link, whatever link it had
    before; so [rule.filterSelectors] called there with a text predicate
    assigns to the rule the selectors that satisfy it (a rule left
    without a selector reads back one empty selector) and touches no
    other node. *)
Theorem walkStyleRules_hands_unwired_rules :
  forall (S : Type) (d : dialect) (it : @iterator S) (root root' : node) (s s' : S)
         (calls : list node),
    walkStyleRules d (spy it) root (s, []) = Ok (root', (s', calls)) ->
    Forall (fun rule =>
              has_filterSelectors rule = true
              /\ _other rule = None
              /\ forall sels f,
                  selectors rule = Some sels ->
                  filterSelectors rule (fun sel _ _ _ => f sel)
                  = Ok (set_selectors
                          (Some match List.filter f sels with
                                | [] => [""]
                                | kept => kept
                                end)
                          rule))
           calls.
Proof.
intros S d it root root' s s' calls H.
pose proof (walk_log d it (height root) root (le_n _) s [] root' s' calls
                     (List.Forall_nil _) H) as Hlog.
apply (List.Forall_impl _ (P := fun n => has_filterSelectors n = true /\ _other n = None));
  [|exact Hlog].
intros rule [Hf Ho]. split; [assumption|]. split; [assumption|].
intros sels f Hs. rewrite (filterSelectors_text_alone rule sels f Ho Hs).
unfold assigned. now destruct (List.filter f sels).
Qed.

Lemma walkStyleRules_hands_unwired_rules_witness :
  exists root' s' calls,
    walkStyleRules JS (spy Samples.drop_to) Samples.webkit_twin (tt, [])
    = Ok (root', (s', calls))
    /\ length calls = 5
    /\ Forall (fun rule =>
                 has_filterSelectors rule = true
                 /\ _other rule = None
                 /\ forall sels f,
                     selectors rule = Some sels ->
                     filterSelectors rule (fun sel _ _ _ => f sel)
                     = Ok (set_selectors
                             (Some match List.filter f sels with
                                   | [] => [""]
                                   | kept => kept
                                   end)
                             rule))
              calls.
Proof.
eexists _, _, _. split; [vm_compute; reflexivity|]. split; [reflexivity|].
eapply (walkStyleRules_hands_unwired_rules unit JS Samples.drop_to
          Samples.webkit_twin _ tt).
vm_compute. reflexivity.
Defined.

End HandedRules.

(** ** Minified block openings *)

Module SerializerOpenings.
Import Postcss JsString Serializer SerializerSpec SerializerFacts.

Lemma replaceSpaceBrace_cons (c : ascii) (s : string) :
  replaceSpaceBrace (String c s)
  = match s with
    | String e EmptyString =>
      if isSpace c && Ascii.eqb e "{" then "{" else String c s
    | _ => String c (replaceSpaceBrace s)
    end.
Proof. now destruct s as [|e [|e' s']]. Qed.

Lemma replaceSpaceBrace_end (text : string) (ws : ascii) :
  isSpace ws = true ->
  replaceSpaceBrace (text +:+ String ws "{") = text +:+ "{".
Proof.
intros Hws. induction text as [|c text IH].
- change ("" +:+ String ws "{") with (String ws "{").
  rewrite replaceSpaceBrace_cons, Hws. reflexivity.
- rewrite append_cons, replaceSpaceBrace_cons, IH.
  destruct text as [|e text']; [reflexivity|].
  rewrite append_cons. now destruct (text' +:+ String ws "{") eqn:E;
    [destruct text'; discriminate|].
Qed.

(** X26. When it minifies, the serializer opens a rule that has a
    selector list with its selectors joined by commas and a brace,
    whatever text [stringify] gave; it opens any other block with the
    text given, the white space before the final brace removed. *)
Theorem compress_block_openings :
  forall (d : dialect) (nd : node) (text : string) (ws : ascii) (cssStr : string),
    isSpace ws = true ->
    type nd <> "decl" ->
    type nd <> "comment" ->
    builder d {| compress := true |} cssStr
            {| c_result := text +:+ String ws "{"; c_node := Some nd;
               c_type := Some "start" |}
    = Ok (cssStr
          +:+ match (if String.eqb (type nd) "rule" then selectors nd else None) with
              | Some sels => join "," sels +:+ "{"
              | None => text +:+ "{"
              end).
Proof.
intros d nd text ws cssStr Hws Hdecl Hcomment.
apply String.eqb_neq in Hdecl, Hcomment.
unfold builder, closesStyle, node_type_is.
cbn [c_node c_type c_result compress negb type_is]. rewrite Hdecl, Hcomment.
cbn [andb]. change (String.eqb "start" "start") with true. cbn iota.
destruct (if String.eqb (type nd) "rule" then selectors nd else None);
  [now destruct d|].
rewrite (replaceSpaceBrace_end text ws Hws). now destruct d.
Qed.

Lemma compress_block_openings_witness :
  builder JS {| compress := true |} ""
          {| c_result := "@media screen" +:+ String " " "{";
             c_node := Some (atrule "media" []); c_type := Some "start" |}
  = Ok "@media screen{".
Proof.
apply (compress_block_openings JS (atrule "media" []) "@media screen" " " "");
  [reflexivity | discriminate | discriminate].
Defined.

End SerializerOpenings.
